(** * quotable: splitting a line into words, with quoting and backslashes

    A shallow embedding of [quotable.go] (package [quotable]) and the
    properties of its word splitter [Split].

    Conventions of the embedding.
    - A Go [string] is a sequence of bytes: a Rocq [string].
    - A [rune] is an [int32] and an [int] has 64 bits: both are a [Z],
      with the wrap-around of the arithmetic the code performs on them
      ([hexValue*16 + val], [parseHex--]) written out.
    - The library functions the code calls ([unicode.IsSpace],
      [WriteRune], the decoding done by [range] over a string, the [%c]
      verb) are written out as the Go library defines them.
    - [strings.Builder] is the string it has accumulated; [WriteRune]
      appends the UTF-8 encoding of a rune, as [utf8.AppendRune] does.
    - The [quoter] is threaded explicitly: each method takes the quoter
      and returns the updated one.
    - A [stateFunc] value is one of the four functions held by the table
      [stateFuncs]; [currentFunc] is modelled by the [state] whose table
      entry it is.  The [backslash] field is one of the two functions
      [Split] stores in it.
    - A call that does not return normally (an index out of range, or the
      unbounded recursion [stateHex] would enter on a stack it cannot pop)
      is [None]. *)

From Stdlib Require Import ZArith List String Ascii Bool Lia.
Import ListNotations.
Open Scope Z_scope.

(* ------------------------------------------------------------------ *)
(** ** Runes and their UTF-8 form (Go's [unicode/utf8] and [unicode]) *)

Definition rune := Z.

Definition wrap32 (z : Z) : Z := (z + 2 ^ 31) mod 2 ^ 32 - 2 ^ 31.
Definition wrap64 (z : Z) : Z := (z + 2 ^ 63) mod 2 ^ 64 - 2 ^ 63.
Definition uint32 (z : Z) : Z := z mod 2 ^ 32.

Definition byteVal (a : ascii) : Z := Z.of_N (N_of_ascii a).
Definition byte (z : Z) : ascii := ascii_of_N (Z.to_N (z mod 256)).

Module utf8.

Definition RuneError : rune := 65533.
Definition MaxRune : rune := 1114111.
Definition surrogateMin : Z := 55296.
Definition surrogateMax : Z := 57343.
Definition rune1Max : Z := 127.
Definition rune2Max : Z := 2047.
Definition rune3Max : Z := 65535.

Definition tx : Z := 128.
Definition t2 : Z := 192.
Definition t3 : Z := 224.
Definition t4 : Z := 240.
Definition maskx : Z := 63.
Definition mask2 : Z := 31.
Definition mask3 : Z := 15.
Definition mask4 : Z := 7.
Definition locb : Z := 128.
Definition hicb : Z := 191.

Definition cont (r : rune) (sh : Z) : ascii :=
  byte (Z.lor tx (Z.land (Z.shiftr r sh) maskx)).

Definition encode3 (r : rune) : string :=
  String (byte (Z.lor t3 (Z.shiftr r 12)))
    (String (cont r 6) (String (cont r 0) EmptyString)).

Definition encode4 (r : rune) : string :=
  String (byte (Z.lor t4 (Z.shiftr r 18)))
    (String (cont r 12) (String (cont r 6) (String (cont r 0) EmptyString))).

(** [utf8.AppendRune] applied to an empty slice: the bytes written for [r].
    Values that are no code point (negative, above [MaxRune], surrogate
    halves) are written as [RuneError]. *)
Definition AppendRune (r : rune) : string :=
  let i := uint32 r in
  if i <=? rune1Max then String (byte r) EmptyString
  else if i <=? rune2Max then
    String (byte (Z.lor t2 (Z.shiftr r 6))) (String (cont r 0) EmptyString)
  else if (MaxRune <? i) || ((surrogateMin <=? i) && (i <=? surrogateMax))
    then encode3 RuneError
  else if i <=? rune3Max then encode3 r
  else encode4 r.

(** The entry of the table [first] for a leading byte: plain ASCII, an
    invalid leading byte, or the length of the sequence it starts and the
    range its second byte must lie in. *)
Inductive firstInfo : Type :=
| FAscii
| FInvalid
| FLead (sz : Z) (lo hi : Z).

Definition first (s0 : Z) : firstInfo :=
  if s0 <? 128 then FAscii
  else if s0 <? 194 then FInvalid
  else if s0 <? 224 then FLead 2 locb hicb
  else if s0 =? 224 then FLead 3 160 hicb
  else if s0 =? 237 then FLead 3 locb 159
  else if s0 <? 240 then FLead 3 locb hicb
  else if s0 =? 240 then FLead 4 144 hicb
  else if s0 <? 244 then FLead 4 locb hicb
  else if s0 =? 244 then FLead 4 locb 143
  else FInvalid.

Definition isCont (b : Z) : bool := (locb <=? b) && (b <=? hicb).

(** The runes a [for _, c := range s] loop visits, in order: each step
    decodes one sequence as [utf8.DecodeRuneInString] does, and a byte
    that starts no valid sequence yields [RuneError] and is skipped
    alone. *)
Fixpoint rangeRunes (s : string) : list rune :=
  match s with
  | EmptyString => []
  | String a0 r0 =>
      let s0 := byteVal a0 in
      match first s0 with
      | FAscii => s0 :: rangeRunes r0
      | FInvalid => RuneError :: rangeRunes r0
      | FLead sz lo hi =>
          match r0 with
          | EmptyString => RuneError :: rangeRunes r0
          | String a1 r1 =>
              let s1 := byteVal a1 in
              if (s1 <? lo) || (hi <? s1) then RuneError :: rangeRunes r0
              else if sz <=? 2 then
                Z.lor (Z.shiftl (Z.land s0 mask2) 6) (Z.land s1 maskx)
                  :: rangeRunes r1
              else
                match r1 with
                | EmptyString => RuneError :: rangeRunes r0
                | String a2 r2 =>
                    let s2 := byteVal a2 in
                    if negb (isCont s2) then RuneError :: rangeRunes r0
                    else if sz <=? 3 then
                      Z.lor (Z.lor (Z.shiftl (Z.land s0 mask3) 12)
                                   (Z.shiftl (Z.land s1 maskx) 6))
                            (Z.land s2 maskx)
                        :: rangeRunes r2
                    else
                      match r2 with
                      | EmptyString => RuneError :: rangeRunes r0
                      | String a3 r3 =>
                          let s3 := byteVal a3 in
                          if negb (isCont s3) then RuneError :: rangeRunes r0
                          else
                            Z.lor (Z.lor (Z.lor
                                     (Z.shiftl (Z.land s0 mask4) 18)
                                     (Z.shiftl (Z.land s1 maskx) 12))
                                     (Z.shiftl (Z.land s2 maskx) 6))
                                  (Z.land s3 maskx)
                              :: rangeRunes r3
                      end
                end
          end
      end
  end.

End utf8.

Module unicode.

(** [unicode.IsSpace]: the code points with the White_Space property. *)
Definition IsSpace (r : rune) : bool :=
  if uint32 r <=? 255 then
    ((9 <=? r) && (r <=? 13)) || (r =? 32) || (r =? 133) || (r =? 160)
  else
    (r =? 5760) || ((8192 <=? r) && (r <=? 8202)) || (r =? 8232)
    || (r =? 8233) || (r =? 8239) || (r =? 8287) || (r =? 12288).

End unicode.

(** The runes the source names by character literals. *)
Definition ch (a : ascii) : rune := byteVal a.

(* ------------------------------------------------------------------ *)
(** ** Options and errors *)

Record Options : Type := mkOptions {
  FancyBackslash : bool;
  OnlySpaceIsSpace : bool
}.

(** [type Error string]; a nil [error] is [None]. *)
Definition Error : Type := string.

Definition MismatchedQuote : Error := "mismatched quote"%string.
Definition IncompleteBackslash : Error := "incomplete backslash sequence"%string.

(** The [%c] verb of [fmt]: the UTF-8 form of the rune, [RuneError] for a
    value that is out of range. *)
Definition fmtC (c : rune) : string :=
  utf8.AppendRune (if (c <? 0) || (utf8.MaxRune <? c) then utf8.RuneError else c).

Definition invalidEscape (c : rune) : Error :=
  ("invalid backslash escape character '" ++ fmtC c ++ "'")%string.

(* ------------------------------------------------------------------ *)
(** ** The quoter *)

Inductive state : Type := normal | quoted | backslash | hex.

(** The two functions [Split] stores in the [backslash] field. *)
Inductive backslashFunc : Type := fnSimpleBackslash | fnFancyBackslash.

Record quoter : Type := mkQuoter {
  buf : string;
  states : list state;
  currentFunc : state;          (* the entry of [stateFuncs] it holds *)
  partial : bool;
  isspace : rune -> bool;
  backslashF : backslashFunc;   (* the field [backslash] *)
  parseHex : Z;
  hexValue : rune;
  indexes : list Z;
  err : option Error
}.

Definition isExactSpace (r : rune) : bool := r =? ch " ".

(** Field updates. *)
Definition setBuf (q : quoter) (b : string) : quoter :=
  mkQuoter b (states q) (currentFunc q) (partial q) (isspace q)
           (backslashF q) (parseHex q) (hexValue q) (indexes q) (err q).
Definition setStack (q : quoter) (st : list state) (f : state) : quoter :=
  mkQuoter (buf q) st f (partial q) (isspace q)
           (backslashF q) (parseHex q) (hexValue q) (indexes q) (err q).
Definition setPartial (q : quoter) (p : bool) : quoter :=
  mkQuoter (buf q) (states q) (currentFunc q) p (isspace q)
           (backslashF q) (parseHex q) (hexValue q) (indexes q) (err q).
Definition setHex (q : quoter) (n : Z) (v : rune) : quoter :=
  mkQuoter (buf q) (states q) (currentFunc q) (partial q) (isspace q)
           (backslashF q) n v (indexes q) (err q).
Definition setIndexes (q : quoter) (ix : list Z) : quoter :=
  mkQuoter (buf q) (states q) (currentFunc q) (partial q) (isspace q)
           (backslashF q) (parseHex q) (hexValue q) ix (err q).
Definition setErr (q : quoter) (e : option Error) : quoter :=
  mkQuoter (buf q) (states q) (currentFunc q) (partial q) (isspace q)
           (backslashF q) (parseHex q) (hexValue q) (indexes q) e.

(** [q.buf.WriteRune(r)] and [q.buf.Len()]. *)
Definition WriteRune (q : quoter) (r : rune) : quoter :=
  setBuf q (buf q ++ utf8.AppendRune r)%string.
Definition bufLen (q : quoter) : Z := Z.of_nat (String.length (buf q)).

(** The top of the stack, [q.states[len(q.states)-1]]. *)
Definition top (st : list state) : option state :=
  match rev st with
  | [] => None
  | s :: _ => Some s
  end.

Definition push (q : quoter) (s : state) : quoter :=
  let st := match states q with
            | [] => states q ++ [normal]
            | _ => states q
            end in
  setStack q (st ++ [s]) s.

Definition pop (q : quoter) : quoter :=
  if (1 <? Z.of_nat (List.length (states q))) then
    let st := removelast (states q) in
    setStack q st (last st normal)
  else q.

Definition newWord (q : quoter) : quoter :=
  if negb (partial q) then q
  else setPartial (setIndexes q (indexes q ++ [bufLen q])) false.

Definition simpleBackslash (q : quoter) (c : rune) : quoter :=
  pop (WriteRune q c).

Definition startHex (q : quoter) (n : Z) : quoter :=
  push (setHex q n 0) hex.

Definition fancyBackslash (q : quoter) (c : rune) : quoter :=
  let q := pop q in
  if c =? ch "x" then startHex q 2
  else if c =? ch "u" then startHex q 4
  else if c =? ch "U" then startHex q 8
  else if c =? ch "a" then WriteRune q 7
  else if c =? ch "b" then WriteRune q 8
  else if c =? ch "f" then WriteRune q 12
  else if c =? ch "n" then WriteRune q 10
  else if c =? ch "r" then WriteRune q 13
  else if c =? ch "t" then WriteRune q 9
  else if c =? ch "v" then WriteRune q 11
  else if c =? ch "\" then WriteRune q (ch "\")
  else if c =? ch "034" then WriteRune q (ch "034")
  else if c =? ch "'" then WriteRune q (ch "'")
  else WriteRune (setErr q (Some (invalidEscape c))) c.

Definition hexDigitsTable : list Z :=
  [ -1; -1; -1; -1; -1; -1; -1; -1; -1; -1; -1; -1; -1; -1; -1; -1;
    -1; -1; -1; -1; -1; -1; -1; -1; -1; -1; -1; -1; -1; -1; -1; -1;
    -1; -1; -1; -1; -1; -1; -1; -1; -1; -1; -1; -1; -1; -1; -1; -1;
    0; 1; 2; 3; 4; 5; 6; 7; 8; 9; -1; -1; -1; -1; -1; -1;
    -1; 10; 11; 12; 13; 14; 15; -1; -1; -1; -1; -1; -1; -1; -1; -1;
    -1; -1; -1; -1; -1; -1; -1; -1; -1; -1; -1; -1; -1; -1; -1; -1;
    -1; 10; 11; 12; 13; 14; 15; -1; -1; -1; -1; -1; -1; -1; -1; -1;
    -1; -1; -1; -1; -1; -1; -1; -1; -1; -1; -1; -1; -1; -1; -1; -1 ].

(** [hexDigits[c]]; an index outside the array does not return. *)
Definition hexDigits (c : rune) : option Z :=
  if c <? 0 then None else nth_error hexDigitsTable (Z.to_nat c).

Definition stateNormal (q : quoter) (c : rune) : quoter :=
  if isspace q c then newWord q
  else
    let q := if c =? ch "\" then push q backslash
             else if c =? ch "034" then push q quoted
             else WriteRune q c in
    setPartial q true.

Definition stateBackslash (q : quoter) (c : rune) : quoter :=
  match backslashF q with
  | fnSimpleBackslash => simpleBackslash q c
  | fnFancyBackslash => fancyBackslash q c
  end.

Definition stateQuoted (q : quoter) (c : rune) : quoter :=
  if c =? ch "\" then push q backslash
  else if c =? ch "034" then pop q
  else WriteRune q c.

(** The digit branch of [stateHex]: fold the digit in, and write the value
    out once the last wanted digit has arrived. *)
Definition hexDigitStep (q : quoter) (val : Z) : quoter :=
  let q := setHex q (wrap64 (parseHex q - 1)) (wrap32 (hexValue q * 16 + val)) in
  if parseHex q =? 0 then pop (WriteRune q (hexValue q)) else q.

(** [stateHex], and through it the dispatch [q.currentFunc(q, c)].  The
    only call that can recur is the hand-back at the end of [stateHex];
    [fuel] bounds how many times it is taken. *)
Fixpoint stateHex (fuel : nat) (q : quoter) (c : rune) : option quoter :=
  let handBack :=
    let q := pop (WriteRune q (hexValue q)) in
    match currentFunc q with
    | normal => Some (stateNormal q c)
    | quoted => Some (stateQuoted q c)
    | backslash => Some (stateBackslash q c)
    | hex => match fuel with
             | O => None
             | S fuel' => stateHex fuel' q c
             end
    end in
  if c <? 128 then
    match hexDigits c with
    | None => None
    | Some val => if negb (val =? -1) then Some (hexDigitStep q val) else handBack
    end
  else handBack.

(** [q.next(c)]: call [q.currentFunc].  Every nested hand-back of
    [stateHex] but the last follows a [pop] that shortened the stack, so
    the depth of the stack bounds their number. *)
Definition next (q : quoter) (c : rune) : option quoter :=
  match currentFunc q with
  | normal => Some (stateNormal q c)
  | quoted => Some (stateQuoted q c)
  | backslash => Some (stateBackslash q c)
  | hex => stateHex (S (List.length (states q))) q c
  end.

(** The loop [for _, c := range s { q.next(c) }] over the runes of [s]. *)
Fixpoint feed (q : quoter) (cs : list rune) : option quoter :=
  match cs with
  | [] => Some q
  | c :: cs' =>
      match next q c with
      | None => None
      | Some q' => feed q' cs'
      end
  end.

(** [bufStr[prev:next]]; out-of-order or out-of-range bounds do not return. *)
Definition slice (s : string) (lo hi : Z) : option string :=
  if (0 <=? lo) && (lo <=? hi) && (hi <=? Z.of_nat (String.length s))
  then Some (substring (Z.to_nat lo) (Z.to_nat (hi - lo)) s)
  else None.

(** The loop filling [words] from [q.indexes]. *)
Fixpoint sliceWords (bufStr : string) (prev : Z) (ix : list Z)
  : option (list string) :=
  match ix with
  | [] => Some []
  | nxt :: rest =>
      match slice bufStr prev nxt, sliceWords bufStr nxt rest with
      | Some w, Some ws => Some (w :: ws)
      | _, _ => None
      end
  end.

(** The quoter [Split] starts from. *)
Definition initQuoter (opt : Options) : quoter :=
  mkQuoter EmptyString [normal] normal false
           (if OnlySpaceIsSpace opt then isExactSpace else unicode.IsSpace)
           (if FancyBackslash opt then fnFancyBackslash else fnSimpleBackslash)
           0 0 [] None.

(** The end-of-input switch on the top of the stack. *)
Definition atEnd (q : quoter) : option quoter :=
  match top (states q) with
  | None => None
  | Some quoted => Some (setErr q (Some MismatchedQuote))
  | Some backslash =>
      Some (setErr (WriteRune q (ch "\")) (Some IncompleteBackslash))
  | Some hex => Some q
  | Some normal => Some q
  end.

(** The quoter once the switch and the last [newWord] have run. *)
Definition endQuoter (q : quoter) : option quoter :=
  match atEnd q with
  | None => None
  | Some q => Some (newWord q)
  end.

(** What [Split] returns from the quoter the loop has left. *)
Definition finish (q : quoter) : option (list string * option Error) :=
  match endQuoter q with
  | None => None
  | Some q =>
      match sliceWords (buf q) 0 (indexes q) with
      | None => None
      | Some words => Some (words, err q)
      end
  end.

Definition zeroOptions : Options := mkOptions false false.

Definition optionsOf (qopt : option Options) : Options :=
  match qopt with
  | Some o => o
  | None => zeroOptions
  end.

(** The state after the loop of [Split] has consumed the runes [cs]. *)
Definition run (opt : Options) (cs : list rune) : option quoter :=
  feed (initQuoter opt) cs.

Definition Split (s : string) (qopt : option Options)
  : option (list string * option Error) :=
  match run (optionsOf qopt) (utf8.rangeRunes s) with
  | None => None
  | Some q => finish q
  end.

(** The quoter after the loop of [Split] on [s] has made [n] iterations
    (all of them, when [s] has fewer than [n] runes). *)
Definition stepsOf (opt : Options) (s : string) (n : nat) : option quoter :=
  run opt (firstn n (utf8.rangeRunes s)).

(** The characters [fancyBackslash] has a case for. *)
Definition escapeChars : list rune :=
  [ ch "x"; ch "u"; ch "U"; ch "a"; ch "b"; ch "f"; ch "n"; ch "r"; ch "t";
    ch "v"; ch "\"; ch "034"; ch "'" ].

Definition isEscapeChar (c : rune) : bool :=
  existsb (fun e => c =? e) escapeChars.

(** A character for which [hexDigits] holds a digit value. *)
Definition isHexDigit (c : rune) : bool :=
  (c <? 128) &&
  match hexDigits c with
  | Some val => negb (val =? -1)
  | None => false
  end.

(* ------------------------------------------------------------------ *)
(** ** Inputs of the package's tests *)

Definition dq : string := String "034" EmptyString.
Definition tab : string := String "009" EmptyString.
Definition nul : string := String "000" EmptyString.
Definition fancyOptions : Options := mkOptions true false.
Definition strictOptions : Options := mkOptions false true.
Definition fancy : option Options := Some fancyOptions.
Definition strict : option Options := Some strictOptions.

(** The state function in charge once the loop has consumed [cs]. *)
Definition modeAfter (opt : Options) (cs : list rune) : option state :=
  option_map currentFunc (run opt cs).

(* ------------------------------------------------------------------ *)
(** ** The states a run of [Split] can reach *)

Arguments wrap32 : simpl never.
Arguments wrap64 : simpl never.
Arguments utf8.AppendRune : simpl never.
Arguments invalidEscape : simpl never.

(** The stacks the automaton builds: [normal] at the bottom, possibly
    [quoted] above it, possibly one escape state on top. *)
Definition stackShape (st : list state) : Prop :=
  st = [normal] \/ st = [normal; quoted]
  \/ st = [normal; backslash] \/ st = [normal; hex]
  \/ st = [normal; quoted; backslash] \/ st = [normal; quoted; hex].

Fixpoint nonDecreasing (l : list Z) : bool :=
  match l with
  | a :: (b :: _) as r => (a <=? b) && nonDecreasing r
  | _ => true
  end.

Fixpoint strictlyIncreasing (l : list Z) : bool :=
  match l with
  | a :: (b :: _) as r => (a <? b) && strictlyIncreasing r
  | _ => true
  end.

(** Every boundary lies between [lo] and [hi]. *)
Definition within (lo hi : Z) (l : list Z) : Prop :=
  Forall (fun i => lo <= i <= hi) l.

Record Inv (q : quoter) : Prop := mkInv {
  inv_shape : stackShape (states q);
  inv_current : top (states q) = Some (currentFunc q);
  inv_partial : currentFunc q <> normal -> partial q = true;
  inv_hex : currentFunc q = hex -> 1 <= parseHex q <= 8;
  inv_sorted : nonDecreasing (indexes q) = true;
  inv_within : within 0 (bufLen q) (indexes q);
  inv_fresh : partial q = false -> last (indexes q) 0 = bufLen q
}.

(** The steps [next] takes from a reachable quoter, one constructor per
    path through the state functions. *)
Inductive Step (q : quoter) (c : rune) : quoter -> Prop :=
| StepNormal :
    currentFunc q = normal -> Step q c (stateNormal q c)
| StepQuoted :
    currentFunc q = quoted -> Step q c (stateQuoted q c)
| StepBackslash :
    currentFunc q = backslash -> Step q c (stateBackslash q c)
| StepHexDigit val :
    currentFunc q = hex -> isHexDigit c = true -> hexDigits c = Some val ->
    Step q c (hexDigitStep q val)
| StepHexBackNormal :
    currentFunc q = hex -> isHexDigit c = false ->
    currentFunc (pop (WriteRune q (hexValue q))) = normal ->
    Step q c (stateNormal (pop (WriteRune q (hexValue q))) c)
| StepHexBackQuoted :
    currentFunc q = hex -> isHexDigit c = false ->
    currentFunc (pop (WriteRune q (hexValue q))) = quoted ->
    Step q c (stateQuoted (pop (WriteRune q (hexValue q))) c).

(** Two quoters with the same configuration. *)
Definition sameConfig (q q' : quoter) : Prop :=
  isspace q' = isspace q /\ backslashF q' = backslashF q.

(* ------------------------------------------------------------------ *)
(** ** Vocabulary of the further properties *)

(** The test [Split] installs in [q.isspace]. *)
Definition isSpaceFor (opt : Options) : rune -> bool :=
  if OnlySpaceIsSpace opt then isExactSpace else unicode.IsSpace.

(** The loop and the end of [Split], on the runes of its input. *)
Definition splitRunes (opt : Options) (cs : list rune)
  : option (list string * option Error) :=
  match run opt cs with
  | None => None
  | Some q => finish q
  end.

(** Strings written one after the other. *)
Fixpoint catWords (ws : list string) : string :=
  match ws with
  | [] => EmptyString
  | w :: ws' => (w ++ catWords ws')%string
  end.

(** What [WriteRune] writes for each rune of a list, in order. *)
Definition encodeRunes (cs : list rune) : string :=
  catWords (map utf8.AppendRune cs).

(** The single-character escapes of [fancyBackslash]: the character after
    the backslash and the rune written for it. *)
Definition letterEscapes : list (rune * rune) :=
  [ (ch "a", 7); (ch "b", 8); (ch "f", 12); (ch "n", 10); (ch "r", 13);
    (ch "t", 9); (ch "v", 11); (ch "\", ch "\"); (ch "034", ch "034");
    (ch "'", ch "'") ].

(** The escapes of [fancyBackslash] that take hex digits: the character
    after the backslash and the number of digits wanted. *)
Definition hexEscapes : list (rune * Z) :=
  [ (ch "x", 2); (ch "u", 4); (ch "U", 8) ].

(** The value [stateHex] accumulates from [v] over the digit values
    [vals], with the wrap-around of [int32]. *)
Definition hexFold (v : rune) (vals : list Z) : rune :=
  fold_left (fun a d => wrap32 (a * 16 + d)) vals v.

(** [d] is a hex digit of value [v]. *)
Definition hexDigitOf (d : rune) (v : Z) : Prop :=
  isHexDigit d = true /\ hexDigits d = Some v.

(** A word is in progress or a boundary has been recorded. *)
Definition started (q : quoter) : Prop :=
  partial q = true \/ indexes q <> [].

(** A byte that is one ASCII character. *)
Definition isAscii (a : ascii) : bool := byteVal a <? 128.

(** An ASCII character that is no separator, backslash or quote. *)
Definition plainByte (opt : Options) (a : ascii) : bool :=
  isAscii a && negb (isSpaceFor opt (byteVal a))
  && negb (byteVal a =? ch "\") && negb (byteVal a =? ch "034").

(** A word made of such characters, and of one at least. *)
Definition plainWord (opt : Options) (w : string) : bool :=
  negb (Nat.eqb (String.length w) 0)
  && forallb (plainByte opt) (list_ascii_of_string w).

(** An ASCII character that is no backslash or quote. *)
Definition quotableByte (a : ascii) : bool :=
  isAscii a && negb (byteVal a =? ch "\") && negb (byteVal a =? ch "034").

(** [q'] has the buffer and the boundaries of [q], possibly with more
    after them. *)
Definition extends (q q' : quoter) : Prop :=
  (exists x, buf q' = (buf q ++ x)%string)
  /\ (exists more, indexes q' = indexes q ++ more).

(** [q'] is [q] moved behind a buffer [b] with boundaries [ix] and a
    pending error [e0]: the same stack and flags, the buffer of [q] after
    [b], its boundaries after [ix] and moved by the length of [b], its
    error if it has one and [e0] otherwise; the hex accumulator is the
    same while a hex escape is open. *)
Definition shifted (b : string) (ix : list Z) (e0 : option Error)
    (q q' : quoter) : Prop :=
  states q' = states q
  /\ currentFunc q' = currentFunc q
  /\ partial q' = partial q
  /\ isspace q' = isspace q
  /\ backslashF q' = backslashF q
  /\ buf q' = (b ++ buf q)%string
  /\ indexes q'
     = ix ++ map (Z.add (Z.of_nat (String.length b))) (indexes q)
  /\ err q' = match err q with
              | Some e => Some e
              | None => e0
              end
  /\ (currentFunc q = hex ->
      parseHex q' = parseHex q /\ hexValue q' = hexValue q).

(** The value a hex digit should have, and -1 for any other character. *)
Definition hexDigitValue (c : rune) : Z :=
  if (ch "0" <=? c) && (c <=? ch "9") then c - ch "0"
  else if (ch "a" <=? c) && (c <=? ch "f") then c - ch "a" + 10
  else if (ch "A" <=? c) && (c <=? ch "F") then c - ch "A" + 10
  else -1.

(** The fields of a quoter other than the two [Split] sets from its
    options. *)
Definition core (q : quoter) :=
  (buf q, states q, currentFunc q, partial q, parseHex q, hexValue q,
   indexes q, err q).

(* ------------------------------------------------------------------ *)
(** ** The test driver of [quotable_test.go] *)

(** [quoteTest] of [quotable_test.go]; its field [err] is [errWanted]
    here, and an empty one expects no error. *)
Record quoteTest : Type := mkQuoteTest {
  name : string;
  input : string;
  opts : option Options;
  output : list string;
  errWanted : string
}.

(** [Error.Error]: the message of the error. *)
Definition ErrorString (e : Error) : string := e.

(** The first loop of [doTest]: one report for each expected word that is
    missing from [r] or differs from the word at its index. *)
Fixpoint reportWords (r : list string) (i : nat) (out : list string) : nat :=
  match out with
  | [] => 0%nat
  | o :: out' =>
      ((match nth_error r i with
        | None => 1
        | Some ri => if String.eqb ri o then 0 else 1
        end) + reportWords r (S i) out')%nat
  end.

(** The reports on the returned error. *)
Definition reportError (wanted : string) (e : option Error) : nat :=
  match e with
  | None => if String.eqb wanted "" then 0%nat else 1%nat
  | Some got =>
      if String.eqb wanted "" then 1%nat
      else if String.eqb (ErrorString got) wanted then 0%nat else 1%nat
  end.

(** [doTest]: the number of calls of [t.Errorf] it makes. *)
Definition doTest (q : quoteTest) : option nat :=
  match Split (input q) (opts q) with
  | None => None
  | Some (r, e) =>
      Some ((if Nat.eqb (List.length r) (List.length (output q)) then 0 else 1)
            + reportWords r 0 (output q)
            + (List.length r - List.length (output q))
            + reportError (errWanted q) e)%nat
  end.

(** The table [tests]. *)
Definition tests : list quoteTest :=
  [ mkQuoteTest "degenerate" "" None [] "";
    mkQuoteTest "one_word" "foo" None ["foo"] "";
    mkQuoteTest "trivial" "a b" None ["a"; "b"] "";
    mkQuoteTest "tab" ("a" ++ tab ++ "b") None ["a"; "b"] "";
    mkQuoteTest "tab_is_not_space" ("a" ++ tab ++ "b")
      (Some (mkOptions false true)) ["a" ++ tab ++ "b"] "";
    mkQuoteTest "backslash_space" "a\ b" None ["a b"] "";
    mkQuoteTest "double_backslash_space" "a\\ b" None ["a\"; "b"] "";
    mkQuoteTest "quoted" ("a" ++ dq ++ " " ++ dq ++ "b") None ["a b"] "";
    mkQuoteTest "quoted_backslashed_quote"
      ("a" ++ dq ++ " \" ++ dq ++ dq ++ " b") None ["a " ++ dq; "b"] "";
    mkQuoteTest "quoted_double_backslashed_quote"
      ("a" ++ dq ++ " \\" ++ dq ++ dq ++ " b") None ["a \ b"]
      "mismatched quote";
    mkQuoteTest "backslash_quote" ("a\" ++ dq ++ " b\" ++ dq) None
      ["a" ++ dq; "b" ++ dq] "";
    mkQuoteTest "backslash_space_in_quote"
      ("a " ++ dq ++ "b\ c" ++ dq ++ " d") None ["a"; "b c"; "d"] "";
    mkQuoteTest "backslash_x" "\x69" (Some (mkOptions true false)) ["i"] "";
    mkQuoteTest "backslash_x_invalid" "\xza" (Some (mkOptions true false))
      [nul ++ "za"] "";
    mkQuoteTest "backslash_x_x" "\x69x23" (Some (mkOptions true false))
      ["ix23"] "";
    mkQuoteTest "mismatched_quote" (dq ++ "foo") None ["foo"]
      "mismatched quote";
    mkQuoteTest "long_data"
      "a b c d e f g h i j k l m n o p q r s t u v w x y z" None
      ["a"; "b"; "c"; "d"; "e"; "f"; "g"; "h"; "i"; "j"; "k"; "l"; "m"; "n";
       "o"; "p"; "q"; "r"; "s"; "t"; "u"; "v"; "w"; "x"; "y"; "z"] "" ]%string.

(* ------------------------------------------------------------------ *)
(** ** The package's own tests, evaluated *)

Example test_degenerate : Split EmptyString None = Some ([], None).
Proof. reflexivity. Qed.

Example test_one_word : Split "foo"%string None = Some (["foo"%string], None).
Proof. vm_compute. reflexivity. Qed.

Example test_trivial :
  Split "a b"%string None = Some (["a"%string; "b"%string], None).
Proof. vm_compute. reflexivity. Qed.

Example test_quoted :
  Split ("a" ++ dq ++ " " ++ dq ++ "b")%string None
  = Some (["a b"%string], None).
Proof. vm_compute. reflexivity. Qed.

Example test_quoted_backslashed_quote :
  Split ("a" ++ dq ++ " \" ++ dq ++ dq ++ " b")%string None
  = Some ([("a " ++ dq)%string; "b"%string], None).
Proof. vm_compute. reflexivity. Qed.

Example test_quoted_double_backslashed_quote :
  Split ("a" ++ dq ++ " \\" ++ dq ++ dq ++ " b")%string None
  = Some (["a \ b"%string], Some MismatchedQuote).
Proof. vm_compute. reflexivity. Qed.

Example test_backslash_quote :
  Split ("a\" ++ dq ++ " b\" ++ dq)%string None
  = Some ([("a" ++ dq)%string; ("b" ++ dq)%string], None).
Proof. vm_compute. reflexivity. Qed.

Example test_backslash_space_in_quote :
  Split ("a " ++ dq ++ "b\ c" ++ dq ++ " d")%string None
  = Some (["a"%string; "b c"%string; "d"%string], None).
Proof. vm_compute. reflexivity. Qed.

Example test_long_data :
  Split "a b c d e f g h i j k l m n o p q r s t u v w x y z"%string None
  = Some (["a"; "b"; "c"; "d"; "e"; "f"; "g"; "h"; "i"; "j"; "k"; "l"; "m";
           "n"; "o"; "p"; "q"; "r"; "s"; "t"; "u"; "v"; "w"; "x"; "y";
           "z"]%string, None).
Proof. vm_compute. reflexivity. Qed.

(* ------------------------------------------------------------------ *)
(** ** Arithmetic and buffer lemmas *)

Lemma wrap64_small z : - 2 ^ 63 <= z < 2 ^ 63 -> wrap64 z = z.
Proof.
  intros H. unfold wrap64.
  rewrite Z.mod_small by lia. lia.
Qed.

Lemma length_append (a b : string) :
  String.length (a ++ b) = (String.length a + String.length b)%nat.
Proof.
  induction a as [|x a IH]; simpl; [reflexivity | now rewrite IH].
Qed.

Lemma bufLen_WriteRune q r : bufLen q <= bufLen (WriteRune q r).
Proof.
  unfold bufLen, WriteRune, setBuf; simpl. rewrite length_append. lia.
Qed.

Lemma within_mono lo hi hi' l : hi <= hi' -> within lo hi l -> within lo hi' l.
Proof.
  intros Hle H. unfold within in *.
  eapply Forall_impl; [| exact H]. simpl; intros; lia.
Qed.

Lemma within_snoc lo hi l : lo <= hi -> within lo hi l -> within lo hi (l ++ [hi]).
Proof.
  intros Hle H. unfold within in *.
  apply Forall_app; split; [exact H |].
  constructor; [lia | constructor].
Qed.

Lemma nonDecreasing_snoc hi l :
  nonDecreasing l = true -> within 0 hi l -> nonDecreasing (l ++ [hi]) = true.
Proof.
  induction l as [|a l IH]; intros Hs Hw; [reflexivity |].
  inversion Hw as [|? ? Ha Hl]; subst.
  destruct l as [|b l].
  - simpl. apply andb_true_intro; split; [apply Z.leb_le; lia | reflexivity].
  - change (nonDecreasing ((a :: b :: l) ++ [hi]))
      with ((a <=? b) && nonDecreasing ((b :: l) ++ [hi])).
    change (nonDecreasing (a :: b :: l))
      with ((a <=? b) && nonDecreasing (b :: l)) in Hs.
    apply andb_prop in Hs. destruct Hs as [Hab Hs].
    rewrite Hab. simpl andb. apply IH; assumption.
Qed.

Lemma bufLen_nonneg q : 0 <= bufLen q.
Proof. unfold bufLen. lia. Qed.

(* ------------------------------------------------------------------ *)
(** ** Every step keeps the invariant *)

Ltac shape := unfold stackShape; simpl; auto 10.

Lemma Inv_top_normal q : Inv q -> currentFunc q = normal -> states q = [normal].
Proof.
  intros [Hsh Hcur _ _ _ _ _] Hf. rewrite Hf in Hcur.
  destruct Hsh as [H|[H|[H|[H|[H|H]]]]]; rewrite H in Hcur; simpl in Hcur;
    try discriminate; auto.
Qed.

Lemma Inv_top_quoted q :
  Inv q -> currentFunc q = quoted -> states q = [normal; quoted].
Proof.
  intros [Hsh Hcur _ _ _ _ _] Hf. rewrite Hf in Hcur.
  destruct Hsh as [H|[H|[H|[H|[H|H]]]]]; rewrite H in Hcur; simpl in Hcur;
    try discriminate; auto.
Qed.

Lemma shape_top_escape st s :
  stackShape st -> top st = Some s -> s = backslash \/ s = hex ->
  st = [normal; s] \/ st = [normal; quoted; s].
Proof.
  intros Hsh Hcur Hs.
  destruct Hsh as [H|[H|[H|[H|[H|H]]]]]; rewrite H in Hcur; simpl in Hcur;
    injection Hcur as <-; destruct Hs; try discriminate; rewrite H; auto.
Qed.

Lemma Inv_top_escape q s :
  Inv q -> currentFunc q = s -> s = backslash \/ s = hex ->
  states q = [normal; s] \/ states q = [normal; quoted; s].
Proof.
  intros [Hsh Hcur _ _ _ _ _] Hf Hs. rewrite Hf in Hcur.
  apply shape_top_escape; assumption.
Qed.

Lemma within_WriteRune q r l :
  within 0 (bufLen q) l -> within 0 (bufLen (WriteRune q r)) l.
Proof. apply within_mono, bufLen_WriteRune. Qed.

(** The routine obligations of [Inv] after a step whose stack is [Hst]. *)
Ltac inv_step Hst :=
  constructor; simpl; rewrite ?Hst; simpl;
  try (shape; fail); try congruence; try assumption;
  try (intros; lia);
  try (intros; match goal with
               | H : _ -> partial _ = true |- _ => apply H; congruence
               end);
  try (apply nonDecreasing_snoc; assumption);
  try (apply within_snoc; [apply bufLen_nonneg | assumption]);
  try (apply within_WriteRune; assumption);
  try (intros; discriminate);
  try (intros; apply last_last);
  try (intros;
       match goal with
       | Hp : partial ?q = true, H : partial ?q = false |- _ =>
           rewrite Hp in H; discriminate H
       end).

Lemma Inv_initQuoter opt : Inv (initQuoter opt).
Proof.
  constructor; simpl; try (shape; fail); try congruence; try reflexivity.
  constructor.
Qed.

Lemma Inv_stateNormal q c :
  Inv q -> currentFunc q = normal -> Inv (stateNormal q c).
Proof.
  intros HI Hf. pose proof (Inv_top_normal q HI Hf) as Hst.
  destruct HI as [Hsh Hcur Hpar Hhex Hso Hwi Hfr].
  unfold stateNormal, newWord, push, pop.
  destruct (isspace q c).
  - destruct (partial q) eqn:Hp; simpl; inv_step Hst.
  - destruct (c =? ch "\"); [| destruct (c =? ch "034")]; inv_step Hst.
Qed.

Lemma Inv_stateQuoted q c :
  Inv q -> currentFunc q = quoted -> Inv (stateQuoted q c).
Proof.
  intros HI Hf. pose proof (Inv_top_quoted q HI Hf) as Hst.
  destruct HI as [Hsh Hcur Hpar Hhex Hso Hwi Hfr].
  assert (Hp : partial q = true) by (apply Hpar; congruence).
  unfold stateQuoted, push, pop.
  destruct (c =? ch "\"); [| destruct (c =? ch "034")]; inv_step Hst.
Qed.

(** Leaving an escape state: the value is written and the stack returns
    to the state below, which is [normal] or [quoted]. *)
Lemma Inv_pop_WriteRune q r :
  stackShape (states q) -> top (states q) = Some (currentFunc q) ->
  currentFunc q = backslash \/ currentFunc q = hex ->
  partial q = true ->
  nonDecreasing (indexes q) = true -> within 0 (bufLen q) (indexes q) ->
  Inv (pop (WriteRune q r))
  /\ (currentFunc (pop (WriteRune q r)) = normal
      \/ currentFunc (pop (WriteRune q r)) = quoted).
Proof.
  intros Hsh Hcur Hf Hp Hso Hwi.
  assert (Hst : (states q = [normal; backslash] \/ states q = [normal; hex])
                \/ (states q = [normal; quoted; backslash]
                    \/ states q = [normal; quoted; hex])).
  { destruct Hsh as [H|[H|[H|[H|[H|H]]]]]; rewrite H in Hcur; simpl in Hcur;
      injection Hcur as Hc; rewrite <- Hc in Hf; destruct Hf; try discriminate;
      auto. }
  unfold pop; simpl.
  destruct Hst as [[Hst|Hst]|[Hst|Hst]]; rewrite Hst; simpl;
    (split; [inv_step Hst | auto]).
Qed.

Lemma Inv_simpleBackslash q c :
  Inv q -> currentFunc q = backslash -> Inv (simpleBackslash q c).
Proof.
  intros [Hsh Hcur Hpar Hhex Hso Hwi Hfr] Hf.
  apply Inv_pop_WriteRune; auto.
  apply Hpar; congruence.
Qed.

Lemma Inv_fancyBackslash q c :
  Inv q -> currentFunc q = backslash -> Inv (fancyBackslash q c).
Proof.
  intros HI Hf.
  destruct (Inv_top_escape q backslash HI Hf) as [Hst|Hst]; [auto | |];
  destruct HI as [Hsh Hcur Hpar Hhex Hso Hwi Hfr];
  assert (Hp : partial q = true) by (apply Hpar; congruence);
  unfold fancyBackslash, startHex, push, pop; simpl; rewrite Hst; simpl;
  repeat match goal with
         | |- context [if ?b then _ else _] => destruct b
         end; inv_step Hst.
Qed.

Lemma Inv_stateBackslash q c :
  Inv q -> currentFunc q = backslash -> Inv (stateBackslash q c).
Proof.
  intros HI Hf. unfold stateBackslash.
  destruct (backslashF q);
    [apply Inv_simpleBackslash | apply Inv_fancyBackslash]; assumption.
Qed.

Lemma hexDigits_some c : 0 <= c < 128 -> exists val, hexDigits c = Some val.
Proof.
  intros Hc. unfold hexDigits.
  destruct (c <? 0) eqn:E; [apply Z.ltb_lt in E; lia |].
  destruct (nth_error hexDigitsTable (Z.to_nat c)) as [v|] eqn:Hn; [eauto |].
  apply nth_error_None in Hn. simpl in Hn. lia.
Qed.

(** One unfolding of [stateHex], whatever the fuel, when the state the
    hand-back reaches is not [hex] again. *)
Lemma stateHex_unfold fuel q c :
  currentFunc (pop (WriteRune q (hexValue q))) <> hex ->
  stateHex fuel q c =
  let handBack :=
    let q1 := pop (WriteRune q (hexValue q)) in
    match currentFunc q1 with
    | normal => Some (stateNormal q1 c)
    | quoted => Some (stateQuoted q1 c)
    | backslash => Some (stateBackslash q1 c)
    | hex => None
    end in
  if c <? 128 then
    match hexDigits c with
    | None => None
    | Some val => if negb (val =? -1) then Some (hexDigitStep q val) else handBack
    end
  else handBack.
Proof.
  intros Hne. destruct fuel; simpl;
    destruct (currentFunc (pop (WriteRune q (hexValue q)))); congruence.
Qed.

Lemma Inv_hexDigitStep q val :
  Inv q -> currentFunc q = hex -> Inv (hexDigitStep q val).
Proof.
  intros [Hsh Hcur Hpar Hhex Hso Hwi Hfr] Hf.
  assert (Hp : partial q = true) by (apply Hpar; congruence).
  specialize (Hhex Hf).
  unfold hexDigitStep; simpl.
  rewrite wrap64_small by lia.
  destruct (parseHex q - 1 =? 0) eqn:E0.
  - apply Inv_pop_WriteRune; simpl; auto.
  - apply Z.eqb_neq in E0. constructor; simpl; auto. intros _. lia.
Qed.

Lemma Inv_stateHex fuel q c :
  Inv q -> currentFunc q = hex -> 0 <= c ->
  exists q', stateHex fuel q c = Some q' /\ Inv q'.
Proof.
  intros HI Hf Hc.
  pose proof HI as [Hsh Hcur Hpar Hhex Hso Hwi Hfr].
  assert (Hp : partial q = true) by (apply Hpar; congruence).
  destruct (Inv_pop_WriteRune q (hexValue q) Hsh Hcur (or_intror Hf) Hp Hso Hwi)
    as [HI1 Hf1].
  rewrite stateHex_unfold by (destruct Hf1; congruence).
  cbv zeta.
  assert (Hback : exists q',
    match currentFunc (pop (WriteRune q (hexValue q))) with
    | normal => Some (stateNormal (pop (WriteRune q (hexValue q))) c)
    | quoted => Some (stateQuoted (pop (WriteRune q (hexValue q))) c)
    | backslash => Some (stateBackslash (pop (WriteRune q (hexValue q))) c)
    | hex => None
    end = Some q' /\ Inv q').
  { destruct Hf1 as [E|E]; rewrite E; eexists; (split; [reflexivity |]).
    - apply Inv_stateNormal; assumption.
    - apply Inv_stateQuoted; assumption. }
  destruct (c <? 128) eqn:E128; [| exact Hback].
  apply Z.ltb_lt in E128.
  destruct (hexDigits_some c (conj Hc E128)) as [val Hval]; rewrite Hval.
  destruct (val =? -1); simpl; [exact Hback |].
  eexists; split; [reflexivity |].
  apply Inv_hexDigitStep; assumption.
Qed.

Lemma next_Inv q c :
  Inv q -> 0 <= c -> exists q', next q c = Some q' /\ Inv q'.
Proof.
  intros HI Hc. unfold next.
  destruct (currentFunc q) eqn:Hf.
  - eexists; split; [reflexivity | apply Inv_stateNormal; assumption].
  - eexists; split; [reflexivity | apply Inv_stateQuoted; assumption].
  - eexists; split; [reflexivity | apply Inv_stateBackslash; assumption].
  - apply Inv_stateHex; assumption.
Qed.

Lemma feed_Inv cs : forall q,
  Inv q -> Forall (fun c => 0 <= c) cs ->
  exists q', feed q cs = Some q' /\ Inv q'.
Proof.
  induction cs as [|c cs IH]; intros q HI Hcs; simpl.
  - eauto.
  - inversion Hcs as [|? ? Hc Hrest]; subst.
    destruct (next_Inv q c HI Hc) as [q1 [E1 HI1]]. rewrite E1.
    apply IH; assumption.
Qed.

(* ------------------------------------------------------------------ *)
(** ** The runes of the input *)

Lemma byteVal_nonneg a : 0 <= byteVal a.
Proof. unfold byteVal. lia. Qed.

Lemma rangeRunes_cons a0 r0 :
  utf8.rangeRunes (String a0 r0) =
  let s0 := byteVal a0 in
  match utf8.first s0 with
  | utf8.FAscii => s0 :: utf8.rangeRunes r0
  | utf8.FInvalid => utf8.RuneError :: utf8.rangeRunes r0
  | utf8.FLead sz lo hi =>
      match r0 with
      | EmptyString => utf8.RuneError :: utf8.rangeRunes r0
      | String a1 r1 =>
          let s1 := byteVal a1 in
          if (s1 <? lo) || (hi <? s1) then utf8.RuneError :: utf8.rangeRunes r0
          else if sz <=? 2 then
            Z.lor (Z.shiftl (Z.land s0 utf8.mask2) 6) (Z.land s1 utf8.maskx)
              :: utf8.rangeRunes r1
          else
            match r1 with
            | EmptyString => utf8.RuneError :: utf8.rangeRunes r0
            | String a2 r2 =>
                let s2 := byteVal a2 in
                if negb (utf8.isCont s2) then utf8.RuneError :: utf8.rangeRunes r0
                else if sz <=? 3 then
                  Z.lor (Z.lor (Z.shiftl (Z.land s0 utf8.mask3) 12)
                               (Z.shiftl (Z.land s1 utf8.maskx) 6))
                        (Z.land s2 utf8.maskx)
                    :: utf8.rangeRunes r2
                else
                  match r2 with
                  | EmptyString => utf8.RuneError :: utf8.rangeRunes r0
                  | String a3 r3 =>
                      let s3 := byteVal a3 in
                      if negb (utf8.isCont s3)
                      then utf8.RuneError :: utf8.rangeRunes r0
                      else
                        Z.lor (Z.lor (Z.lor
                                 (Z.shiftl (Z.land s0 utf8.mask4) 18)
                                 (Z.shiftl (Z.land s1 utf8.maskx) 12))
                                 (Z.shiftl (Z.land s2 utf8.maskx) 6))
                              (Z.land s3 utf8.maskx)
                          :: utf8.rangeRunes r3
                  end
            end
      end
  end.
Proof. destruct r0 as [|a1 [|a2 [|a3 r3]]]; reflexivity. Qed.

Lemma land_nonneg_l a b : 0 <= a -> 0 <= Z.land a b.
Proof. intros. apply Z.land_nonneg. auto. Qed.

Ltac nonneg :=
  repeat first
    [ apply Z.lor_nonneg; split
    | apply Z.shiftl_nonneg
    | apply land_nonneg_l
    | apply byteVal_nonneg ].

Lemma rangeRunes_nonneg_upto n : forall s,
  (String.length s <= n)%nat -> Forall (fun c => 0 <= c) (utf8.rangeRunes s).
Proof.
  induction n as [|n IH]; intros s Hlen.
  - destruct s; [constructor | simpl in Hlen; lia].
  - destruct s as [|a0 r0]; [constructor |].
    rewrite rangeRunes_cons. cbv zeta.
    assert (H0 : Forall (fun c => 0 <= c) (utf8.rangeRunes r0))
      by (apply IH; simpl in Hlen; lia).
    assert (HE : 0 <= utf8.RuneError) by (unfold utf8.RuneError; lia).
    destruct (utf8.first (byteVal a0)) as [| |sz lo hi];
      try (constructor; [nonneg; assumption | assumption]).
    destruct r0 as [|a1 r1]; [constructor; assumption |].
    destruct ((byteVal a1 <? lo) || (hi <? byteVal a1));
      [constructor; assumption |].
    destruct (sz <=? 2);
      [constructor; [nonneg | apply IH; simpl in Hlen |- *; lia] |].
    destruct r1 as [|a2 r2]; [constructor; assumption |].
    destruct (negb (utf8.isCont (byteVal a2))); [constructor; assumption |].
    destruct (sz <=? 3);
      [constructor; [nonneg | apply IH; simpl in Hlen |- *; lia] |].
    destruct r2 as [|a3 r3]; [constructor; assumption |].
    destruct (negb (utf8.isCont (byteVal a3))); [constructor; assumption |].
    constructor; [nonneg | apply IH; simpl in Hlen |- *; lia].
Qed.

Lemma rangeRunes_nonneg s : Forall (fun c => 0 <= c) (utf8.rangeRunes s).
Proof. apply (rangeRunes_nonneg_upto (String.length s)). lia. Qed.

Lemma Forall_firstn_nonneg n (l : list Z) :
  Forall (fun c => 0 <= c) l -> Forall (fun c => 0 <= c) (firstn n l).
Proof.
  revert l. induction n as [|n IH]; intros l H; simpl; [constructor |].
  destruct l as [|a l]; [constructor |].
  inversion H; subst. constructor; auto.
Qed.

(* ------------------------------------------------------------------ *)
(** ** Runs of [Split] *)

Lemma feed_app cs1 : forall q cs2,
  feed q (cs1 ++ cs2) =
  match feed q cs1 with
  | Some q' => feed q' cs2
  | None => None
  end.
Proof.
  induction cs1 as [|c cs1 IH]; intros q cs2; simpl; [reflexivity |].
  destruct (next q c); [apply IH | reflexivity].
Qed.

Lemma run_Inv opt cs :
  Forall (fun c => 0 <= c) cs -> exists q, run opt cs = Some q /\ Inv q.
Proof. intros H. apply feed_Inv; [apply Inv_initQuoter | exact H]. Qed.

Lemma run_Inv_inv opt cs q : run opt cs = Some q -> Inv q.
Proof.
  revert q. unfold run.
  induction cs as [|c cs IH] using rev_ind; intros q H.
  - simpl in H. injection H as <-. apply Inv_initQuoter.
  - rewrite feed_app in H.
    destruct (feed (initQuoter opt) cs) as [q0|] eqn:E0; [| discriminate].
    specialize (IH q0 eq_refl). simpl in H.
    destruct (next q0 c) as [q1|] eqn:E1; [| discriminate].
    injection H as <-.
    unfold next in E1. destruct (currentFunc q0) eqn:Hf.
    + injection E1 as <-. apply Inv_stateNormal; assumption.
    + injection E1 as <-. apply Inv_stateQuoted; assumption.
    + injection E1 as <-. apply Inv_stateBackslash; assumption.
    + destruct (Z_lt_le_dec c 0) as [Hneg|Hpos].
      * exfalso.
        pose proof IH as [Hsh Hcur Hpar Hhex Hso Hwi Hfr].
        assert (Hp : partial q0 = true) by (apply Hpar; congruence).
        destruct (Inv_pop_WriteRune q0 (hexValue q0) Hsh Hcur
                    (or_intror Hf) Hp Hso Hwi) as [_ Hf1].
        rewrite stateHex_unfold in E1 by (destruct Hf1; congruence).
        cbv zeta in E1.
        assert (E128 : (c <? 128) = true) by (apply Z.ltb_lt; lia).
        rewrite E128 in E1. unfold hexDigits in E1.
        assert (Eneg : (c <? 0) = true) by (apply Z.ltb_lt; lia).
        rewrite Eneg in E1. discriminate.
      * destruct (Inv_stateHex (S (List.length (states q0))) q0 c IH Hf Hpos)
          as [q2 [E2 HI2]].
        rewrite E2 in E1. injection E1 as <-. exact HI2.
Qed.

Lemma stepsOf_Inv opt s n : exists q, stepsOf opt s n = Some q /\ Inv q.
Proof.
  apply run_Inv, Forall_firstn_nonneg, rangeRunes_nonneg.
Qed.

Lemma Inv_hex_back q :
  Inv q -> currentFunc q = hex ->
  Inv (pop (WriteRune q (hexValue q)))
  /\ (currentFunc (pop (WriteRune q (hexValue q))) = normal
      \/ currentFunc (pop (WriteRune q (hexValue q))) = quoted).
Proof.
  intros [Hsh Hcur Hpar Hhex Hso Hwi Hfr] Hf.
  apply Inv_pop_WriteRune; auto. apply Hpar; congruence.
Qed.

(** From a reachable quoter, [next] takes one of the steps of [Step]. *)
Lemma next_Step q c q' : Inv q -> next q c = Some q' -> Step q c q'.
Proof.
  intros HI H. unfold next in H.
  destruct (currentFunc q) eqn:Hf.
  - injection H as <-. now constructor.
  - injection H as <-. now constructor.
  - injection H as <-. now constructor.
  - destruct (Inv_hex_back q HI Hf) as [_ Hf1].
    rewrite stateHex_unfold in H by (destruct Hf1; congruence).
    cbv zeta in H.
    assert (Hback :
      isHexDigit c = false ->
      match currentFunc (pop (WriteRune q (hexValue q))) with
      | normal => Some (stateNormal (pop (WriteRune q (hexValue q))) c)
      | quoted => Some (stateQuoted (pop (WriteRune q (hexValue q))) c)
      | backslash => Some (stateBackslash (pop (WriteRune q (hexValue q))) c)
      | hex => None
      end = Some q' -> Step q c q').
    { intros Hd H1. destruct Hf1 as [E|E]; rewrite E in H1; injection H1 as <-;
        [apply StepHexBackNormal | apply StepHexBackQuoted]; assumption. }
    unfold isHexDigit in Hback.
    destruct (c <? 128) eqn:E128; [| apply Hback; [reflexivity | exact H]].
    destruct (hexDigits c) as [val|] eqn:Hval; [| discriminate].
    destruct (negb (val =? -1)) eqn:Hv; [| apply Hback; [reflexivity | exact H]].
    injection H as <-. apply StepHexDigit; try assumption.
    unfold isHexDigit. rewrite E128, Hval, Hv. reflexivity.
Qed.

Ltac break_ifs :=
  repeat match goal with
         | |- context [if ?b then _ else _] => destruct b
         end.

Ltac fields :=
  unfold stateNormal, stateQuoted, stateBackslash, simpleBackslash,
    fancyBackslash, hexDigitStep, startHex, newWord, push, pop, WriteRune;
  simpl.

(** *** The configuration never changes *)

Lemma Step_sameConfig q c q' : Step q c q' -> sameConfig q q'.
Proof.
  unfold sameConfig.
  destruct 1; fields; try destruct (backslashF q) eqn:E; break_ifs; simpl; auto.
Qed.

Lemma run_config opt cs q :
  run opt cs = Some q ->
  isspace q = (if OnlySpaceIsSpace opt then isExactSpace else unicode.IsSpace)
  /\ backslashF q
     = (if FancyBackslash opt then fnFancyBackslash else fnSimpleBackslash).
Proof.
  revert q. induction cs as [|c cs IH] using rev_ind; intros q H.
  - unfold run in H; simpl in H. injection H as <-. simpl. auto.
  - unfold run in H. rewrite feed_app in H.
    destruct (feed (initQuoter opt) cs) as [q0|] eqn:E0; [| discriminate].
    simpl in H. destruct (next q0 c) as [q1|] eqn:E1; [| discriminate].
    injection H as <-.
    destruct (IH q0 E0) as [A B].
    destruct (Step_sameConfig q0 c q1
                (next_Step q0 c q1 (run_Inv_inv opt cs q0 E0) E1)) as [C D].
    split; congruence.
Qed.

(** One more rune after a run. *)
Lemma run_snoc opt cs c q :
  run opt cs = Some q -> run opt (cs ++ [c]) = next q c.
Proof.
  intros H. unfold run in *. rewrite feed_app, H. simpl.
  destruct (next q c); reflexivity.
Qed.

(* ------------------------------------------------------------------ *)
(** ** Assembling the words *)

Lemma nonDecreasing_tail a l : nonDecreasing (a :: l) = true -> nonDecreasing l = true.
Proof.
  destruct l as [|b l]; [reflexivity |].
  change (nonDecreasing (a :: b :: l))
    with ((a <=? b) && nonDecreasing (b :: l)).
  intros H. apply andb_prop in H. tauto.
Qed.

Lemma nonDecreasing_lower a l hi :
  nonDecreasing (a :: l) = true -> within 0 hi l -> within a hi l.
Proof.
  revert a. induction l as [|b l IH]; intros a Hs Hw; [constructor |].
  change (nonDecreasing (a :: b :: l))
    with ((a <=? b) && nonDecreasing (b :: l)) in Hs.
  apply andb_prop in Hs. destruct Hs as [Hab Hs]. apply Z.leb_le in Hab.
  inversion Hw as [|? ? Hb Hl]; subst.
  constructor; [lia |].
  specialize (IH b Hs Hl).
  eapply Forall_impl; [| exact IH]. simpl; intros; lia.
Qed.

(** Ordered boundaries inside the buffer slice it without fault, into one
    word per boundary. *)
Lemma sliceWords_total bufStr ix : forall prev,
  0 <= prev ->
  nonDecreasing ix = true ->
  within prev (Z.of_nat (String.length bufStr)) ix ->
  exists words,
    sliceWords bufStr prev ix = Some words
    /\ List.length words = List.length ix.
Proof.
  induction ix as [|a ix IH]; intros prev Hp Hs Hw; simpl.
  - exists []. auto.
  - inversion Hw as [|? ? Ha Hl]; subst.
    assert (Hw' : within a (Z.of_nat (String.length bufStr)) ix).
    { apply nonDecreasing_lower; [exact Hs |].
      eapply Forall_impl; [| exact Hl]. simpl; intros; lia. }
    destruct (IH a ltac:(lia) (nonDecreasing_tail _ _ Hs) Hw') as [ws [E L]].
    unfold slice.
    replace ((0 <=? prev) && (prev <=? a)
             && (a <=? Z.of_nat (String.length bufStr))) with true.
    + rewrite E. eexists; split; [reflexivity | simpl; congruence].
    + symmetry. rewrite !andb_true_iff, !Z.leb_le. lia.
Qed.

(** The end of input on a reachable quoter: which error is left, what is
    in the buffer, and which boundaries are recorded. *)
Lemma endQuoter_Inv q :
  Inv q ->
  exists q2,
    endQuoter q = Some q2
    /\ err q2 = match currentFunc q with
                | quoted => Some MismatchedQuote
                | backslash => Some IncompleteBackslash
                | _ => err q
                end
    /\ buf q2 = match currentFunc q with
                | backslash => (buf q ++ utf8.AppendRune (ch "\"))%string
                | _ => buf q
                end
    /\ indexes q2 = (if partial q then indexes q ++ [bufLen q2] else indexes q)
    /\ nonDecreasing (indexes q2) = true
    /\ within 0 (bufLen q2) (indexes q2).
Proof.
  intros [Hsh Hcur Hpar Hhex Hso Hwi Hfr].
  unfold endQuoter, atEnd. rewrite Hcur.
  destruct (currentFunc q) eqn:Hf; unfold newWord; simpl;
    try rewrite (Hpar ltac:(congruence)); simpl;
    try (destruct (partial q) eqn:Hp; simpl);
    eexists; (split; [reflexivity |]); simpl; rewrite ?Hp;
    repeat split; try reflexivity; try assumption;
    try (apply nonDecreasing_snoc; try assumption;
         apply within_WriteRune; assumption);
    try (apply within_snoc; [apply bufLen_nonneg |]; try assumption;
         apply within_WriteRune; assumption).
Qed.

Lemma finish_Inv q :
  Inv q ->
  exists q2 words,
    endQuoter q = Some q2
    /\ sliceWords (buf q2) 0 (indexes q2) = Some words
    /\ List.length words = List.length (indexes q2)
    /\ finish q = Some (words, err q2).
Proof.
  intros HI.
  destruct (endQuoter_Inv q HI) as [q2 [E [_ [_ [_ [Hs Hw]]]]]].
  destruct (sliceWords_total (buf q2) (indexes q2) 0 ltac:(lia) Hs Hw)
    as [ws [Ews Hlen]].
  exists q2, ws. unfold finish. rewrite E, Ews. auto.
Qed.

(** [Split] returns on every input. *)
Lemma Split_total s qopt : exists words e, Split s qopt = Some (words, e).
Proof.
  unfold Split.
  destruct (run_Inv (optionsOf qopt) (utf8.rangeRunes s) (rangeRunes_nonneg s))
    as [q [E HI]].
  rewrite E.
  destruct (finish_Inv q HI) as [q2 [ws [_ [_ [_ F]]]]].
  rewrite F. eauto.
Qed.

(* ------------------------------------------------------------------ *)
(** ** Errors (C1) *)

Lemma err_pop q : err (pop q) = err q.
Proof. unfold pop. destruct (1 <? _); reflexivity. Qed.

Lemma err_fancyBackslash q c :
  err (fancyBackslash q c)
  = if isEscapeChar c then err q else Some (invalidEscape c).
Proof.
  unfold fancyBackslash, isEscapeChar, escapeChars, startHex, push, WriteRune.
  generalize (pop q) (err_pop q). intros q1 <-.
  cbn [existsb].
  repeat (match goal with
          | |- context [c =? ?k] => destruct (c =? k)
          end; cbn [orb]; try reflexivity).
Qed.

Lemma Step_err q c q' :
  Step q c q' ->
  err q' = match currentFunc q, backslashF q with
           | backslash, fnFancyBackslash =>
               if isEscapeChar c then err q else Some (invalidEscape c)
           | _, _ => err q
           end.
Proof.
  destruct 1 as [Hf|Hf|Hf|val Hf Hd Hv|Hf Hd Hb|Hf Hd Hb]; rewrite Hf.
  - fields; break_ifs; reflexivity.
  - fields; break_ifs; reflexivity.
  - unfold stateBackslash. destruct (backslashF q).
    + fields; break_ifs; reflexivity.
    + apply err_fancyBackslash.
  - fields; break_ifs; reflexivity.
  - fields; break_ifs; reflexivity.
  - fields; break_ifs; reflexivity.
Qed.

(** C1 (as corrected): the error [Split] returns is the one raised last.
    A character [fancyBackslash] has no case for replaces whatever error
    was pending by its own; no other step touches the error; and at the
    end of input an open quote or a pending backslash replaces whatever
    error the run has left. *)
Theorem C1_last_error_wins (opt : Options) (cs : list rune) (c : rune)
    (s : string) :
  Forall (fun x => 0 <= x) (cs ++ [c]) ->
  (exists q q',
      run opt cs = Some q /\ run opt (cs ++ [c]) = Some q'
      /\ err q' = match currentFunc q with
                  | backslash =>
                      if FancyBackslash opt && negb (isEscapeChar c)
                      then Some (invalidEscape c) else err q
                  | _ => err q
                  end)
  /\ (exists q words,
         run opt (utf8.rangeRunes s) = Some q
         /\ Split s (Some opt)
            = Some (words, match currentFunc q with
                           | quoted => Some MismatchedQuote
                           | backslash => Some IncompleteBackslash
                           | _ => err q
                           end)).
Proof.
  intros Hcs. split.
  - apply Forall_app in Hcs. destruct Hcs as [Hcs Hc].
    inversion Hc as [|? ? Hc0 _]; subst.
    destruct (run_Inv opt cs Hcs) as [q [E HI]].
    destruct (next_Inv q c HI Hc0) as [q' [E' _]].
    exists q, q'. rewrite (run_snoc opt cs c q E).
    repeat split; try assumption.
    rewrite (Step_err q c q' (next_Step q c q' HI E')).
    destruct (run_config opt cs q E) as [_ B]. rewrite B.
    destruct (currentFunc q); try reflexivity.
    destruct (FancyBackslash opt); simpl; [| reflexivity].
    destruct (isEscapeChar c); reflexivity.
  - destruct (run_Inv opt (utf8.rangeRunes s) (rangeRunes_nonneg s))
      as [q [E HI]].
    destruct (finish_Inv q HI) as [q2 [ws [E2 [_ [_ F]]]]].
    destruct (endQuoter_Inv q HI) as [q3 [E3 [Herr _]]].
    rewrite E2 in E3. injection E3 as <-.
    exists q, ws. split; [exact E |].
    unfold Split. simpl. rewrite E, F, Herr. reflexivity.
Qed.

(** The run on [\q\w] with [FancyBackslash]: the error of [w] replaces
    the error of [q]. *)
Lemma C1_last_error_wins_witness :
  Forall (fun x => 0 <= x) ([ch "\"; ch "q"; ch "\"] ++ [ch "w"])
  /\ ((exists q q',
      run fancyOptions [ch "\"; ch "q"; ch "\"] = Some q /\ run fancyOptions ([ch "\"; ch "q"; ch "\"] ++ [ch "w"]) = Some q'
      /\ err q' = match currentFunc q with
                  | backslash =>
                      if FancyBackslash fancyOptions && negb (isEscapeChar (ch "w"))
                      then Some (invalidEscape (ch "w")) else err q
                  | _ => err q
                  end)
  /\ (exists q words,
         run fancyOptions (utf8.rangeRunes "\q\w") = Some q
         /\ Split "\q\w" (Some fancyOptions)
            = Some (words, match currentFunc q with
                           | quoted => Some MismatchedQuote
                           | backslash => Some IncompleteBackslash
                           | _ => err q
                           end))).
Proof.
  assert (H : Forall (fun x => 0 <= x) ([ch "\"; ch "q"; ch "\"] ++ [ch "w"])).
  { repeat constructor; vm_compute; discriminate. }
  split; [exact H |].
  apply (C1_last_error_wins fancyOptions [ch "\"; ch "q"; ch "\"] (ch "w") "\q\w" H).
Defined.

(** The first error does not always win: on [\q\w] with [FancyBackslash]
    the error pending after two characters names [q], and the error
    returned names [w]. *)
Lemma C1_first_error_overwritten :
  ~ (forall opt s n q e words e',
        stepsOf opt s n = Some q -> err q = Some e ->
        Split s (Some opt) = Some (words, e') -> e' = Some e).
Proof.
  intros H.
  assert (E : option_map err (stepsOf fancyOptions "\q\w" 2)
              = Some (Some (invalidEscape (ch "q"))))
    by (vm_compute; reflexivity).
  destruct (stepsOf fancyOptions "\q\w" 2) as [q|] eqn:Eq; [| discriminate].
  simpl in E. injection E as E.
  assert (S : Split "\q\w" (Some fancyOptions)
              = Some (["qw"%string], Some (invalidEscape (ch "w"))))
    by (vm_compute; reflexivity).
  specialize (H _ _ _ _ _ _ _ Eq E S).
  vm_compute in H. discriminate H.
Qed.

(* ------------------------------------------------------------------ *)
(** ** The mode stack (C6) *)

Lemma hd_error_pop q : hd_error (states (pop q)) = hd_error (states q).
Proof.
  unfold pop.
  destruct (1 <? Z.of_nat (List.length (states q))) eqn:E; [| reflexivity].
  simpl. destruct (states q) as [|a [|b l]]; try reflexivity.
  simpl in E. discriminate E.
Qed.

Lemma Inv_depth q :
  Inv q ->
  (1 <= List.length (states q) <= 3)%nat /\ hd_error (states q) = Some normal.
Proof.
  intros [Hsh _ _ _ _ _ _].
  destruct Hsh as [H|[H|[H|[H|[H|H]]]]]; rewrite H; simpl; split; auto; lia.
Qed.

(** C6: at every step of every run the mode stack holds at least one
    entry and its bottom entry is [normal]; a [pop] keeps the bottom entry
    of any stack, and on a stack of depth one it changes nothing. *)
Theorem C6_stack_bottom_normal :
  (forall opt s n,
      exists q,
        stepsOf opt s n = Some q
        /\ (1 <= List.length (states q))%nat
        /\ hd_error (states q) = Some normal
        /\ (1 <= List.length (states (pop q)))%nat
        /\ hd_error (states (pop q)) = Some normal)
  /\ (forall q, hd_error (states (pop q)) = hd_error (states q))
  /\ (forall q s0 f, pop (setStack q [s0] f) = setStack q [s0] f).
Proof.
  split; [| split].
  - intros opt s n.
    destruct (stepsOf_Inv opt s n) as [q [E HI]].
    destruct (Inv_depth q HI) as [[Hlen _] Hhd].
    exists q. repeat split; try assumption.
    + pose proof (hd_error_pop q) as Hp. rewrite Hhd in Hp.
      destruct (states (pop q)); [discriminate Hp | simpl; lia].
    + rewrite hd_error_pop. exact Hhd.
  - apply hd_error_pop.
  - intros q s0 f. reflexivity.
Qed.

(* ------------------------------------------------------------------ *)
(** ** Word boundaries (C3) *)

Lemma firstn_S_snoc (A : Type) n : forall l : list A,
  firstn (S n) l
  = firstn n l ++ match nth_error l n with
                  | Some x => [x]
                  | None => []
                  end.
Proof.
  induction n as [|n IH]; intros [|a l]; try reflexivity.
  change (firstn (S (S n)) (a :: l)) with (a :: firstn (S n) l).
  rewrite IH. reflexivity.
Qed.

(** The next iteration of the loop: one more call of [next], unless the
    input is exhausted. *)
Lemma stepsOf_S opt s n q :
  stepsOf opt s n = Some q ->
  stepsOf opt s (S n)
  = match nth_error (utf8.rangeRunes s) n with
    | Some c => next q c
    | None => Some q
    end.
Proof.
  intros H. unfold stepsOf in *. rewrite firstn_S_snoc.
  destruct (nth_error (utf8.rangeRunes s) n) as [c|].
  - apply run_snoc. exact H.
  - rewrite app_nil_r. exact H.
Qed.

Ltac buflens :=
  unfold bufLen; simpl; rewrite ?length_append; lia.

(** A step records at most one boundary, the length the buffer then has,
    and never shortens the buffer. *)
Lemma Step_indexes q c q' :
  Step q c q' ->
  (indexes q' = indexes q \/ indexes q' = indexes q ++ [bufLen q'])
  /\ bufLen q <= bufLen q'.
Proof.
  destruct 1; fields; try destruct (backslashF q); break_ifs; simpl;
    (split; [auto | buflens]).
Qed.

(** C3 (as corrected): throughout every run the recorded boundaries are
    in non-decreasing order and none exceeds the length of the buffer; a
    step, and the end of input, records at most one boundary, equal to the
    length the buffer has at that moment, and the buffer never shrinks.
    Two consecutive boundaries may be equal. *)
Theorem C3_boundaries_nondecreasing (opt : Options) (s : string) (n : nat) :
  exists q q1 qe,
    stepsOf opt s n = Some q
    /\ stepsOf opt s (S n) = Some q1
    /\ endQuoter q = Some qe
    /\ nonDecreasing (indexes q) = true
    /\ within 0 (bufLen q) (indexes q)
    /\ (indexes q1 = indexes q \/ indexes q1 = indexes q ++ [bufLen q1])
    /\ bufLen q <= bufLen q1
    /\ (indexes qe = indexes q \/ indexes qe = indexes q ++ [bufLen qe])
    /\ nonDecreasing (indexes qe) = true
    /\ within 0 (bufLen qe) (indexes qe).
Proof.
  destruct (stepsOf_Inv opt s n) as [q [E HI]].
  destruct (stepsOf_Inv opt s (S n)) as [q1 [E1 _]].
  destruct (endQuoter_Inv q HI) as [qe [Ee [_ [_ [Hix [Hs Hw]]]]]].
  exists q, q1, qe.
  pose proof HI as [_ _ _ _ Hso Hwi _].
  repeat split; try assumption.
  - rewrite (stepsOf_S opt s n q E) in E1.
    destruct (nth_error (utf8.rangeRunes s) n) as [c|].
    + apply (Step_indexes q c q1 (next_Step q c q1 HI E1)).
    + injection E1 as <-. auto.
  - rewrite (stepsOf_S opt s n q E) in E1.
    destruct (nth_error (utf8.rangeRunes s) n) as [c|].
    + apply (Step_indexes q c q1 (next_Step q c q1 HI E1)).
    + injection E1 as <-. lia.
  - rewrite Hix. destruct (partial q); auto.
Qed.

(** The boundaries are not always strictly increasing: after [a], a
    space, an empty quoted span and a space, the two boundaries recorded
    are both 1. *)
Lemma C3_boundaries_not_strict :
  ~ (forall opt s n q,
        stepsOf opt s n = Some q -> strictlyIncreasing (indexes q) = true).
Proof.
  intros H.
  assert (E : option_map indexes
                (stepsOf zeroOptions ("a " ++ dq ++ dq ++ " b")%string 5)
              = Some [1; 1])
    by (vm_compute; reflexivity).
  destruct (stepsOf zeroOptions ("a " ++ dq ++ dq ++ " b")%string 5)
    as [q|] eqn:Eq; [| discriminate].
  simpl in E. injection E as E.
  specialize (H _ _ _ _ Eq). rewrite E in H. discriminate H.
Qed.

(* ------------------------------------------------------------------ *)
(** ** A hex escape cut short by the end of input (C2) *)

Lemma top_snoc st s : top (st ++ [s]) = Some s.
Proof. unfold top. rewrite rev_unit. reflexivity. Qed.

(** C2 (the code departs from it): when the input ends with [hex] on top
    of the stack, the switch at the end of [Split] does nothing: the value
    accumulated so far is not written.  [Split] of [\x6] with
    [FancyBackslash] returns one empty word and no error, not the word
    holding U+0006; the same escape followed by a space does yield
    U+0006, through the hand-back of [stateHex]. *)
Theorem C2_hex_at_end_of_input_dropped :
  Split "\x6" fancy = Some ([EmptyString], None)
  /\ (forall q st, atEnd (setStack q (st ++ [hex]) hex)
                   = Some (setStack q (st ++ [hex]) hex))
  /\ option_map (fun q => (buf q, hexValue q))
       (run fancyOptions (utf8.rangeRunes "\x6"))
     = Some (EmptyString, 6)
  /\ Split "\x6 " fancy = Some ([String "006" EmptyString], None).
Proof.
  split; [vm_compute; reflexivity |].
  split; [| split; vm_compute; reflexivity].
  intros q st. unfold atEnd. simpl. rewrite top_snoc. reflexivity.
Qed.

(* ------------------------------------------------------------------ *)
(** ** An unterminated quote (C7) *)

Lemma modeAfter_run opt cs m :
  modeAfter opt cs = Some m ->
  exists q, run opt cs = Some q /\ currentFunc q = m /\ Inv q.
Proof.
  unfold modeAfter. intros H.
  destruct (run opt cs) as [q|] eqn:E; [| discriminate].
  simpl in H. injection H as H.
  exists q. split; [reflexivity |]. split; [exact H |].
  apply (run_Inv_inv opt cs q E).
Qed.

(** C7: when the input ends inside a quoted span, [Split] returns the
    error [MismatchedQuote] together with the words, and the word in
    progress is among them: the last boundary is the end of the buffer.
    [Split] of the input made of a quote and [foo] returns the word [foo]
    and that error. *)
Theorem C7_unterminated_quote :
  Split (dq ++ "foo") None = Some (["foo"%string], Some MismatchedQuote)
  /\ forall opt s,
      modeAfter opt (utf8.rangeRunes s) = Some quoted ->
      exists q words,
        run opt (utf8.rangeRunes s) = Some q
        /\ Split s (Some opt) = Some (words, Some MismatchedQuote)
        /\ sliceWords (buf q) 0 (indexes q ++ [bufLen q]) = Some words
        /\ List.length words = S (List.length (indexes q)).
Proof.
  split; [vm_compute; reflexivity |].
  intros opt s Hm.
  destruct (modeAfter_run opt _ quoted Hm) as [q [E [Hf HI]]].
  destruct (finish_Inv q HI) as [q2 [ws [E2 [Hws [Hlen F]]]]].
  destruct (endQuoter_Inv q HI) as [q3 [E3 [Herr [Hbuf [Hix _]]]]].
  rewrite E2 in E3. injection E3 as <-.
  rewrite Hf in Herr, Hbuf.
  assert (Hp : partial q = true)
    by (apply (inv_partial q HI); congruence).
  rewrite Hp in Hix.
  assert (Hbl : bufLen q2 = bufLen q) by (unfold bufLen; rewrite Hbuf; reflexivity).
  rewrite Hbl in Hix.
  exists q, ws. split; [exact E |].
  split; [unfold Split; simpl; rewrite E, F, Herr; reflexivity |].
  split; [rewrite <- Hbuf, <- Hix; exact Hws |].
  rewrite Hlen, Hix, length_app. simpl. lia.
Qed.

(** The input made of a quote and [foo] ends in [quoted] state. *)
Lemma C7_unterminated_quote_witness :
  modeAfter zeroOptions (utf8.rangeRunes (dq ++ "foo")) = Some quoted
  /\ exists q words,
      run zeroOptions (utf8.rangeRunes (dq ++ "foo")) = Some q
      /\ Split (dq ++ "foo") (Some zeroOptions)
         = Some (words, Some MismatchedQuote)
      /\ sliceWords (buf q) 0 (indexes q ++ [bufLen q]) = Some words
      /\ List.length words = S (List.length (indexes q)).
Proof.
  split; [vm_compute; reflexivity |].
  apply (proj2 C7_unterminated_quote zeroOptions (dq ++ "foo")%string).
  vm_compute; reflexivity.
Defined.

(* ------------------------------------------------------------------ *)
(** ** The plain backslash (C8) *)

Lemma isspace_special opt cs q :
  run opt cs = Some q ->
  isspace q (ch "\") = false /\ isspace q (ch "034") = false.
Proof.
  intros E. destruct (run_config opt cs q E) as [A _]. rewrite A.
  destruct (OnlySpaceIsSpace opt); split; reflexivity.
Qed.

Lemma Inv_enclosing q :
  Inv q -> currentFunc q = normal \/ currentFunc q = quoted ->
  states q = [normal] \/ states q = [normal; quoted].
Proof.
  intros HI [Hf|Hf];
    [left; apply Inv_top_normal | right; apply Inv_top_quoted]; assumption.
Qed.

Lemma run_app opt cs1 cs2 q :
  run opt cs1 = Some q -> run opt (cs1 ++ cs2) = feed q cs2.
Proof. intros H. unfold run in *. rewrite feed_app, H. reflexivity. Qed.

(** C8: without [FancyBackslash], a backslash met in [normal] or [quoted]
    state and the character after it add that character alone to the
    buffer and leave the stack, the state in charge, the recorded
    boundaries and the error as they were, with a word in progress: an
    escaped space records no boundary, an escaped quote opens or closes
    nothing, an escaped backslash escapes nothing.  So [a\ b] is the one
    word [a b], and [a\\ b] the two words [a\] and [b]. *)
Theorem C8_simple_backslash :
  Split "a\ b" None = Some (["a b"%string], None)
  /\ Split "a\\ b" None = Some (["a\"%string; "b"%string], None)
  /\ forall opt cs c,
      FancyBackslash opt = false ->
      modeAfter opt cs = Some normal \/ modeAfter opt cs = Some quoted ->
      exists q q',
        run opt cs = Some q
        /\ run opt (cs ++ [ch "\"; c]) = Some q'
        /\ buf q' = (buf q ++ utf8.AppendRune c)%string
        /\ states q' = states q
        /\ currentFunc q' = currentFunc q
        /\ indexes q' = indexes q
        /\ err q' = err q
        /\ partial q' = true.
Proof.
  split; [vm_compute; reflexivity |].
  split; [vm_compute; reflexivity |].
  intros opt cs c Hopt Hm.
  assert (Hq : exists q, run opt cs = Some q
                         /\ (currentFunc q = normal \/ currentFunc q = quoted)
                         /\ Inv q).
  { destruct Hm as [Hm|Hm];
      destruct (modeAfter_run opt cs _ Hm) as [q [E [Hf HI]]];
      exists q; auto. }
  destruct Hq as [q [E [Hf HI]]].
  destruct (isspace_special opt cs q E) as [Hsp _].
  destruct (run_config opt cs q E) as [_ Hbs]. rewrite Hopt in Hbs.
  destruct Hf as [Hf|Hf].
  - pose proof (Inv_top_normal q HI Hf) as Hst.
    exists q, (simpleBackslash (setPartial (push q backslash) true) c).
    split; [exact E |].
    split.
    + rewrite (run_app opt cs _ q E).
      unfold feed, next. rewrite Hf.
      unfold stateNormal. rewrite Hsp. simpl.
      unfold stateBackslash. simpl. rewrite Hbs. reflexivity.
    + unfold simpleBackslash, pop; simpl. rewrite Hst; simpl.
      repeat split; auto.
  - pose proof (Inv_top_quoted q HI Hf) as Hst.
    exists q, (simpleBackslash (push q backslash) c).
    split; [exact E |].
    split.
    + rewrite (run_app opt cs _ q E).
      unfold feed, next. rewrite Hf.
      unfold stateQuoted. simpl.
      unfold stateBackslash. simpl. rewrite Hbs. reflexivity.
    + unfold simpleBackslash, pop; simpl. rewrite Hst; simpl.
      repeat split; auto.
      apply (inv_partial q HI). congruence.
Qed.

(** An escaped space after [a], with the default options. *)
Lemma C8_simple_backslash_witness :
  FancyBackslash zeroOptions = false
  /\ (modeAfter zeroOptions [ch "a"] = Some normal
      \/ modeAfter zeroOptions [ch "a"] = Some quoted)
  /\ exists q q',
        run zeroOptions [ch "a"] = Some q
        /\ run zeroOptions ([ch "a"] ++ [ch "\"; ch " "]) = Some q'
        /\ buf q' = (buf q ++ utf8.AppendRune (ch " "))%string
        /\ states q' = states q
        /\ currentFunc q' = currentFunc q
        /\ indexes q' = indexes q
        /\ err q' = err q
        /\ partial q' = true.
Proof.
  split; [reflexivity |].
  split; [left; vm_compute; reflexivity |].
  apply (proj2 (proj2 C8_simple_backslash) zeroOptions [ch "a"] (ch " "));
    [reflexivity | left; vm_compute; reflexivity].
Defined.

(* ------------------------------------------------------------------ *)
(** ** Which characters separate words (C9) *)

(** C9: with [OnlySpaceIsSpace] the space character alone ends a word;
    without it, and also when no options are given, every character for
    which [unicode.IsSpace] holds does.  In [normal] state such a character
    makes [next] call [newWord] and nothing else; any other character
    leaves the boundaries alone and marks a word as in progress.  So a tab
    between [a] and [b] gives two words by default and one word under
    [OnlySpaceIsSpace]. *)
Theorem C9_space_recognition :
  Split ("a" ++ tab ++ "b") None = Some (["a"%string; "b"%string], None)
  /\ Split ("a" ++ tab ++ "b") (Some zeroOptions)
     = Some (["a"%string; "b"%string], None)
  /\ Split ("a" ++ tab ++ "b") strict = Some ([("a" ++ tab ++ "b")%string], None)
  /\ (forall s, Split s None = Split s (Some (mkOptions false false)))
  /\ forall opt cs c,
      modeAfter opt cs = Some normal ->
      exists q q',
        run opt cs = Some q
        /\ run opt (cs ++ [c]) = Some q'
        /\ isspace q c
           = (if OnlySpaceIsSpace opt then c =? ch " " else unicode.IsSpace c)
        /\ if isspace q c then q' = newWord q
           else partial q' = true /\ indexes q' = indexes q.
Proof.
  split; [vm_compute; reflexivity |].
  split; [vm_compute; reflexivity |].
  split; [vm_compute; reflexivity |].
  split; [reflexivity |].
  intros opt cs c Hm.
  destruct (modeAfter_run opt cs normal Hm) as [q [E [Hf HI]]].
  exists q, (stateNormal q c).
  split; [exact E |].
  split; [rewrite (run_snoc opt cs c q E); unfold next; rewrite Hf; reflexivity |].
  split.
  - destruct (run_config opt cs q E) as [A _]. rewrite A.
    destruct (OnlySpaceIsSpace opt); reflexivity.
  - unfold stateNormal. destruct (isspace q c); [reflexivity |].
    fields. break_ifs; simpl; auto.
Qed.

(** A tab after [a] under [OnlySpaceIsSpace]. *)
Lemma C9_space_recognition_witness :
  modeAfter strictOptions [ch "a"] = Some normal
  /\ exists q q',
        run strictOptions [ch "a"] = Some q
        /\ run strictOptions ([ch "a"] ++ [ch "009"]) = Some q'
        /\ isspace q (ch "009")
           = (if OnlySpaceIsSpace strictOptions then ch "009" =? ch " "
              else unicode.IsSpace (ch "009"))
        /\ if isspace q (ch "009") then q' = newWord q
           else partial q' = true /\ indexes q' = indexes q.
Proof.
  split; [vm_compute; reflexivity |].
  apply (proj2 (proj2 (proj2 (proj2 C9_space_recognition)))
           strictOptions [ch "a"] (ch "009")).
  vm_compute; reflexivity.
Defined.

(* ------------------------------------------------------------------ *)
(** ** Empty quoted words (C10) *)

Lemma substring_zero s : forall n, substring n 0 s = EmptyString.
Proof.
  induction s as [|a s IH]; intros [|n]; simpl; auto.
Qed.

Lemma slice_empty s b :
  0 <= b <= Z.of_nat (String.length s) -> slice s b b = Some EmptyString.
Proof.
  intros H. unfold slice.
  replace ((0 <=? b) && (b <=? b) && (b <=? Z.of_nat (String.length s)))
    with true by (symmetry; rewrite !andb_true_iff, !Z.leb_le; lia).
  rewrite Z.sub_diag. simpl. rewrite substring_zero. reflexivity.
Qed.

(** C10: in [normal] state a quote or a backslash marks a word as in
    progress and writes nothing to the buffer.  An empty quoted span
    therefore leads [newWord] to record a boundary at the length the
    buffer already had; between two words that length is also the
    previous boundary, and the word sliced out is the empty string.  So
    [a], an empty quoted span and [b], separated by spaces, are three
    words, and an empty quoted span alone is one empty word. *)
Theorem C10_empty_quoted_word :
  Split ("a " ++ dq ++ dq ++ " b") None
  = Some (["a"%string; EmptyString; "b"%string], None)
  /\ Split (dq ++ dq) None = Some ([EmptyString], None)
  /\ forall opt cs,
      modeAfter opt cs = Some normal ->
      exists q q1 q1' q2,
        run opt cs = Some q
        /\ run opt (cs ++ [ch "034"]) = Some q1
        /\ partial q1 = true /\ buf q1 = buf q /\ indexes q1 = indexes q
        /\ run opt (cs ++ [ch "\"]) = Some q1'
        /\ partial q1' = true /\ buf q1' = buf q /\ indexes q1' = indexes q
        /\ run opt (cs ++ [ch "034"; ch "034"]) = Some q2
        /\ currentFunc q2 = normal
        /\ buf q2 = buf q
        /\ indexes (newWord q2) = indexes q ++ [bufLen q]
        /\ (if partial q then True
            else slice (buf q2) (last (indexes q) 0) (bufLen q)
                 = Some EmptyString).
Proof.
  split; [vm_compute; reflexivity |].
  split; [vm_compute; reflexivity |].
  intros opt cs Hm.
  destruct (modeAfter_run opt cs normal Hm) as [q [E [Hf HI]]].
  destruct (isspace_special opt cs q E) as [Hbs Hdq].
  pose proof (Inv_top_normal q HI Hf) as Hst.
  assert (N1 : stateNormal q (ch "034") = setPartial (push q quoted) true).
  { unfold stateNormal. rewrite Hdq. reflexivity. }
  assert (N2 : stateNormal q (ch "\") = setPartial (push q backslash) true).
  { unfold stateNormal. rewrite Hbs. reflexivity. }
  exists q, (setPartial (push q quoted) true),
    (setPartial (push q backslash) true),
    (pop (setPartial (push q quoted) true)).
  split; [exact E |].
  split; [rewrite (run_snoc opt cs _ q E); unfold next; rewrite Hf, N1;
          reflexivity |].
  do 3 (split; [reflexivity |]).
  split; [rewrite (run_snoc opt cs _ q E); unfold next; rewrite Hf, N2;
          reflexivity |].
  do 3 (split; [reflexivity |]).
  split.
  { rewrite (run_app opt cs _ q E). unfold feed, next. rewrite Hf, N1.
    reflexivity. }
  unfold pop, push; simpl. rewrite Hst; simpl.
  do 3 (split; [reflexivity |]).
  destruct (partial q) eqn:Hp; [exact I |].
  rewrite (inv_fresh q HI Hp).
  apply slice_empty. split; [apply bufLen_nonneg | unfold bufLen; lia].
Qed.

(** An empty quoted span after [a] and a space. *)
Lemma C10_empty_quoted_word_witness :
  modeAfter zeroOptions [ch "a"; ch " "] = Some normal
  /\ exists q q1 q1' q2,
        run zeroOptions [ch "a"; ch " "] = Some q
        /\ run zeroOptions ([ch "a"; ch " "] ++ [ch "034"]) = Some q1
        /\ partial q1 = true /\ buf q1 = buf q /\ indexes q1 = indexes q
        /\ run zeroOptions ([ch "a"; ch " "] ++ [ch "\"]) = Some q1'
        /\ partial q1' = true /\ buf q1' = buf q /\ indexes q1' = indexes q
        /\ run zeroOptions ([ch "a"; ch " "] ++ [ch "034"; ch "034"]) = Some q2
        /\ currentFunc q2 = normal
        /\ buf q2 = buf q
        /\ indexes (newWord q2) = indexes q ++ [bufLen q]
        /\ (if partial q then True
            else slice (buf q2) (last (indexes q) 0) (bufLen q)
                 = Some EmptyString).
Proof.
  split; [vm_compute; reflexivity |].
  apply (proj2 (proj2 C10_empty_quoted_word) zeroOptions [ch "a"; ch " "]).
  vm_compute; reflexivity.
Defined.

(* ------------------------------------------------------------------ *)
(** ** Hex escapes that complete (C4) *)

Lemma wrap32_small z : - 2 ^ 31 <= z < 2 ^ 31 -> wrap32 z = z.
Proof.
  intros H. unfold wrap32.
  rewrite Z.mod_small by lia. lia.
Qed.

Lemma hexDigitsTable_range : Forall (fun v => -1 <= v <= 15) hexDigitsTable.
Proof. unfold hexDigitsTable. repeat constructor; lia. Qed.

Lemma isHexDigit_true c val :
  isHexDigit c = true -> hexDigits c = Some val ->
  (c <? 128) = true /\ negb (val =? -1) = true /\ 0 <= val <= 15.
Proof.
  unfold isHexDigit. intros H Hv. rewrite Hv in H.
  apply andb_prop in H. destruct H as [H1 H2].
  split; [exact H1 |]. split; [exact H2 |].
  unfold hexDigits in Hv. destruct (c <? 0); [discriminate |].
  apply nth_error_In in Hv.
  pose proof (proj1 (Forall_forall _ _) hexDigitsTable_range val Hv) as R.
  cbv beta in R. apply negb_true_iff, Z.eqb_neq in H2. lia.
Qed.

Lemma next_hex_digit q c val :
  Inv q -> currentFunc q = hex ->
  isHexDigit c = true -> hexDigits c = Some val ->
  next q c = Some (hexDigitStep q val).
Proof.
  intros HI Hf Hd Hv.
  destruct (Inv_hex_back q HI Hf) as [_ Hf1].
  destruct (isHexDigit_true c val Hd Hv) as [H128 [Hneq _]].
  unfold next. rewrite Hf.
  rewrite stateHex_unfold by (destruct Hf1; congruence).
  cbv zeta. rewrite H128, Hv, Hneq. reflexivity.
Qed.

Lemma next_hex_back q c :
  Inv q -> currentFunc q = hex -> 0 <= c -> isHexDigit c = false ->
  next q c = next (pop (WriteRune q (hexValue q))) c.
Proof.
  intros HI Hf Hc Hd.
  destruct (Inv_hex_back q HI Hf) as [_ Hf1].
  unfold next at 1. rewrite Hf.
  rewrite stateHex_unfold by (destruct Hf1; congruence).
  cbv zeta. unfold isHexDigit in Hd.
  assert (Hn : next (pop (WriteRune q (hexValue q))) c
               = match currentFunc (pop (WriteRune q (hexValue q))) with
                 | normal => Some (stateNormal (pop (WriteRune q (hexValue q))) c)
                 | quoted => Some (stateQuoted (pop (WriteRune q (hexValue q))) c)
                 | backslash =>
                     Some (stateBackslash (pop (WriteRune q (hexValue q))) c)
                 | hex => None
                 end).
  { unfold next. destruct Hf1 as [E|E]; rewrite E; reflexivity. }
  rewrite Hn.
  destruct (c <? 128) eqn:E128; [| reflexivity].
  apply Z.ltb_lt in E128.
  destruct (hexDigits_some c (conj Hc E128)) as [val Hval].
  rewrite Hval in *. simpl in Hd. rewrite Hd. reflexivity.
Qed.

Lemma hexDigitStep_more q v :
  1 < parseHex q <= 8 ->
  hexDigitStep q v
  = setHex q (parseHex q - 1) (wrap32 (hexValue q * 16 + v)).
Proof.
  intros H. unfold hexDigitStep. simpl.
  rewrite wrap64_small by lia.
  destruct (parseHex q - 1 =? 0) eqn:E; [apply Z.eqb_eq in E; lia | reflexivity].
Qed.

Lemma hexDigitStep_last q v :
  parseHex q = 1 ->
  hexDigitStep q v
  = pop (WriteRune (setHex q 0 (wrap32 (hexValue q * 16 + v)))
                   (wrap32 (hexValue q * 16 + v))).
Proof.
  intros H. unfold hexDigitStep. simpl. rewrite H.
  rewrite wrap64_small by lia. reflexivity.
Qed.

Lemma option_map_Some (A B : Type) (f : A -> B) (o : option A) (a : A) (b : B) :
  o = Some a -> option_map f o = Some b -> f a = b.
Proof. intros -> H. simpl in H. congruence. Qed.

(** C4: the hex digit that completes an escape makes [next] write the
    accumulated value and pop the stack, which leaves [normal] or [quoted]
    in charge, never [backslash].  A whole escape [\x] with its two digits,
    met in [normal] or [quoted] state, writes the value of the two digits
    and leaves the stack and the state in charge as they were before the
    backslash.  So [\x69x23] with [FancyBackslash] is the one word
    [ix23]. *)
Theorem C4_hex_complete_returns_to_enclosing :
  Split "\x69x23" fancy = Some (["ix23"%string], None)
  /\ (forall opt cs c val,
        modeAfter opt cs = Some hex ->
        option_map parseHex (run opt cs) = Some 1 ->
        isHexDigit c = true -> hexDigits c = Some val ->
        exists q q',
          run opt cs = Some q
          /\ run opt (cs ++ [c]) = Some q'
          /\ buf q' = (buf q
                       ++ utf8.AppendRune (wrap32 (hexValue q * 16 + val)))%string
          /\ states q' = removelast (states q)
          /\ top (states q') = Some (currentFunc q')
          /\ (currentFunc q' = normal \/ currentFunc q' = quoted))
  /\ (forall opt cs d1 d2 v1 v2,
        FancyBackslash opt = true ->
        modeAfter opt cs = Some normal \/ modeAfter opt cs = Some quoted ->
        isHexDigit d1 = true -> hexDigits d1 = Some v1 ->
        isHexDigit d2 = true -> hexDigits d2 = Some v2 ->
        exists q q',
          run opt cs = Some q
          /\ run opt (cs ++ [ch "\"; ch "x"; d1; d2]) = Some q'
          /\ buf q' = (buf q ++ utf8.AppendRune (v1 * 16 + v2))%string
          /\ states q' = states q
          /\ currentFunc q' = currentFunc q
          /\ indexes q' = indexes q
          /\ err q' = err q).
Proof.
  split; [vm_compute; reflexivity |].
  split.
  - intros opt cs c val Hm Hn Hd Hv.
    destruct (modeAfter_run opt cs hex Hm) as [q [E [Hf HI]]].
    pose proof (option_map_Some _ _ _ _ _ _ E Hn) as Hph.
    exists q, (hexDigitStep q val).
    split; [exact E |].
    split; [rewrite (run_snoc opt cs c q E);
            apply next_hex_digit; assumption |].
    rewrite (hexDigitStep_last q val Hph).
    destruct (Inv_top_escape q hex HI Hf (or_intror eq_refl)) as [Hst|Hst];
      unfold pop; simpl; rewrite Hst; simpl; repeat split; auto.
  - intros opt cs d1 d2 v1 v2 Hopt Hm Hd1 Hv1 Hd2 Hv2.
    destruct (isHexDigit_true d1 v1 Hd1 Hv1) as [_ [_ R1]].
    destruct (isHexDigit_true d2 v2 Hd2 Hv2) as [_ [_ R2]].
    assert (Hq : exists q, run opt cs = Some q
                           /\ (currentFunc q = normal \/ currentFunc q = quoted)
                           /\ Inv q).
    { destruct Hm as [Hm|Hm];
        destruct (modeAfter_run opt cs _ Hm) as [q [E [Hf HI]]];
        exists q; auto. }
    destruct Hq as [q [E [Hf HI]]].
    destruct (isspace_special opt cs q E) as [Hsp _].
    destruct (run_config opt cs q E) as [_ Hbs]. rewrite Hopt in Hbs.
    set (q1 := match currentFunc q with
               | normal => setPartial (push q backslash) true
               | _ => push q backslash
               end).
    set (q2 := startHex (pop q1) 2).
    assert (E1 : run opt (cs ++ [ch "\"]) = Some q1).
    { rewrite (run_snoc opt cs _ q E). unfold next, q1.
      destruct Hf as [Hf|Hf]; rewrite Hf.
      - unfold stateNormal. rewrite Hsp. reflexivity.
      - reflexivity. }
    assert (Hst : states q = [normal] \/ states q = [normal; quoted])
      by (apply Inv_enclosing; assumption).
    assert (E2 : run opt ((cs ++ [ch "\"]) ++ [ch "x"]) = Some q2).
    { rewrite (run_snoc opt _ _ q1 E1). unfold next, q2, q1.
      destruct Hf as [Hf|Hf]; rewrite Hf; simpl;
        unfold stateBackslash; simpl; rewrite Hbs; reflexivity. }
    assert (Hf2 : currentFunc q2 = hex) by reflexivity.
    pose proof (run_Inv_inv opt _ q2 E2) as HI2.
    assert (E3 : run opt (((cs ++ [ch "\"]) ++ [ch "x"]) ++ [d1])
                 = Some (hexDigitStep q2 v1)).
    { rewrite (run_snoc opt _ _ q2 E2). apply next_hex_digit; assumption. }
    assert (S3 : hexDigitStep q2 v1 = setHex q2 1 (wrap32 (0 * 16 + v1)))
      by (apply (hexDigitStep_more q2 v1); simpl; lia).
    rewrite S3 in E3.
    pose proof (run_Inv_inv opt _ _ E3) as HI3.
    assert (E4 : run opt ((((cs ++ [ch "\"]) ++ [ch "x"]) ++ [d1]) ++ [d2])
                 = Some (hexDigitStep (setHex q2 1 (wrap32 (0 * 16 + v1))) v2)).
    { rewrite (run_snoc opt _ _ _ E3). apply next_hex_digit; auto. }
    rewrite hexDigitStep_last in E4 by reflexivity.
    eexists q, _.
    split; [exact E |].
    split; [rewrite <- E4; f_equal; rewrite <- !app_assoc; reflexivity |].
    unfold q2, q1, startHex; simpl.
    rewrite (wrap32_small v1) by lia.
    rewrite (wrap32_small (v1 * 16 + v2)) by lia.
    destruct Hf as [Hf|Hf]; destruct Hst as [Hst|Hst];
      pose proof (inv_current q HI) as Hcur; rewrite Hst, Hf in Hcur;
      try discriminate Hcur;
      rewrite Hf; unfold pop, push; simpl; rewrite Hst; simpl;
      repeat split; auto.
Qed.

(** The escape [\x69]: its last digit alone, and the escape as a whole. *)
Lemma C4_hex_complete_returns_to_enclosing_witness :
  (modeAfter fancyOptions [ch "\"; ch "x"; ch "6"] = Some hex
   /\ option_map parseHex (run fancyOptions [ch "\"; ch "x"; ch "6"]) = Some 1
   /\ isHexDigit (ch "9") = true /\ hexDigits (ch "9") = Some 9
   /\ exists q q',
        run fancyOptions [ch "\"; ch "x"; ch "6"] = Some q
        /\ run fancyOptions ([ch "\"; ch "x"; ch "6"] ++ [ch "9"]) = Some q'
        /\ buf q' = (buf q
                     ++ utf8.AppendRune (wrap32 (hexValue q * 16 + 9)))%string
        /\ states q' = removelast (states q)
        /\ top (states q') = Some (currentFunc q')
        /\ (currentFunc q' = normal \/ currentFunc q' = quoted))
  /\ (FancyBackslash fancyOptions = true
      /\ (modeAfter fancyOptions [] = Some normal
          \/ modeAfter fancyOptions [] = Some quoted)
      /\ isHexDigit (ch "6") = true /\ hexDigits (ch "6") = Some 6
      /\ isHexDigit (ch "9") = true /\ hexDigits (ch "9") = Some 9
      /\ exists q q',
           run fancyOptions [] = Some q
           /\ run fancyOptions ([] ++ [ch "\"; ch "x"; ch "6"; ch "9"]) = Some q'
           /\ buf q' = (buf q ++ utf8.AppendRune (6 * 16 + 9))%string
           /\ states q' = states q
           /\ currentFunc q' = currentFunc q
           /\ indexes q' = indexes q
           /\ err q' = err q).
Proof.
  split.
  - do 4 (split; [vm_compute; reflexivity |]).
    apply (proj1 (proj2 C4_hex_complete_returns_to_enclosing)
             fancyOptions [ch "\"; ch "x"; ch "6"] (ch "9") 9);
      vm_compute; reflexivity.
  - split; [reflexivity |].
    split; [left; vm_compute; reflexivity |].
    do 4 (split; [vm_compute; reflexivity |]).
    apply (proj2 (proj2 C4_hex_complete_returns_to_enclosing)
             fancyOptions [] (ch "6") (ch "9") 6 9);
      try (vm_compute; reflexivity).
    left; vm_compute; reflexivity.
Defined.

(* ------------------------------------------------------------------ *)
(** ** Hex escapes cut short by another character (C5) *)

Lemma Step_back_err q c q' :
  currentFunc q = normal \/ currentFunc q = quoted ->
  next q c = Some q' -> err q' = err q.
Proof.
  intros Hf H. unfold next in H.
  destruct Hf as [Hf|Hf]; rewrite Hf in H; injection H as <-;
    fields; break_ifs; reflexivity.
Qed.

(** C5: in [hex] state a character that is no hex digit makes [next]
    write the value accumulated so far, pop the stack, which leaves
    [normal] or [quoted] in charge, and hand the same character to that
    state; the error is left as it was.  The value is zero when the escape
    has just begun.  So with [FancyBackslash], [\x69] is the word [i] and
    [\xza] is the word made of the character 0 followed by [za], each
    without error.  (A value that is no code point is written as U+FFFD,
    as [WriteRune] does.) *)
Theorem C5_hex_nondigit_handed_back :
  Split "\x69" fancy = Some (["i"%string], None)
  /\ Split "\xza" fancy = Some ([(nul ++ "za")%string], None)
  /\ (forall opt cs (c : rune),
        0 <= c ->
        modeAfter opt cs = Some hex ->
        isHexDigit c = false ->
        exists q q',
          run opt cs = Some q
          /\ run opt (cs ++ [c]) = Some q'
          /\ buf (pop (WriteRune q (hexValue q)))
             = (buf q ++ utf8.AppendRune (hexValue q))%string
          /\ states (pop (WriteRune q (hexValue q))) = removelast (states q)
          /\ (currentFunc (pop (WriteRune q (hexValue q))) = normal
              \/ currentFunc (pop (WriteRune q (hexValue q))) = quoted)
          /\ next (pop (WriteRune q (hexValue q))) c = Some q'
          /\ err q' = err q)
  /\ (forall opt cs,
        FancyBackslash opt = true ->
        modeAfter opt cs = Some backslash ->
        exists qx qu qU,
          run opt (cs ++ [ch "x"]) = Some qx
          /\ run opt (cs ++ [ch "u"]) = Some qu
          /\ run opt (cs ++ [ch "U"]) = Some qU
          /\ currentFunc qx = hex /\ hexValue qx = 0 /\ parseHex qx = 2
          /\ currentFunc qu = hex /\ hexValue qu = 0 /\ parseHex qu = 4
          /\ currentFunc qU = hex /\ hexValue qU = 0 /\ parseHex qU = 8).
Proof.
  split; [vm_compute; reflexivity |].
  split; [vm_compute; reflexivity |].
  split.
  - intros opt cs c Hc Hm Hd.
    destruct (modeAfter_run opt cs hex Hm) as [q [E [Hf HI]]].
    destruct (Inv_hex_back q HI Hf) as [HI1 Hf1].
    destruct (next_Inv q c HI Hc) as [q' [E' _]].
    exists q, q'.
    split; [exact E |].
    split; [rewrite (run_snoc opt cs c q E); exact E' |].
    rewrite (next_hex_back q c HI Hf Hc Hd) in E'.
    split; [unfold pop; simpl; break_ifs; reflexivity |].
    split.
    { destruct (Inv_top_escape q hex HI Hf (or_intror eq_refl)) as [Hst|Hst];
        unfold pop; simpl; rewrite Hst; reflexivity. }
    split; [exact Hf1 |].
    split; [exact E' |].
    rewrite (Step_back_err _ c q' Hf1 E'), err_pop. reflexivity.
  - intros opt cs Hopt Hm.
    destruct (modeAfter_run opt cs backslash Hm) as [q [E [Hf HI]]].
    destruct (run_config opt cs q E) as [_ Hbs]. rewrite Hopt in Hbs.
    exists (startHex (pop q) 2), (startHex (pop q) 4), (startHex (pop q) 8).
    rewrite !(run_snoc opt cs _ q E). unfold next. rewrite Hf.
    unfold stateBackslash. rewrite Hbs.
    repeat split.
Qed.

(** The character [z] right after [\x], and the three letters that start
    a hex escape. *)
Lemma C5_hex_nondigit_handed_back_witness :
  (0 <= ch "z"
   /\ modeAfter fancyOptions [ch "\"; ch "x"] = Some hex
   /\ isHexDigit (ch "z") = false
   /\ exists q q',
        run fancyOptions [ch "\"; ch "x"] = Some q
        /\ run fancyOptions ([ch "\"; ch "x"] ++ [ch "z"]) = Some q'
        /\ buf (pop (WriteRune q (hexValue q)))
           = (buf q ++ utf8.AppendRune (hexValue q))%string
        /\ states (pop (WriteRune q (hexValue q))) = removelast (states q)
        /\ (currentFunc (pop (WriteRune q (hexValue q))) = normal
            \/ currentFunc (pop (WriteRune q (hexValue q))) = quoted)
        /\ next (pop (WriteRune q (hexValue q))) (ch "z") = Some q'
        /\ err q' = err q)
  /\ (FancyBackslash fancyOptions = true
      /\ modeAfter fancyOptions [ch "\"] = Some backslash
      /\ exists qx qu qU,
           run fancyOptions ([ch "\"] ++ [ch "x"]) = Some qx
           /\ run fancyOptions ([ch "\"] ++ [ch "u"]) = Some qu
           /\ run fancyOptions ([ch "\"] ++ [ch "U"]) = Some qU
           /\ currentFunc qx = hex /\ hexValue qx = 0 /\ parseHex qx = 2
           /\ currentFunc qu = hex /\ hexValue qu = 0 /\ parseHex qu = 4
           /\ currentFunc qU = hex /\ hexValue qU = 0 /\ parseHex qU = 8).
Proof.
  split.
  - split; [vm_compute; discriminate |].
    do 2 (split; [vm_compute; reflexivity |]).
    apply (proj1 (proj2 (proj2 C5_hex_nondigit_handed_back))
             fancyOptions [ch "\"; ch "x"] (ch "z"));
      [vm_compute; discriminate | vm_compute; reflexivity
       | vm_compute; reflexivity].
  - split; [reflexivity |].
    split; [vm_compute; reflexivity |].
    apply (proj2 (proj2 (proj2 C5_hex_nondigit_handed_back))
             fancyOptions [ch "\"]);
      [reflexivity | vm_compute; reflexivity].
Defined.

(* ================================================================== *)
(** * Further properties of the splitter *)

(* ------------------------------------------------------------------ *)
(** ** [Split] as a whole *)

(** [Split] returns on every input and with every configuration: the
    index into [hexDigits] is in range, the recursion of [stateHex] ends,
    the final switch finds a top of stack, and every slice of the buffer
    is within bounds; it returns one word per recorded boundary. *)
Theorem Split_always_returns (s : string) (qopt : option Options) :
  exists q qe words,
    run (optionsOf qopt) (utf8.rangeRunes s) = Some q
    /\ endQuoter q = Some qe
    /\ Split s qopt = Some (words, err qe)
    /\ List.length words = List.length (indexes qe).
Proof.
  destruct (run_Inv (optionsOf qopt) (utf8.rangeRunes s) (rangeRunes_nonneg s))
    as [q [E HI]].
  destruct (finish_Inv q HI) as [qe [ws [Ee [_ [Hlen F]]]]].
  exists q, qe, ws. unfold Split. rewrite E, F. auto.
Qed.

(** At every step of every run the stack is one of six: [normal] alone or
    under [quoted], with at most one escape state on top; it never holds
    more than three entries, [hex] never sits on [backslash], and
    [currentFunc] is the function of the state on top. *)
Theorem stack_shapes (opt : Options) (s : string) (n : nat) :
  exists q,
    stepsOf opt s n = Some q
    /\ In (states q)
         [ [normal]; [normal; quoted]; [normal; backslash]; [normal; hex];
           [normal; quoted; backslash]; [normal; quoted; hex] ]
    /\ (List.length (states q) <= 3)%nat
    /\ top (states q) = Some (currentFunc q).
Proof.
  destruct (stepsOf_Inv opt s n) as [q [E HI]].
  exists q. split; [exact E |].
  pose proof (inv_shape q HI) as Hsh.
  split; [| split; [apply (Inv_depth q HI) | apply (inv_current q HI)]].
  simpl. unfold stackShape in Hsh. intuition auto.
Qed.

(** A step enters [hex] only from [backslash] under [FancyBackslash]. *)
Lemma Step_hex_origin q c q' :
  Inv q -> Step q c q' -> currentFunc q' = hex ->
  currentFunc q = hex
  \/ (currentFunc q = backslash /\ backslashF q = fnFancyBackslash).
Proof.
  intros HI St Hh.
  destruct St as [Hf|Hf|Hf|val Hf Hd Hv|Hf Hd Hb|Hf Hd Hb]; auto.
  - exfalso. pose proof (Inv_top_normal q HI Hf) as Hst. revert Hh.
    fields. rewrite ?Hst. break_ifs; simpl; rewrite ?Hf; discriminate.
  - exfalso. pose proof (Inv_top_quoted q HI Hf) as Hst. revert Hh.
    fields. rewrite ?Hst. break_ifs; simpl; rewrite ?Hf; discriminate.
  - right. split; [exact Hf |].
    destruct (backslashF q) eqn:Hb; [| reflexivity].
    exfalso. revert Hh. unfold stateBackslash. rewrite Hb.
    destruct (Inv_top_escape q backslash HI Hf (or_introl eq_refl)) as [Hst|Hst];
      fields; rewrite Hst; simpl; discriminate.
Qed.

(** Without [FancyBackslash] a run records no error and never enters
    [hex]. *)
Lemma run_simple opt cs q :
  FancyBackslash opt = false -> run opt cs = Some q ->
  err q = None /\ currentFunc q <> hex.
Proof.
  intros Hopt. revert q.
  induction cs as [|c cs IH] using rev_ind; intros q H.
  - unfold run in H; simpl in H. injection H as <-. simpl.
    split; [reflexivity | discriminate].
  - unfold run in H. rewrite feed_app in H.
    destruct (feed (initQuoter opt) cs) as [q0|] eqn:E0; [| discriminate].
    simpl in H. destruct (next q0 c) as [q1|] eqn:E1; [| discriminate].
    injection H as <-.
    destruct (IH q0 E0) as [He Hh].
    pose proof (run_Inv_inv opt cs q0 E0) as HI.
    pose proof (next_Step q0 c q1 HI E1) as St.
    destruct (run_config opt cs q0 E0) as [_ Hbs]. rewrite Hopt in Hbs.
    split.
    + rewrite (Step_err q0 c q1 St), Hbs.
      destruct (currentFunc q0); exact He.
    + intros Hq1.
      destruct (Step_hex_origin q0 c q1 HI St Hq1) as [A|[_ B]];
        [contradiction | congruence].
Qed.

(** Without [FancyBackslash] the error [Split] returns depends on the
    state the input ends in alone: none in [normal] state,
    [MismatchedQuote] inside a quoted span, [IncompleteBackslash] after a
    backslash; the state [hex] is never entered and no error is recorded
    before the end of input. *)
Theorem simple_mode_error (opt : Options) (s : string) :
  FancyBackslash opt = false ->
  exists q words,
    run opt (utf8.rangeRunes s) = Some q
    /\ err q = None
    /\ currentFunc q <> hex
    /\ Split s (Some opt)
       = Some (words, match currentFunc q with
                      | quoted => Some MismatchedQuote
                      | backslash => Some IncompleteBackslash
                      | _ => None
                      end).
Proof.
  intros Hopt.
  destruct (run_Inv opt (utf8.rangeRunes s) (rangeRunes_nonneg s))
    as [q [E HI]].
  destruct (run_simple opt _ q Hopt E) as [He Hh].
  destruct (finish_Inv q HI) as [q2 [ws [E2 [_ [_ F]]]]].
  destruct (endQuoter_Inv q HI) as [q3 [E3 [Herr _]]].
  rewrite E2 in E3. injection E3 as <-.
  exists q, ws. repeat split; try assumption.
  unfold Split. simpl. rewrite E, F, Herr, He.
  destruct (currentFunc q); reflexivity.
Qed.

(** The input [a\] with the default options. *)
Lemma simple_mode_error_witness :
  FancyBackslash zeroOptions = false
  /\ exists q words,
      run zeroOptions (utf8.rangeRunes "a\") = Some q
      /\ err q = None
      /\ currentFunc q <> hex
      /\ Split "a\" (Some zeroOptions)
         = Some (words, match currentFunc q with
                        | quoted => Some MismatchedQuote
                        | backslash => Some IncompleteBackslash
                        | _ => None
                        end).
Proof.
  split; [reflexivity |].
  apply (simple_mode_error zeroOptions "a\"). reflexivity.
Defined.

(** The error pending during a run is that of [fancyBackslash] for a
    rune already consumed, if there is one. *)
Lemma run_err_kinds opt cs q :
  run opt cs = Some q ->
  err q = None
  \/ exists c, In c cs /\ isEscapeChar c = false
               /\ FancyBackslash opt = true
               /\ err q = Some (invalidEscape c).
Proof.
  revert q.
  induction cs as [|c cs IH] using rev_ind; intros q H.
  - unfold run in H; simpl in H. injection H as <-. left; reflexivity.
  - unfold run in H. rewrite feed_app in H.
    destruct (feed (initQuoter opt) cs) as [q0|] eqn:E0; [| discriminate].
    simpl in H. destruct (next q0 c) as [q1|] eqn:E1; [| discriminate].
    injection H as <-.
    pose proof (run_Inv_inv opt cs q0 E0) as HI.
    pose proof (Step_err q0 c q1 (next_Step q0 c q1 HI E1)) as He.
    destruct (run_config opt cs q0 E0) as [_ Hbs].
    assert (Hold : err q1 = err q0 ->
                   err q1 = None
                   \/ exists c0, In c0 (cs ++ [c]) /\ isEscapeChar c0 = false
                                 /\ FancyBackslash opt = true
                                 /\ err q1 = Some (invalidEscape c0)).
    { intros Heq. rewrite Heq.
      destruct (IH q0 E0) as [A|[c0 [A [B [C D]]]]]; [left; exact A |].
      right. exists c0. rewrite in_app_iff. auto. }
    destruct (currentFunc q0); try (apply Hold; exact He).
    destruct (backslashF q0) eqn:Hb; [apply Hold; exact He |].
    destruct (isEscapeChar c) eqn:Hc; [apply Hold; exact He |].
    right. exists c. rewrite in_app_iff. simpl.
    repeat split; auto.
    destruct (FancyBackslash opt); [reflexivity | discriminate].
Qed.

(** The error [Split] returns is nil, [MismatchedQuote],
    [IncompleteBackslash], or the error of [fancyBackslash] for a
    character of the input it has no case for; the last only under
    [FancyBackslash]. *)
Theorem Split_error_kinds (opt : Options) (s : string) :
  exists words e,
    Split s (Some opt) = Some (words, e)
    /\ (e = None \/ e = Some MismatchedQuote \/ e = Some IncompleteBackslash
        \/ exists c, In c (utf8.rangeRunes s) /\ isEscapeChar c = false
                     /\ FancyBackslash opt = true
                     /\ e = Some (invalidEscape c)).
Proof.
  destruct (run_Inv opt (utf8.rangeRunes s) (rangeRunes_nonneg s))
    as [q [E HI]].
  destruct (finish_Inv q HI) as [q2 [ws [E2 [_ [_ F]]]]].
  destruct (endQuoter_Inv q HI) as [q3 [E3 [Herr _]]].
  rewrite E2 in E3. injection E3 as <-.
  exists ws, (err q2). split; [unfold Split; simpl; rewrite E, F; reflexivity |].
  rewrite Herr.
  destruct (currentFunc q); auto;
    destruct (run_err_kinds opt _ q E) as [A|A]; auto.
Qed.

(* ------------------------------------------------------------------ *)
(** ** A backslash at the end of the input *)

Lemma AppendRune_backslash : utf8.AppendRune (ch "\") = "\"%string.
Proof. vm_compute. reflexivity. Qed.

(** When the input ends right after a backslash, [Split] returns the
    error [IncompleteBackslash]; the backslash itself is written to the
    buffer and ends the last word. *)
Theorem incomplete_backslash (opt : Options) (s : string) :
  modeAfter opt (utf8.rangeRunes s) = Some backslash ->
  exists q words,
    run opt (utf8.rangeRunes s) = Some q
    /\ Split s (Some opt) = Some (words, Some IncompleteBackslash)
    /\ sliceWords (buf q ++ "\") 0 (indexes q ++ [bufLen q + 1]) = Some words
    /\ List.length words = S (List.length (indexes q)).
Proof.
  intros Hm.
  destruct (modeAfter_run opt _ backslash Hm) as [q [E [Hf HI]]].
  destruct (finish_Inv q HI) as [q2 [ws [E2 [Hws [Hlen F]]]]].
  destruct (endQuoter_Inv q HI) as [q3 [E3 [Herr [Hbuf [Hix _]]]]].
  rewrite E2 in E3. injection E3 as <-.
  rewrite Hf in Herr, Hbuf. rewrite AppendRune_backslash in Hbuf.
  assert (Hp : partial q = true) by (apply (inv_partial q HI); congruence).
  rewrite Hp in Hix.
  assert (Hbl : bufLen q2 = bufLen q + 1).
  { unfold bufLen. rewrite Hbuf, length_append. simpl. lia. }
  rewrite Hbl in Hix.
  exists q, ws. split; [exact E |].
  split; [unfold Split; simpl; rewrite E, F, Herr; reflexivity |].
  split; [rewrite <- Hbuf, <- Hix; exact Hws |].
  rewrite Hlen, Hix, length_app. simpl. lia.
Qed.

(** The input [a\] ends right after a backslash. *)
Lemma incomplete_backslash_witness :
  modeAfter zeroOptions (utf8.rangeRunes "a\") = Some backslash
  /\ exists q words,
      run zeroOptions (utf8.rangeRunes "a\") = Some q
      /\ Split "a\" (Some zeroOptions) = Some (words, Some IncompleteBackslash)
      /\ sliceWords (buf q ++ "\") 0 (indexes q ++ [bufLen q + 1]) = Some words
      /\ List.length words = S (List.length (indexes q)).
Proof.
  split; [vm_compute; reflexivity |].
  apply (incomplete_backslash zeroOptions "a\"). vm_compute; reflexivity.
Defined.

(* ------------------------------------------------------------------ *)
(** ** Inputs without a word *)

Lemma run_isspace opt cs q : run opt cs = Some q -> isspace q = isSpaceFor opt.
Proof. intros E. apply (run_config opt cs q E). Qed.

Lemma snoc_not_nil (A : Type) (l : list A) (x : A) : l ++ [x] <> [].
Proof. intros H. apply app_eq_nil in H. destruct H; discriminate. Qed.

Lemma Step_started q c q' : Step q c q' -> started q -> started q'.
Proof.
  intros St [Hp|Hn].
  - unfold started.
    destruct St; fields; try destruct (backslashF q); rewrite ?Hp;
      break_ifs; simpl; rewrite ?Hp;
      first [left; reflexivity | right; apply snoc_not_nil].
  - right. destruct (Step_indexes q c q' St) as [[Hi|Hi] _]; rewrite Hi;
      [exact Hn | apply snoc_not_nil].
Qed.

Lemma run_started opt cs : forall q,
  run opt cs = Some q ->
  if forallb (isSpaceFor opt) cs then q = initQuoter opt else started q.
Proof.
  induction cs as [|c cs IH] using rev_ind; intros q H.
  - unfold run in H; simpl in H. injection H as <-. reflexivity.
  - unfold run in H. rewrite feed_app in H.
    destruct (feed (initQuoter opt) cs) as [q0|] eqn:E0; [| discriminate].
    simpl in H. destruct (next q0 c) as [q1|] eqn:E1; [| discriminate].
    injection H as <-.
    specialize (IH q0 E0).
    rewrite forallb_app. simpl. rewrite andb_true_r.
    destruct (forallb (isSpaceFor opt) cs).
    + subst q0. unfold next in E1. simpl in E1. injection E1 as <-.
      unfold stateNormal. simpl. fold (isSpaceFor opt).
      destruct (isSpaceFor opt c); [reflexivity |].
      left. fields. break_ifs; reflexivity.
    + simpl. apply (Step_started q0 c q1); [| exact IH].
      apply next_Step; [apply (run_Inv_inv opt cs q0 E0) | exact E1].
Qed.

(** [Split] returns no word exactly when every rune of the input is a
    separator; such an input, the empty one included, gives no error
    either. *)
Theorem no_words_iff_only_separators (opt : Options) (s : string) :
  exists words e,
    Split s (Some opt) = Some (words, e)
    /\ forallb (isSpaceFor opt) (utf8.rangeRunes s)
       = match words with
         | [] => true
         | _ => false
         end
    /\ match words with
       | [] => e = None
       | _ => True
       end.
Proof.
  destruct (run_Inv opt (utf8.rangeRunes s) (rangeRunes_nonneg s))
    as [q [E HI]].
  destruct (finish_Inv q HI) as [q2 [ws [E2 [_ [Hlen F]]]]].
  destruct (endQuoter_Inv q HI) as [q3 [E3 [Herr [_ [Hix _]]]]].
  rewrite E2 in E3. injection E3 as <-.
  pose proof (run_started opt _ q E) as Hst.
  exists ws, (err q2).
  split; [unfold Split; simpl; rewrite E, F; reflexivity |].
  destruct (forallb (isSpaceFor opt) (utf8.rangeRunes s)).
  - subst q. simpl in Hix, Herr. rewrite Hix in Hlen.
    destruct ws; [| discriminate Hlen].
    split; [reflexivity | exact Herr].
  - destruct ws as [|w ws]; [| split; [reflexivity | exact I]].
    exfalso. simpl in Hlen. symmetry in Hlen.
    apply length_zero_iff_nil in Hlen. rewrite Hix in Hlen.
    destruct Hst as [Hp|Hn].
    + rewrite Hp in Hlen. apply (snoc_not_nil _ _ _ Hlen).
    + destruct (partial q); [apply (snoc_not_nil _ _ _ Hlen) | contradiction].
Qed.

(* ------------------------------------------------------------------ *)
(** ** Strings *)

Lemma append_assoc (a b c : string) : ((a ++ b) ++ c = a ++ (b ++ c))%string.
Proof. induction a as [|x a IH]; simpl; [reflexivity | now rewrite IH]. Qed.

Lemma append_nil_r (a : string) : (a ++ "" = a)%string.
Proof. induction a as [|x a IH]; simpl; [reflexivity | now rewrite IH]. Qed.

(* ------------------------------------------------------------------ *)
(** ** Quoted spans *)

Lemma feed_quoted cs : forall q,
  currentFunc q = quoted ->
  Forall (fun c => c <> ch "\" /\ c <> ch "034") cs ->
  exists q',
    feed q cs = Some q'
    /\ buf q' = (buf q ++ encodeRunes cs)%string
    /\ states q' = states q /\ currentFunc q' = quoted
    /\ partial q' = partial q /\ indexes q' = indexes q /\ err q' = err q.
Proof.
  induction cs as [|c cs IH]; intros q Hf Hcs.
  - exists q. simpl. unfold encodeRunes. simpl. rewrite append_nil_r. auto 10.
  - inversion Hcs as [|? ? [Hb Hq] Hrest]; subst.
    simpl. unfold next. rewrite Hf.
    assert (Hs : stateQuoted q c = WriteRune q c).
    { unfold stateQuoted.
      destruct (c =? ch "\") eqn:E1; [apply Z.eqb_eq in E1; contradiction |].
      destruct (c =? ch "034") eqn:E2; [apply Z.eqb_eq in E2; contradiction |].
      reflexivity. }
    rewrite Hs.
    destruct (IH (WriteRune q c) Hf Hrest) as [q' [E [B R]]].
    exists q'. split; [exact E |].
    split; [| exact R].
    rewrite B. unfold encodeRunes. simpl. apply append_assoc.
Qed.

(** A quoted span at the very start of the input. *)
Lemma quoted_span_from_start (opt : Options) (cs : list rune) :
  Forall (fun c => c <> ch "\" /\ c <> ch "034") cs ->
  exists q',
    run opt ([ch "034"] ++ cs ++ [ch "034"]) = Some q'
    /\ buf q' = encodeRunes cs
    /\ states q' = [normal]
    /\ indexes q' = []
    /\ err q' = None
    /\ partial q' = true.
Proof.
  intros Hcs.
  set (q1 := setPartial (push (initQuoter opt) quoted) true).
  destruct (feed_quoted cs q1 eq_refl Hcs)
    as [q2 [E2 [B2 [S2 [F2 [P2 [I2 R2]]]]]]].
  exists (pop q2). split.
  - assert (Hdq : isspace (initQuoter opt) (ch "034") = false)
      by (simpl; destruct (OnlySpaceIsSpace opt); reflexivity).
    assert (E1 : run opt [ch "034"] = Some q1).
    { unfold run, feed, next. simpl currentFunc. cbv iota.
      unfold stateNormal. rewrite Hdq. reflexivity. }
    rewrite (run_app opt [ch "034"] _ q1 E1).
    rewrite feed_app, E2. simpl. unfold next. rewrite F2. reflexivity.
  - unfold pop. rewrite S2. simpl.
    rewrite B2, I2, R2, P2. repeat split; reflexivity.
Qed.

(** Between an opening and a closing quote every rune other than a quote
    or a backslash is written to the buffer as it is, separators
    included; the span records no boundary and raises no error, leaves a
    word in progress, and ends in the state it began in. *)
Theorem quoted_span_verbatim (opt : Options) (cs0 cs : list rune) :
  modeAfter opt cs0 = Some normal ->
  Forall (fun c => c <> ch "\" /\ c <> ch "034") cs ->
  exists q q',
    run opt cs0 = Some q
    /\ run opt (cs0 ++ [ch "034"] ++ cs ++ [ch "034"]) = Some q'
    /\ buf q' = (buf q ++ encodeRunes cs)%string
    /\ states q' = states q
    /\ currentFunc q' = normal
    /\ indexes q' = indexes q
    /\ err q' = err q
    /\ partial q' = true.
Proof.
  intros Hm Hcs.
  destruct (modeAfter_run opt cs0 normal Hm) as [q [E [Hf HI]]].
  destruct (isspace_special opt cs0 q E) as [_ Hdq].
  pose proof (Inv_top_normal q HI Hf) as Hst.
  set (q1 := setPartial (push q quoted) true).
  destruct (feed_quoted cs q1 eq_refl Hcs) as [q2 [E2 [B2 [S2 [F2 [P2 [I2 R2]]]]]]].
  exists q, (pop q2). split; [exact E |].
  split.
  - rewrite (run_app opt cs0 _ q E).
    change ([ch "034"] ++ cs ++ [ch "034"]) with (ch "034" :: (cs ++ [ch "034"])).
    simpl feed. unfold next at 1. rewrite Hf.
    unfold stateNormal. rewrite Hdq. simpl. fold q1.
    rewrite feed_app, E2. simpl. unfold next. rewrite F2. reflexivity.
  - unfold pop. rewrite S2. unfold q1 at 1, push; simpl. rewrite Hst; simpl.
    rewrite B2, I2, R2, P2. repeat split; reflexivity.
Qed.

(** A quoted span holding a space and [b], after [a]. *)
Lemma quoted_span_verbatim_witness :
  modeAfter zeroOptions [ch "a"] = Some normal
  /\ Forall (fun c => c <> ch "\" /\ c <> ch "034") [ch " "; ch "b"]
  /\ exists q q',
      run zeroOptions [ch "a"] = Some q
      /\ run zeroOptions ([ch "a"] ++ [ch "034"] ++ [ch " "; ch "b"] ++ [ch "034"])
         = Some q'
      /\ buf q' = (buf q ++ encodeRunes [ch " "; ch "b"])%string
      /\ states q' = states q
      /\ currentFunc q' = normal
      /\ indexes q' = indexes q
      /\ err q' = err q
      /\ partial q' = true.
Proof.
  assert (H : Forall (fun c => c <> ch "\" /\ c <> ch "034") [ch " "; ch "b"])
    by (repeat constructor; vm_compute; discriminate).
  split; [vm_compute; reflexivity |].
  split; [exact H |].
  apply (quoted_span_verbatim zeroOptions [ch "a"] [ch " "; ch "b"]);
    [vm_compute; reflexivity | exact H].
Defined.

(* ------------------------------------------------------------------ *)
(** ** The escapes of [fancyBackslash] *)

(** The quoter one backslash after a reachable [normal] or [quoted]
    state. *)
Lemma run_backslash opt cs q :
  run opt cs = Some q ->
  currentFunc q = normal \/ currentFunc q = quoted ->
  exists q1,
    run opt (cs ++ [ch "\"]) = Some q1
    /\ currentFunc q1 = backslash
    /\ states q1 = states q ++ [backslash]
    /\ buf q1 = buf q /\ indexes q1 = indexes q /\ err q1 = err q
    /\ partial q1 = true
    /\ parseHex q1 = parseHex q /\ hexValue q1 = hexValue q
    /\ pop q1 = setPartial q true.
Proof.
  intros E Hf.
  pose proof (run_Inv_inv opt cs q E) as HI.
  destruct (isspace_special opt cs q E) as [Hsp _].
  rewrite (run_snoc opt cs _ q E). unfold next.
  destruct Hf as [Hf|Hf]; rewrite Hf.
  - pose proof (Inv_top_normal q HI Hf) as Hst.
    eexists; split; [reflexivity |].
    unfold stateNormal. rewrite Hsp. unfold push, pop. simpl.
    rewrite Hst. simpl. repeat split; try reflexivity.
    unfold setPartial, setStack; simpl. rewrite <- Hst, <- Hf. reflexivity.
  - pose proof (Inv_top_quoted q HI Hf) as Hst.
    assert (Hp : partial q = true) by (apply (inv_partial q HI); congruence).
    eexists; split; [reflexivity |].
    unfold stateQuoted, push, pop. simpl.
    rewrite Hst. simpl. repeat split; try reflexivity; try assumption.
    unfold setPartial, setStack; simpl. rewrite <- Hst, <- Hf, <- Hp.
    reflexivity.
Qed.

Lemma enclosing_mode opt cs :
  modeAfter opt cs = Some normal \/ modeAfter opt cs = Some quoted ->
  exists q, run opt cs = Some q
            /\ (currentFunc q = normal \/ currentFunc q = quoted) /\ Inv q.
Proof.
  intros [Hm|Hm]; destruct (modeAfter_run opt cs _ Hm) as [q [E [Hf HI]]];
    exists q; auto.
Qed.

(** The quoter after a backslash and one more rune, under
    [FancyBackslash]: [fancyBackslash] runs on the quoter the backslash
    was met in, with a word in progress. *)
Lemma run_fancy_escape opt cs q c :
  FancyBackslash opt = true ->
  run opt cs = Some q ->
  currentFunc q = normal \/ currentFunc q = quoted ->
  exists q1,
    pop q1 = setPartial q true
    /\ run opt (cs ++ [ch "\"; c]) = Some (fancyBackslash q1 c).
Proof.
  intros Hopt E Hf.
  destruct (run_backslash opt cs q E Hf) as [q1 [E1 [Hf1 [_ [_ [_ [_ [_ [_ [_ Hpop]]]]]]]]]].
  destruct (run_config opt _ q1 E1) as [_ Hbs]. rewrite Hopt in Hbs.
  exists q1. split; [exact Hpop |].
  change (cs ++ [ch "\"; c]) with (cs ++ [ch "\"] ++ [c]).
  rewrite app_assoc, (run_snoc opt _ c q1 E1).
  unfold next. rewrite Hf1. unfold stateBackslash. rewrite Hbs. reflexivity.
Qed.

(** Under [FancyBackslash], a backslash followed by one of [a b f n r t
    v] writes the control character of that name, and followed by a
    backslash or a quote of either kind writes that character; nothing
    else changes, but that a word is in progress. *)
Theorem fancy_letter_escapes (opt : Options) (cs : list rune) (c v : rune) :
  FancyBackslash opt = true ->
  modeAfter opt cs = Some normal \/ modeAfter opt cs = Some quoted ->
  In (c, v) letterEscapes ->
  exists q q',
    run opt cs = Some q
    /\ run opt (cs ++ [ch "\"; c]) = Some q'
    /\ buf q' = (buf q ++ utf8.AppendRune v)%string
    /\ states q' = states q
    /\ currentFunc q' = currentFunc q
    /\ indexes q' = indexes q
    /\ err q' = err q
    /\ partial q' = true.
Proof.
  intros Hopt Hm Hin.
  destruct (enclosing_mode opt cs Hm) as [q [E [Hf HI]]].
  destruct (run_fancy_escape opt cs q c Hopt E Hf) as [q1 [Hpop E2]].
  exists q, (fancyBackslash q1 c).
  split; [exact E |]. split; [exact E2 |].
  unfold fancyBackslash. rewrite Hpop.
  unfold letterEscapes in Hin. simpl in Hin.
  repeat (destruct Hin as [Hin|Hin];
          [injection Hin as <- <-; repeat split; reflexivity |]).
  contradiction.
Qed.

(** The escape [\n] after [a]. *)
Lemma fancy_letter_escapes_witness :
  FancyBackslash fancyOptions = true
  /\ (modeAfter fancyOptions [ch "a"] = Some normal
      \/ modeAfter fancyOptions [ch "a"] = Some quoted)
  /\ In (ch "n", 10) letterEscapes
  /\ exists q q',
      run fancyOptions [ch "a"] = Some q
      /\ run fancyOptions ([ch "a"] ++ [ch "\"; ch "n"]) = Some q'
      /\ buf q' = (buf q ++ utf8.AppendRune 10)%string
      /\ states q' = states q
      /\ currentFunc q' = currentFunc q
      /\ indexes q' = indexes q
      /\ err q' = err q
      /\ partial q' = true.
Proof.
  assert (Hin : In (ch "n", 10) letterEscapes)
    by (vm_compute; do 3 right; left; reflexivity).
  split; [reflexivity |].
  split; [left; vm_compute; reflexivity |].
  split; [exact Hin |].
  apply (fancy_letter_escapes fancyOptions [ch "a"] (ch "n") 10);
    [reflexivity | left; vm_compute; reflexivity | exact Hin].
Defined.

Lemma fancyBackslash_other q c :
  isEscapeChar c = false ->
  fancyBackslash q c = WriteRune (setErr (pop q) (Some (invalidEscape c))) c.
Proof.
  unfold isEscapeChar, escapeChars. cbn [existsb]. intros H.
  repeat (apply orb_false_elim in H; destruct H as [?E H]).
  unfold fancyBackslash. cbv zeta.
  repeat match goal with
         | Hk : (c =? _) = false |- _ => rewrite Hk; clear Hk
         end.
  reflexivity.
Qed.

(** Under [FancyBackslash], a backslash followed by a character
    [fancyBackslash] has no case for records the error naming that
    character, whatever error was pending, and writes the character all
    the same; the stack, the state in charge and the boundaries are as
    before the backslash. *)
Theorem fancy_invalid_escape (opt : Options) (cs : list rune) (c : rune) :
  FancyBackslash opt = true ->
  modeAfter opt cs = Some normal \/ modeAfter opt cs = Some quoted ->
  isEscapeChar c = false ->
  exists q q',
    run opt cs = Some q
    /\ run opt (cs ++ [ch "\"; c]) = Some q'
    /\ buf q' = (buf q ++ utf8.AppendRune c)%string
    /\ err q' = Some (invalidEscape c)
    /\ states q' = states q
    /\ currentFunc q' = currentFunc q
    /\ indexes q' = indexes q
    /\ partial q' = true.
Proof.
  intros Hopt Hm Hc.
  destruct (enclosing_mode opt cs Hm) as [q [E [Hf HI]]].
  destruct (run_fancy_escape opt cs q c Hopt E Hf) as [q1 [Hpop E2]].
  exists q, (fancyBackslash q1 c).
  split; [exact E |]. split; [exact E2 |].
  rewrite (fancyBackslash_other q1 c Hc), Hpop.
  repeat split; reflexivity.
Qed.

(** The escape [\q] at the start of the input. *)
Lemma fancy_invalid_escape_witness :
  FancyBackslash fancyOptions = true
  /\ (modeAfter fancyOptions [] = Some normal
      \/ modeAfter fancyOptions [] = Some quoted)
  /\ isEscapeChar (ch "q") = false
  /\ exists q q',
      run fancyOptions [] = Some q
      /\ run fancyOptions ([] ++ [ch "\"; ch "q"]) = Some q'
      /\ buf q' = (buf q ++ utf8.AppendRune (ch "q"))%string
      /\ err q' = Some (invalidEscape (ch "q"))
      /\ states q' = states q
      /\ currentFunc q' = currentFunc q
      /\ indexes q' = indexes q
      /\ partial q' = true.
Proof.
  split; [reflexivity |].
  split; [left; vm_compute; reflexivity |].
  split; [vm_compute; reflexivity |].
  apply (fancy_invalid_escape fancyOptions [] (ch "q"));
    [reflexivity | left; vm_compute; reflexivity | vm_compute; reflexivity].
Defined.

(* ------------------------------------------------------------------ *)
(** ** Whole hex escapes *)

(** In [hex] state, as many hex digits as are still wanted complete the
    escape: the value folded from them is written and the stack is
    popped. *)
Lemma feed_hex_digits ds : forall vals q,
  Inv q -> currentFunc q = hex ->
  ds <> [] ->
  parseHex q = Z.of_nat (List.length ds) ->
  Forall2 hexDigitOf ds vals ->
  feed q ds
  = Some (pop (WriteRune (setHex q 0 (hexFold (hexValue q) vals))
                         (hexFold (hexValue q) vals))).
Proof.
  induction ds as [|d ds IH]; intros vals q HI Hf Hne Hn H2; [congruence |].
  inversion H2 as [|? v ? vals' [Hd Hv] Hrest]; subst.
  simpl feed. rewrite (next_hex_digit q d v HI Hf Hd Hv).
  destruct ds as [|d' ds'].
  - inversion Hrest; subst. simpl in Hn.
    rewrite (hexDigitStep_last q v Hn). reflexivity.
  - pose proof (inv_hex q HI Hf) as Hb.
    assert (Hmore : 1 < parseHex q <= 8) by (simpl List.length in Hn; lia).
    pose proof (Inv_hexDigitStep q v HI Hf) as HI'.
    rewrite (hexDigitStep_more q v Hmore) in *.
    rewrite (IH vals' _ HI' Hf ltac:(discriminate)
               ltac:(simpl parseHex; simpl List.length in *; lia) Hrest).
    reflexivity.
Qed.

Lemma Forall2_hexDigitOf_range ds vals :
  Forall2 hexDigitOf ds vals -> Forall (fun v => 0 <= v <= 15) vals.
Proof.
  induction 1 as [|d v ds vals [Hd Hv] _ IH]; constructor; [| exact IH].
  apply (isHexDigit_true d v Hd Hv).
Qed.

(** Digits that cannot reach 2^31 are folded without wrap-around. *)
Lemma hexFold_small vals : forall v,
  Forall (fun d => 0 <= d <= 15) vals ->
  0 <= v -> (v + 1) * 16 ^ Z.of_nat (List.length vals) <= 2 ^ 31 ->
  hexFold v vals = fold_left (fun a d => a * 16 + d) vals v.
Proof.
  induction vals as [|d vals IH]; intros v Hr Hv Hb; [reflexivity |].
  inversion Hr as [|? ? Hd Hr']; subst.
  unfold hexFold in *. simpl fold_left.
  change (List.length (d :: vals)) with (S (List.length vals)) in Hb.
  rewrite Nat2Z.inj_succ, Z.pow_succ_r in Hb by lia.
  assert (Hp : 0 < 16 ^ Z.of_nat (List.length vals))
    by (apply Z.pow_pos_nonneg; lia).
  assert (Hstep : (v * 16 + d + 1) * 16 ^ Z.of_nat (List.length vals) <= 2 ^ 31)
    by nia.
  rewrite wrap32_small by nia.
  apply IH; [exact Hr' | lia | exact Hstep].
Qed.

(** Under [FancyBackslash], a backslash, one of [x], [u], [U] and the two,
    four or eight hex digits it wants write the one rune whose value the
    digits spell (folded with the wrap-around of [int32], which eight
    digits can reach), and leave the stack, the state in charge, the
    boundaries and the error as they were before the backslash, with a
    word in progress. *)
Theorem hex_escape_complete (opt : Options) (cs : list rune)
    (c : rune) (n : Z) (ds : list rune) (vals : list Z) :
  FancyBackslash opt = true ->
  modeAfter opt cs = Some normal \/ modeAfter opt cs = Some quoted ->
  In (c, n) hexEscapes ->
  Z.of_nat (List.length ds) = n ->
  Forall2 hexDigitOf ds vals ->
  exists q q',
    run opt cs = Some q
    /\ run opt (cs ++ [ch "\"; c] ++ ds) = Some q'
    /\ buf q' = (buf q ++ utf8.AppendRune (hexFold 0 vals))%string
    /\ states q' = states q
    /\ currentFunc q' = currentFunc q
    /\ indexes q' = indexes q
    /\ err q' = err q
    /\ partial q' = true
    /\ (if n <? 8
        then hexFold 0 vals = fold_left (fun a d => a * 16 + d) vals 0
        else True).
Proof.
  intros Hopt Hm Hin Hlen H2.
  destruct (enclosing_mode opt cs Hm) as [q [E [Hf HI]]].
  destruct (run_fancy_escape opt cs q c Hopt E Hf) as [q1 [Hpop E2]].
  assert (Hq2 : fancyBackslash q1 c = startHex (setPartial q true) n).
  { unfold fancyBackslash. rewrite Hpop.
    unfold hexEscapes in Hin. simpl in Hin.
    repeat (destruct Hin as [Hin|Hin]; [injection Hin as <- <-; reflexivity |]).
    contradiction. }
  rewrite Hq2 in E2.
  set (q2 := startHex (setPartial q true) n) in *.
  pose proof (run_Inv_inv opt _ q2 E2) as HI2.
  assert (Hn : n = 2 \/ n = 4 \/ n = 8).
  { unfold hexEscapes in Hin. simpl in Hin.
    repeat (destruct Hin as [Hin|Hin]; [injection Hin as _ <-; auto |]).
    contradiction. }
  assert (Hne : ds <> []) by (intros ->; simpl in Hlen; lia).
  pose proof (feed_hex_digits ds vals q2 HI2 eq_refl Hne
                ltac:(simpl; lia) H2) as E3.
  exists q. eexists. split; [exact E |].
  split.
  { rewrite app_assoc, (run_app opt _ ds q2 E2). exact E3. }
  pose proof (Inv_enclosing q HI Hf) as Hst.
  pose proof (inv_current q HI) as Hcur.
  assert (Hfold : if n <? 8
                  then hexFold 0 vals = fold_left (fun a d => a * 16 + d) vals 0
                  else True).
  { destruct (n <? 8) eqn:E8; [| exact I].
    apply hexFold_small; [apply (Forall2_hexDigitOf_range ds vals H2) | lia |].
    rewrite <- (Forall2_length H2), Hlen.
    apply Z.ltb_lt in E8.
    destruct Hn as [-> | [-> | ->]]; [vm_compute; discriminate
                                 | vm_compute; discriminate | lia]. }
  unfold q2, startHex, pop, push; simpl.
  destruct Hst as [Hst|Hst]; rewrite Hst in *; simpl in *;
    injection Hcur as <-; repeat split; auto.
Qed.

(** The escape [\u2603]. *)
Lemma hex_escape_complete_witness :
  FancyBackslash fancyOptions = true
  /\ (modeAfter fancyOptions [] = Some normal
      \/ modeAfter fancyOptions [] = Some quoted)
  /\ In (ch "u", 4) hexEscapes
  /\ Z.of_nat (List.length [ch "2"; ch "6"; ch "0"; ch "3"]) = 4
  /\ Forall2 hexDigitOf [ch "2"; ch "6"; ch "0"; ch "3"] [2; 6; 0; 3]
  /\ exists q q',
      run fancyOptions [] = Some q
      /\ run fancyOptions
           ([] ++ [ch "\"; ch "u"] ++ [ch "2"; ch "6"; ch "0"; ch "3"])
         = Some q'
      /\ buf q' = (buf q ++ utf8.AppendRune (hexFold 0 [2; 6; 0; 3]))%string
      /\ states q' = states q
      /\ currentFunc q' = currentFunc q
      /\ indexes q' = indexes q
      /\ err q' = err q
      /\ partial q' = true
      /\ (if 4 <? 8
          then hexFold 0 [2; 6; 0; 3]
               = fold_left (fun a d => a * 16 + d) [2; 6; 0; 3] 0
          else True).
Proof.
  assert (Hin : In (ch "u", 4) hexEscapes) by (right; left; reflexivity).
  assert (H2 : Forall2 hexDigitOf [ch "2"; ch "6"; ch "0"; ch "3"] [2; 6; 0; 3])
    by (repeat constructor; vm_compute; reflexivity).
  split; [reflexivity |].
  split; [left; vm_compute; reflexivity |].
  split; [exact Hin |].
  split; [reflexivity |].
  split; [exact H2 |].
  apply (hex_escape_complete fancyOptions [] (ch "u") 4
           [ch "2"; ch "6"; ch "0"; ch "3"] [2; 6; 0; 3]);
    [reflexivity | left; vm_compute; reflexivity | exact Hin | reflexivity
     | exact H2].
Defined.

(* ------------------------------------------------------------------ *)
(** ** Slices of the buffer *)

Lemma substring_append_l (a b : string) : forall n m,
  (n + m <= String.length a)%nat ->
  substring n m (a ++ b) = substring n m a.
Proof.
  induction a as [|x a IH]; intros n m H; simpl in H.
  - assert (n = 0%nat) by lia. assert (m = 0%nat) by lia. subst.
    simpl. destruct b; reflexivity.
  - destruct n as [|n]; simpl.
    + destruct m as [|m]; [reflexivity |].
      f_equal. apply (IH 0%nat m). lia.
    + apply IH. lia.
Qed.

Lemma substring_append_r (a b : string) : forall n m,
  substring (String.length a + n) m (a ++ b) = substring n m b.
Proof.
  induction a as [|x a IH]; intros n m; simpl; [reflexivity | apply IH].
Qed.

Lemma substring_all (s : string) : substring 0 (String.length s) s = s.
Proof. induction s as [|x s IH]; simpl; [reflexivity | now rewrite IH]. Qed.

Lemma substring_cat (s : string) : forall n m k,
  (n + m + k <= String.length s)%nat ->
  (substring n m s ++ substring (n + m) k s)%string = substring n (m + k) s.
Proof.
  induction s as [|x s IH]; intros n m k H; simpl in H.
  - assert (n = 0%nat) by lia. assert (m = 0%nat) by lia.
    assert (k = 0%nat) by lia. subst. reflexivity.
  - destruct n as [|n].
    + destruct m as [|m]; simpl.
      * reflexivity.
      * f_equal. apply (IH 0%nat m k). lia.
    + simpl. apply IH. lia.
Qed.

Lemma slice_Some s lo hi w :
  slice s lo hi = Some w ->
  0 <= lo /\ lo <= hi /\ hi <= Z.of_nat (String.length s)
  /\ w = substring (Z.to_nat lo) (Z.to_nat (hi - lo)) s.
Proof.
  unfold slice.
  destruct ((0 <=? lo) && (lo <=? hi) && (hi <=? Z.of_nat (String.length s)))
    eqn:E; [| discriminate].
  rewrite !andb_true_iff, !Z.leb_le in E.
  intros H. injection H as <-. intuition.
Qed.

Lemma slice_append_l a b lo hi w :
  slice a lo hi = Some w -> slice (a ++ b) lo hi = Some w.
Proof.
  intros H. destruct (slice_Some a lo hi w H) as [H0 [H1 [H2 ->]]].
  unfold slice.
  replace ((0 <=? lo) && (lo <=? hi)
           && (hi <=? Z.of_nat (String.length (a ++ b)))) with true.
  - rewrite substring_append_l by lia. reflexivity.
  - symmetry. rewrite !andb_true_iff, !Z.leb_le, length_append. lia.
Qed.

Lemma slice_shift a b lo hi :
  0 <= lo ->
  slice (a ++ b) (Z.of_nat (String.length a) + lo)
                 (Z.of_nat (String.length a) + hi)
  = slice b lo hi.
Proof.
  intros H0. unfold slice. rewrite length_append.
  set (la := Z.of_nat (String.length a)).
  assert (Hla : 0 <= la) by (unfold la; lia).
  replace ((0 <=? la + lo) && (la + lo <=? la + hi)
           && (la + hi <=? Z.of_nat (String.length a + String.length b)))
    with ((0 <=? lo) && (lo <=? hi) && (hi <=? Z.of_nat (String.length b))).
  - destruct ((0 <=? lo) && (lo <=? hi)
              && (hi <=? Z.of_nat (String.length b))); [| reflexivity].
    replace (la + hi - (la + lo)) with (hi - lo) by lia.
    replace (Z.to_nat (la + lo)) with (String.length a + Z.to_nat lo)%nat
      by (unfold la; lia).
    rewrite substring_append_r. reflexivity.
  - apply eq_true_iff_eq.
    rewrite !andb_true_iff, !Z.leb_le. unfold la. lia.
Qed.

Lemma sliceWords_append_l a b ix : forall prev ws,
  sliceWords a prev ix = Some ws -> sliceWords (a ++ b) prev ix = Some ws.
Proof.
  induction ix as [|i ix IH]; intros prev ws H; simpl in *; [exact H |].
  destruct (slice a prev i) as [w|] eqn:Es; [| discriminate].
  destruct (sliceWords a i ix) as [ws'|] eqn:Ew; [| discriminate].
  rewrite (slice_append_l a b prev i w Es), (IH i ws' Ew). exact H.
Qed.

Lemma sliceWords_shift a b ix : forall prev,
  0 <= prev ->
  sliceWords (a ++ b) (Z.of_nat (String.length a) + prev)
             (map (Z.add (Z.of_nat (String.length a))) ix)
  = sliceWords b prev ix.
Proof.
  induction ix as [|i ix IH]; intros prev Hp; simpl; [reflexivity |].
  rewrite slice_shift by exact Hp.
  destruct (slice b prev i) as [w|] eqn:Es; [| reflexivity].
  destruct (slice_Some b prev i w Es) as [_ [Hle _]].
  rewrite IH by lia. reflexivity.
Qed.

Lemma last_cons (i : Z) l : forall d, last (i :: l) d = last l i.
Proof.
  revert i. induction l as [|j l IH]; intros i d; [reflexivity |].
  change (last (i :: j :: l) d) with (last (j :: l) d).
  rewrite (IH j d), (IH j i). reflexivity.
Qed.

Lemma sliceWords_app s ix1 : forall prev ix2,
  sliceWords s prev (ix1 ++ ix2)
  = match sliceWords s prev ix1 with
    | Some w1 =>
        match sliceWords s (last ix1 prev) ix2 with
        | Some w2 => Some (w1 ++ w2)
        | None => None
        end
    | None => None
    end.
Proof.
  induction ix1 as [|i ix1 IH]; intros prev ix2.
  - simpl. destruct (sliceWords s prev ix2); reflexivity.
  - change (sliceWords s prev ((i :: ix1) ++ ix2))
      with (match slice s prev i, sliceWords s i (ix1 ++ ix2) with
            | Some w, Some ws => Some (w :: ws)
            | _, _ => None
            end).
    rewrite IH, last_cons. simpl sliceWords.
    destruct (slice s prev i); [| reflexivity].
    destruct (sliceWords s i ix1); [| reflexivity].
    destruct (sliceWords s (last ix1 i) ix2); reflexivity.
Qed.

(** The words sliced at [ix] from [prev] on, put together again, are the
    buffer from [prev] to the last boundary. *)
Lemma catWords_sliceWords s ix : forall prev ws,
  sliceWords s prev ix = Some ws ->
  0 <= prev <= Z.of_nat (String.length s) ->
  prev <= last ix prev <= Z.of_nat (String.length s)
  /\ catWords ws
     = substring (Z.to_nat prev) (Z.to_nat (last ix prev - prev)) s.
Proof.
  induction ix as [|i ix IH]; intros prev ws H Hp; simpl in H.
  - injection H as <-. simpl. rewrite Z.sub_diag. simpl.
    split; [lia |]. rewrite substring_zero. reflexivity.
  - destruct (slice s prev i) as [w|] eqn:Es; [| discriminate].
    destruct (sliceWords s i ix) as [ws'|] eqn:Ew; [| discriminate].
    injection H as <-.
    destruct (slice_Some s prev i w Es) as [H0 [H1 [H2 ->]]].
    destruct (IH i ws' Ew ltac:(lia)) as [Hl Hc].
    rewrite last_cons.
    split; [lia |].
    simpl catWords. rewrite Hc.
    replace (Z.to_nat i) with (Z.to_nat prev + Z.to_nat (i - prev))%nat by lia.
    rewrite substring_cat by lia.
    f_equal. lia.
Qed.

(* ------------------------------------------------------------------ *)
(** ** The words and the buffer *)

(** The words [Split] returns, put together again, are the whole buffer:
    every byte written while scanning is in exactly one word, in the
    order it was written. *)
Theorem words_partition_buffer (s : string) (qopt : option Options) :
  exists q qe words e,
    run (optionsOf qopt) (utf8.rangeRunes s) = Some q
    /\ endQuoter q = Some qe
    /\ Split s qopt = Some (words, e)
    /\ catWords words = buf qe.
Proof.
  destruct (run_Inv (optionsOf qopt) (utf8.rangeRunes s) (rangeRunes_nonneg s))
    as [q [E HI]].
  destruct (finish_Inv q HI) as [qe [ws [Ee [Hws [_ F]]]]].
  destruct (endQuoter_Inv q HI) as [q3 [E3 [_ [Hbuf [Hix _]]]]].
  rewrite Ee in E3. injection E3 as <-.
  exists q, qe, ws, (err qe).
  split; [exact E |]. split; [exact Ee |].
  split; [unfold Split; rewrite E; exact F |].
  destruct (catWords_sliceWords (buf qe) (indexes qe) 0 ws Hws
              ltac:(lia)) as [_ Hc].
  rewrite Hc.
  assert (Hlast : last (indexes qe) 0 = bufLen qe).
  { rewrite Hix. destruct (partial q) eqn:Hp; [apply last_last |].
    rewrite (inv_fresh q HI Hp).
    assert (Hf : currentFunc q = normal).
    { destruct (currentFunc q) eqn:Hf; [reflexivity | | |];
        pose proof (inv_partial q HI ltac:(congruence)); congruence. }
    rewrite Hf in Hbuf. unfold bufLen. rewrite Hbuf. reflexivity. }
  rewrite Hlast, Z.sub_0_r. unfold bufLen. rewrite Nat2Z.id.
  apply substring_all.
Qed.

(* ------------------------------------------------------------------ *)
(** ** Completed words are never revised *)

Lemma extends_refl q : extends q q.
Proof.
  split; [exists EmptyString; symmetry; apply append_nil_r
         | exists []; symmetry; apply app_nil_r].
Qed.

Lemma extends_trans q1 q2 q3 : extends q1 q2 -> extends q2 q3 -> extends q1 q3.
Proof.
  intros [[x Hx] [m Hm]] [[y Hy] [n Hn]]. split.
  - exists (x ++ y)%string. rewrite Hy, Hx. apply append_assoc.
  - exists (m ++ n). rewrite Hn, Hm. symmetry. apply app_assoc.
Qed.

Lemma extends_same q q' :
  buf q' = buf q -> indexes q' = indexes q -> extends q q'.
Proof.
  intros Hb Hi. split; [exists EmptyString; rewrite Hb; symmetry; apply append_nil_r
                       | exists []; rewrite Hi; symmetry; apply app_nil_r].
Qed.

Lemma extends_WriteRune q r : extends q (WriteRune q r).
Proof.
  split; [exists (utf8.AppendRune r); reflexivity
         | exists []; symmetry; apply app_nil_r].
Qed.

Lemma extends_pop q : extends q (pop q).
Proof. apply extends_same; unfold pop; break_ifs; reflexivity. Qed.

Lemma extends_newWord q : extends q (newWord q).
Proof.
  unfold newWord. destruct (negb (partial q)); [apply extends_refl |].
  split; [exists EmptyString; symmetry; apply append_nil_r
         | exists [bufLen q]; reflexivity].
Qed.

Lemma extends_stateNormal q c : extends q (stateNormal q c).
Proof.
  unfold stateNormal. destruct (isspace q c); [apply extends_newWord |].
  break_ifs; try (apply extends_same; reflexivity).
  apply (extends_trans _ (WriteRune q c));
    [apply extends_WriteRune | apply extends_same; reflexivity].
Qed.

Lemma extends_stateQuoted q c : extends q (stateQuoted q c).
Proof.
  unfold stateQuoted. break_ifs;
    [apply extends_same; reflexivity | apply extends_pop
     | apply extends_WriteRune].
Qed.

Lemma extends_stateBackslash q c : extends q (stateBackslash q c).
Proof.
  unfold stateBackslash. destruct (backslashF q).
  - unfold simpleBackslash.
    apply (extends_trans _ (WriteRune q c));
      [apply extends_WriteRune | apply extends_pop].
  - apply (extends_trans _ (pop q)); [apply extends_pop |].
    unfold fancyBackslash. generalize (pop q). intros p.
    break_ifs; try (apply extends_same; reflexivity);
      try apply extends_WriteRune.
    apply (extends_trans _ (setErr p (Some (invalidEscape c))));
      [apply extends_same; reflexivity | apply extends_WriteRune].
Qed.

Lemma Step_extends q c q' : Step q c q' -> extends q q'.
Proof.
  destruct 1.
  - apply extends_stateNormal.
  - apply extends_stateQuoted.
  - apply extends_stateBackslash.
  - unfold hexDigitStep. cbv zeta. break_ifs.
    + eapply extends_trans; [| apply extends_pop].
      eapply extends_trans; [| apply extends_WriteRune].
      apply extends_same; reflexivity.
    + apply extends_same; reflexivity.
  - eapply extends_trans; [| apply extends_stateNormal].
    eapply extends_trans; [apply extends_WriteRune | apply extends_pop].
  - eapply extends_trans; [| apply extends_stateQuoted].
    eapply extends_trans; [apply extends_WriteRune | apply extends_pop].
Qed.

Lemma Step_Inv q c q' : Inv q -> Step q c q' -> Inv q'.
Proof.
  intros HI St.
  destruct St as [Hf|Hf|Hf|val Hf Hd Hv|Hf Hd Hb|Hf Hd Hb].
  - apply Inv_stateNormal; assumption.
  - apply Inv_stateQuoted; assumption.
  - apply Inv_stateBackslash; assumption.
  - apply Inv_hexDigitStep; assumption.
  - apply Inv_stateNormal; [apply (Inv_hex_back q HI Hf) | exact Hb].
  - apply Inv_stateQuoted; [apply (Inv_hex_back q HI Hf) | exact Hb].
Qed.

Lemma feed_extends cs : forall q q',
  Inv q -> feed q cs = Some q' -> extends q q'.
Proof.
  induction cs as [|c cs IH]; intros q q' HI H; simpl in H.
  - injection H as <-. apply extends_refl.
  - destruct (next q c) as [q1|] eqn:E1; [| discriminate].
    pose proof (next_Step q c q1 HI E1) as St.
    apply (extends_trans _ q1); [apply (Step_extends q c q1 St) |].
    apply IH; [apply (Step_Inv q c q1 HI St) | exact H].
Qed.

Lemma endQuoter_extends q qe : endQuoter q = Some qe -> extends q qe.
Proof.
  unfold endQuoter, atEnd. intros H.
  destruct (top (states q)) as [[| | |]|]; try discriminate;
    injection H as <-;
    (eapply extends_trans; [| apply extends_newWord]);
    try apply extends_refl; try (apply extends_same; reflexivity).
  apply (extends_trans _ (WriteRune q (ch "\")));
    [apply extends_WriteRune | apply extends_same; reflexivity].
Qed.

(** The words completed after any number of iterations of the loop are
    the first words of the result: what follows in the input adds words
    after them and changes none of them. *)
Theorem completed_words_are_final (opt : Options) (s : string) (n : nat) :
  exists q done words e rest,
    stepsOf opt s n = Some q
    /\ sliceWords (buf q) 0 (indexes q) = Some done
    /\ Split s (Some opt) = Some (words, e)
    /\ words = done ++ rest.
Proof.
  destruct (stepsOf_Inv opt s n) as [q [E HI]].
  pose proof (rangeRunes_nonneg s) as Hnn.
  rewrite <- (firstn_skipn n (utf8.rangeRunes s)) in Hnn.
  apply Forall_app in Hnn. destruct Hnn as [_ Hrest].
  destruct (feed_Inv _ q HI Hrest) as [q1 [E1 HI1]].
  destruct (finish_Inv q1 HI1) as [qe [ws [Ee [Hws [_ F]]]]].
  assert (Hrun : run opt (utf8.rangeRunes s) = Some q1).
  { rewrite <- (firstn_skipn n (utf8.rangeRunes s)).
    unfold stepsOf in E. rewrite (run_app opt _ _ q E). exact E1. }
  destruct (sliceWords_total (buf q) (indexes q) 0 ltac:(lia)
              (inv_sorted q HI) (inv_within q HI)) as [done [Hd _]].
  assert (Hext : extends q qe).
  { apply (extends_trans _ q1);
      [apply (feed_extends _ q q1 HI E1) | apply endQuoter_extends; exact Ee]. }
  destruct Hext as [[x Hx] [more Hm]].
  rewrite Hx, Hm, sliceWords_app in Hws.
  rewrite (sliceWords_append_l (buf q) x (indexes q) 0 done Hd) in Hws.
  destruct (sliceWords (buf q ++ x) (last (indexes q) 0) more) as [rest|];
    [| discriminate].
  injection Hws as Hws.
  exists q, done, ws, (err qe), rest.
  split; [exact E |]. split; [exact Hd |].
  split; [unfold Split; simpl; rewrite Hrun; exact F | congruence].
Qed.

(* ------------------------------------------------------------------ *)
(** ** Starting after a completed word *)

Section Shifted.

Variables (b : string) (ix : list Z) (e0 : option Error).

Ltac sh_intro :=
  intros [Hst [Hcf [Hpa [Hsp [Hbs [Hbuf [Hix [Herr Hhex]]]]]]]].

Ltac sh_split :=
  unfold shifted; simpl;
  repeat match goal with |- _ /\ _ => split end.

Lemma shifted_WriteRune q q' r : shifted b ix e0 q q' -> shifted b ix e0 (WriteRune q r) (WriteRune q' r).
Proof.
  sh_intro. sh_split; auto.
  rewrite Hbuf. apply append_assoc.
Qed.

Lemma shifted_setPartial q q' p : shifted b ix e0 q q' -> shifted b ix e0 (setPartial q p) (setPartial q' p).
Proof. sh_intro. sh_split; auto. Qed.

Lemma shifted_setErr q q' e :
  shifted b ix e0 q q' -> shifted b ix e0 (setErr q (Some e)) (setErr q' (Some e)).
Proof. sh_intro. sh_split; auto. Qed.

Lemma shifted_push q q' s :
  s <> hex -> shifted b ix e0 q q' -> shifted b ix e0 (push q s) (push q' s).
Proof.
  intros Hs. sh_intro. unfold push. rewrite Hst.
  sh_split; auto. intros; contradiction.
Qed.

Lemma shifted_startHex q q' n : shifted b ix e0 q q' -> shifted b ix e0 (startHex q n) (startHex q' n).
Proof.
  sh_intro. unfold startHex, push. simpl. rewrite Hst.
  sh_split; auto.
Qed.

Lemma shifted_pop q q' :
  currentFunc (pop q) <> hex -> shifted b ix e0 q q' -> shifted b ix e0 (pop q) (pop q').
Proof.
  intros Hne. sh_intro. revert Hne. unfold pop. rewrite Hst.
  destruct (1 <? Z.of_nat (List.length (states q))); simpl; intros Hne.
  - sh_split; auto. intros; contradiction.
  - sh_split; auto.
Qed.

Lemma shifted_bufLen q q' :
  shifted b ix e0 q q' -> bufLen q' = Z.of_nat (String.length b) + bufLen q.
Proof. sh_intro. unfold bufLen. rewrite Hbuf, length_append. lia. Qed.

Lemma shifted_newWord q q' : shifted b ix e0 q q' -> shifted b ix e0 (newWord q) (newWord q').
Proof.
  intros H. pose proof (shifted_bufLen q q' H) as Hlen. revert H.
  sh_intro. unfold newWord. rewrite Hpa.
  destruct (negb (partial q)); [sh_split; auto |].
  sh_split; auto.
  rewrite Hix, Hlen, map_app, app_assoc. reflexivity.
Qed.

Lemma shifted_stateNormal q q' c :
  shifted b ix e0 q q' -> shifted b ix e0 (stateNormal q c) (stateNormal q' c).
Proof.
  intros H. unfold stateNormal.
  replace (isspace q' c) with (isspace q c)
    by (destruct H as [_ [_ [_ [Hsp _]]]]; rewrite Hsp; reflexivity).
  destruct (isspace q c); [apply shifted_newWord; exact H |].
  apply shifted_setPartial.
  break_ifs; [apply shifted_push; [discriminate | exact H]
             | apply shifted_push; [discriminate | exact H]
             | apply shifted_WriteRune; exact H].
Qed.

Lemma shifted_stateQuoted q q' c :
  currentFunc (pop q) <> hex ->
  shifted b ix e0 q q' -> shifted b ix e0 (stateQuoted q c) (stateQuoted q' c).
Proof.
  intros Hne H. unfold stateQuoted.
  break_ifs; [apply shifted_push; [discriminate | exact H]
             | apply shifted_pop; assumption
             | apply shifted_WriteRune; exact H].
Qed.

Lemma currentFunc_pop_WriteRune q r :
  currentFunc (pop (WriteRune q r)) = currentFunc (pop q).
Proof. unfold pop; simpl. break_ifs; reflexivity. Qed.

Lemma shifted_stateBackslash q q' c :
  currentFunc (pop q) <> hex ->
  shifted b ix e0 q q' -> shifted b ix e0 (stateBackslash q c) (stateBackslash q' c).
Proof.
  intros Hne H. unfold stateBackslash.
  replace (backslashF q') with (backslashF q)
    by (destruct H as [_ [_ [_ [_ [Hbs _]]]]]; rewrite Hbs; reflexivity).
  destruct (backslashF q).
  - unfold simpleBackslash. apply shifted_pop.
    + rewrite currentFunc_pop_WriteRune. exact Hne.
    + apply shifted_WriteRune; exact H.
  - unfold fancyBackslash.
    pose proof (shifted_pop q q' Hne H) as Hp.
    revert Hp. generalize (pop q) (pop q'). intros p p' Hp.
    break_ifs; try (apply shifted_startHex; exact Hp);
      try (apply shifted_WriteRune; exact Hp).
    apply shifted_WriteRune, shifted_setErr. exact Hp.
Qed.

Lemma shifted_hexDigitStep q q' v :
  currentFunc q = hex ->
  currentFunc (pop q) <> hex ->
  shifted b ix e0 q q' -> shifted b ix e0 (hexDigitStep q v) (hexDigitStep q' v).
Proof.
  intros Hf Hne H.
  assert (Hv : parseHex q' = parseHex q /\ hexValue q' = hexValue q)
    by (apply H; exact Hf).
  destruct Hv as [Hn Hv].
  unfold hexDigitStep. cbv zeta. simpl. rewrite Hn, Hv.
  assert (H1 : shifted b ix e0 (setHex q (wrap64 (parseHex q - 1))
                          (wrap32 (hexValue q * 16 + v)))
                  (setHex q' (wrap64 (parseHex q - 1))
                          (wrap32 (hexValue q * 16 + v)))).
  { revert H. sh_intro. sh_split; auto. }
  destruct (wrap64 (parseHex q - 1) =? 0); [| exact H1].
  apply shifted_pop; [| apply shifted_WriteRune; exact H1].
  rewrite currentFunc_pop_WriteRune.
  intros Hc. apply Hne. revert Hc. unfold pop; simpl. break_ifs; auto.
Qed.

Lemma pop_not_hex q : Inv q -> currentFunc (pop q) <> hex.
Proof.
  intros HI. pose proof (inv_shape q HI) as Hsh.
  pose proof (inv_current q HI) as Hcur.
  unfold pop.
  destruct Hsh as [H|[H|[H|[H|[H|H]]]]]; rewrite H in *; simpl in *;
    try discriminate.
  injection Hcur as <-. discriminate.
Qed.

Lemma shifted_currentFunc_pop q q' :
  shifted b ix e0 q q' -> currentFunc (pop q') = currentFunc (pop q).
Proof.
  sh_intro. unfold pop. rewrite Hst.
  destruct (1 <? Z.of_nat (List.length (states q))); simpl; auto.
Qed.

Lemma next_shifted q q' c q1 :
  Inv q -> shifted b ix e0 q q' -> next q c = Some q1 ->
  exists q1', next q' c = Some q1' /\ shifted b ix e0 q1 q1'.
Proof.
  intros HI H E1.
  pose proof (pop_not_hex q HI) as Hne.
  assert (Hcf : currentFunc q' = currentFunc q) by apply H.
  unfold next in *. rewrite Hcf.
  destruct (currentFunc q) eqn:Hf.
  - injection E1 as <-. eexists; split; [reflexivity |].
    apply shifted_stateNormal; exact H.
  - injection E1 as <-. eexists; split; [reflexivity |].
    apply shifted_stateQuoted; assumption.
  - injection E1 as <-. eexists; split; [reflexivity |].
    apply shifted_stateBackslash; assumption.
  - destruct (Inv_hex_back q HI Hf) as [HI1 Hf1].
    assert (Hv : parseHex q' = parseHex q /\ hexValue q' = hexValue q)
      by (apply H; exact Hf).
    destruct Hv as [_ Hv].
    assert (Hst : states q' = states q) by apply H.
    assert (H1 : shifted b ix e0 (pop (WriteRune q (hexValue q)))
                   (pop (WriteRune q' (hexValue q')))).
    { rewrite Hv. apply shifted_pop; [| apply shifted_WriteRune; exact H].
      rewrite currentFunc_pop_WriteRune. exact Hne. }
    assert (Hcf1 : currentFunc (pop (WriteRune q' (hexValue q')))
                   = currentFunc (pop (WriteRune q (hexValue q)))) by apply H1.
    rewrite stateHex_unfold in E1 by (destruct Hf1; congruence).
    rewrite stateHex_unfold by (rewrite Hcf1; destruct Hf1; congruence).
    cbv zeta in *. rewrite Hcf1.
    assert (Hback : forall r,
      match currentFunc (pop (WriteRune q (hexValue q))) with
      | normal => Some (stateNormal (pop (WriteRune q (hexValue q))) c)
      | quoted => Some (stateQuoted (pop (WriteRune q (hexValue q))) c)
      | backslash => Some (stateBackslash (pop (WriteRune q (hexValue q))) c)
      | hex => None
      end = Some r ->
      exists q1',
        match currentFunc (pop (WriteRune q (hexValue q))) with
        | normal => Some (stateNormal (pop (WriteRune q' (hexValue q'))) c)
        | quoted => Some (stateQuoted (pop (WriteRune q' (hexValue q'))) c)
        | backslash =>
            Some (stateBackslash (pop (WriteRune q' (hexValue q'))) c)
        | hex => None
        end = Some q1' /\ shifted b ix e0 r q1').
    { intros r Hr. destruct Hf1 as [E|E]; rewrite E in *; injection Hr as <-;
        (eexists; split; [reflexivity |]).
      - apply shifted_stateNormal; exact H1.
      - apply shifted_stateQuoted; [apply pop_not_hex; exact HI1 | exact H1]. }
    destruct (c <? 128); [| apply Hback; exact E1].
    destruct (hexDigits c) as [val|]; [| discriminate].
    destruct (negb (val =? -1)); [| apply Hback; exact E1].
    injection E1 as <-. eexists; split; [reflexivity |].
    apply shifted_hexDigitStep; assumption.
Qed.

Lemma feed_shifted cs : forall q q' q1,
  Inv q -> shifted b ix e0 q q' -> feed q cs = Some q1 ->
  exists q1', feed q' cs = Some q1' /\ shifted b ix e0 q1 q1' /\ Inv q1.
Proof.
  induction cs as [|c cs IH]; intros q q' q1 HI H E; simpl in *.
  - injection E as <-. eauto.
  - destruct (next q c) as [q2|] eqn:E2; [| discriminate].
    destruct (next_shifted q q' c q2 HI H E2) as [q2' [E2' H2]].
    rewrite E2'.
    apply (IH q2 q2' q1); [| exact H2 | exact E].
    apply (Step_Inv q c q2 HI). apply next_Step; assumption.
Qed.

Lemma endQuoter_shifted q q' qe :
  shifted b ix e0 q q' -> endQuoter q = Some qe ->
  exists qe', endQuoter q' = Some qe' /\ shifted b ix e0 qe qe'.
Proof.
  intros H E. unfold endQuoter, atEnd in *.
  replace (states q') with (states q) by (symmetry; apply H).
  destruct (top (states q)) as [[| | |]|]; try discriminate;
    injection E as <-; (eexists; split; [reflexivity |]);
    apply shifted_newWord; try exact H.
  - apply shifted_setErr; exact H.
  - apply shifted_setErr, shifted_WriteRune; exact H.
Qed.

Lemma finish_shifted q q' ws1 ws2 e2 :
  sliceWords b 0 ix = Some ws1 ->
  last ix 0 = Z.of_nat (String.length b) ->
  shifted b ix e0 q q' ->
  finish q = Some (ws2, e2) ->
  finish q' = Some (ws1 ++ ws2, match e2 with
                                | Some e => Some e
                                | None => e0
                                end).
Proof.
  intros Hw1 Hlast H F. unfold finish in *.
  destruct (endQuoter q) as [qe|] eqn:Ee; [| discriminate].
  destruct (endQuoter_shifted q q' qe H Ee) as [qe' [Ee' He]].
  rewrite Ee'.
  destruct (sliceWords (buf qe) 0 (indexes qe)) as [ws|] eqn:Ew; [| discriminate].
  injection F as <- <-.
  destruct He as [_ [_ [_ [_ [_ [Hbuf [Hix [Herr _]]]]]]]].
  rewrite Hbuf, Hix, sliceWords_app.
  rewrite (sliceWords_append_l b (buf qe) ix 0 ws1 Hw1).
  rewrite Hlast.
  replace (Z.of_nat (String.length b)) with (Z.of_nat (String.length b) + 0)
    at 1 by lia.
  rewrite sliceWords_shift by lia. rewrite Ew, Herr. reflexivity.
Qed.

End Shifted.

(** After an input that ends in [normal] state and one separator, [Split]
    goes on as on a fresh input: the runes after the separator give the
    words they give alone, after the words of what came before, and the
    error is theirs, or that of what came before when they raise none. *)
Lemma splitRunes_after_separator opt cs1 sp cs2 ws1 e1 ws2 e2 :
  modeAfter opt cs1 = Some normal ->
  isSpaceFor opt sp = true ->
  splitRunes opt cs1 = Some (ws1, e1) ->
  splitRunes opt cs2 = Some (ws2, e2) ->
  splitRunes opt (cs1 ++ sp :: cs2)
  = Some (ws1 ++ ws2, match e2 with
                      | Some e => Some e
                      | None => e1
                      end).
Proof.
  intros Hm Hsp S1 S2.
  destruct (modeAfter_run opt cs1 normal Hm) as [qa [Ea [Hfa HIa]]].
  unfold splitRunes in *. rewrite Ea in S1.
  destruct (run opt cs2) as [q2|] eqn:E2; [| discriminate].
  pose proof (Inv_top_normal qa HIa Hfa) as Hsta.
  assert (E0 : run opt (cs1 ++ [sp]) = Some (newWord qa)).
  { rewrite (run_snoc opt cs1 sp qa Ea). unfold next. rewrite Hfa.
    unfold stateNormal. rewrite (run_isspace opt cs1 qa Ea), Hsp. reflexivity. }
  pose proof (run_Inv_inv opt _ _ E0) as HI0.
  assert (Hend : endQuoter qa = Some (newWord qa)).
  { unfold endQuoter, atEnd. rewrite Hsta. reflexivity. }
  unfold finish in S1. rewrite Hend in S1.
  destruct (sliceWords (buf (newWord qa)) 0 (indexes (newWord qa)))
    as [ws|] eqn:Ew; [| discriminate].
  injection S1 as <- <-.
  assert (Hp0 : partial (newWord qa) = false)
    by (unfold newWord; destruct (partial qa) eqn:Hp; simpl; auto).
  assert (Hsh : shifted (buf (newWord qa)) (indexes (newWord qa))
                  (err (newWord qa)) (initQuoter opt) (newWord qa)).
  { destruct (run_config opt _ _ E0) as [A B].
    pose proof (inv_shape _ HI0) as Hshape.
    assert (Hst0 : states (newWord qa) = [normal])
      by (unfold newWord; destruct (negb (partial qa)); simpl; exact Hsta).
    assert (Hf0 : currentFunc (newWord qa) = normal)
      by (unfold newWord; destruct (negb (partial qa)); simpl; exact Hfa).
    unfold shifted. simpl.
    rewrite append_nil_r, app_nil_r.
    repeat split; auto; discriminate. }
  replace (cs1 ++ sp :: cs2) with ((cs1 ++ [sp]) ++ cs2)
    by (rewrite <- app_assoc; reflexivity).
  rewrite (run_app opt _ cs2 _ E0).
  destruct (feed_shifted _ _ _ cs2 (initQuoter opt) (newWord qa) q2
              (Inv_initQuoter opt) Hsh E2) as [q2' [E2' [H2 _]]].
  rewrite E2'.
  apply (finish_shifted _ _ _ q2 q2' ws ws2 e2 Ew); [| exact H2 | exact S2].
  unfold bufLen in *. apply (inv_fresh _ HI0 Hp0).
Qed.

(* ------------------------------------------------------------------ *)
(** ** ASCII input *)

Lemma first_ascii s0 : s0 < 128 -> utf8.first s0 = utf8.FAscii.
Proof.
  intros H. unfold utf8.first.
  destruct (s0 <? 128) eqn:E; [reflexivity | apply Z.ltb_ge in E; lia].
Qed.

Lemma first_lead s0 sz lo hi :
  utf8.first s0 = utf8.FLead sz lo hi -> 128 <= lo.
Proof.
  unfold utf8.first, utf8.locb, utf8.hicb.
  repeat match goal with
         | |- context [if ?c then _ else _] => destruct c
         end; intros H; try discriminate; injection H as <- <- <-; lia.
Qed.

Lemma rangeRunes_ascii_head a s :
  isAscii a = true -> utf8.rangeRunes (String a s) = byteVal a :: utf8.rangeRunes s.
Proof.
  intros H. apply Z.ltb_lt in H.
  rewrite rangeRunes_cons. cbv zeta. rewrite (first_ascii _ H). reflexivity.
Qed.

Lemma isCont_ascii a : isAscii a = true -> utf8.isCont (byteVal a) = false.
Proof.
  intros H. apply Z.ltb_lt in H. unfold utf8.isCont, utf8.locb.
  apply andb_false_iff. left. apply Z.leb_gt. lia.
Qed.

(** An ASCII character always starts a new rune: the runes of the bytes
    before it are those they give alone. *)
Lemma rangeRunes_app_ascii_upto n a s2 : forall s1,
  (String.length s1 <= n)%nat ->
  isAscii a = true ->
  utf8.rangeRunes (s1 ++ String a s2)
  = utf8.rangeRunes s1 ++ byteVal a :: utf8.rangeRunes s2.
Proof.
  induction n as [|n IH]; intros s1 Hlen Ha.
  - destruct s1; [| simpl in Hlen; lia]. simpl append.
    apply rangeRunes_ascii_head; exact Ha.
  - destruct s1 as [|a0 r0]; [apply rangeRunes_ascii_head; exact Ha |].
    assert (H0 : utf8.rangeRunes (r0 ++ String a s2)
                 = utf8.rangeRunes r0 ++ byteVal a :: utf8.rangeRunes s2)
      by (apply IH; [simpl in Hlen; lia | exact Ha]).
    change ((String a0 r0 ++ String a s2)%string)
      with (String a0 (r0 ++ String a s2)).
    rewrite !rangeRunes_cons. cbv zeta.
    destruct (utf8.first (byteVal a0)) as [| |sz lo hi] eqn:Ef;
      try (rewrite H0; reflexivity).
    pose proof (first_lead _ _ _ _ Ef) as Hlo.
    pose proof Ha as Ha'. apply Z.ltb_lt in Ha'.
    destruct r0 as [|a1 r1].
    { simpl append. cbv beta iota zeta.
      assert (Hc : (byteVal a <? lo) || (hi <? byteVal a) = true)
        by (apply orb_true_iff; left; apply Z.ltb_lt; lia).
      rewrite Hc.
      rewrite (rangeRunes_ascii_head a s2 Ha). reflexivity. }
    change ((String a1 r1 ++ String a s2)%string)
      with (String a1 (r1 ++ String a s2)) in *.
    cbv beta iota zeta.
    destruct ((byteVal a1 <? lo) || (hi <? byteVal a1));
      [rewrite H0; reflexivity |].
    assert (H1 : utf8.rangeRunes (r1 ++ String a s2)
                 = utf8.rangeRunes r1 ++ byteVal a :: utf8.rangeRunes s2)
      by (apply IH; [simpl in Hlen; lia | exact Ha]).
    destruct (sz <=? 2); [rewrite H1; reflexivity |].
    destruct r1 as [|a2 r2].
    { simpl append in *. cbv beta iota zeta. rewrite (isCont_ascii a Ha). simpl negb. cbv iota.
      rewrite H0. reflexivity. }
    change ((String a2 r2 ++ String a s2)%string)
      with (String a2 (r2 ++ String a s2)) in *.
    cbv beta iota zeta.
    destruct (negb (utf8.isCont (byteVal a2))); [rewrite H0; reflexivity |].
    assert (H2 : utf8.rangeRunes (r2 ++ String a s2)
                 = utf8.rangeRunes r2 ++ byteVal a :: utf8.rangeRunes s2)
      by (apply IH; [simpl in Hlen; lia | exact Ha]).
    destruct (sz <=? 3); [rewrite H2; reflexivity |].
    destruct r2 as [|a3 r3].
    { simpl append in *. cbv beta iota zeta. rewrite (isCont_ascii a Ha). simpl negb. cbv iota.
      rewrite H0. reflexivity. }
    change ((String a3 r3 ++ String a s2)%string)
      with (String a3 (r3 ++ String a s2)) in *.
    cbv beta iota zeta.
    destruct (negb (utf8.isCont (byteVal a3))); [rewrite H0; reflexivity |].
    rewrite (IH r3) by (simpl in Hlen; lia || exact Ha). reflexivity.
Qed.

Lemma rangeRunes_app_ascii s1 a s2 :
  isAscii a = true ->
  utf8.rangeRunes (s1 ++ String a s2)
  = utf8.rangeRunes s1 ++ byteVal a :: utf8.rangeRunes s2.
Proof. apply (rangeRunes_app_ascii_upto (String.length s1)). lia. Qed.

Lemma Split_splitRunes s opt :
  Split s (Some opt) = splitRunes opt (utf8.rangeRunes s).
Proof. reflexivity. Qed.

(** [Split] across one ASCII separator met in [normal] state. *)
Lemma split_over_separator (opt : Options) (s1 : string) (a : ascii)
    (s2 : string) :
  isAscii a = true ->
  isSpaceFor opt (byteVal a) = true ->
  modeAfter opt (utf8.rangeRunes s1) = Some normal ->
  exists ws1 e1 ws2 e2,
    Split s1 (Some opt) = Some (ws1, e1)
    /\ Split s2 (Some opt) = Some (ws2, e2)
    /\ Split (s1 ++ String a s2) (Some opt)
       = Some (ws1 ++ ws2, match e2 with
                           | Some e => Some e
                           | None => e1
                           end).
Proof.
  intros Ha Hsp Hm.
  destruct (Split_total s1 (Some opt)) as [ws1 [e1 S1]].
  destruct (Split_total s2 (Some opt)) as [ws2 [e2 S2]].
  exists ws1, e1, ws2, e2. split; [exact S1 |]. split; [exact S2 |].
  rewrite Split_splitRunes in *. rewrite (rangeRunes_app_ascii s1 a s2 Ha).
  apply splitRunes_after_separator; assumption.
Qed.

(** After an input that ends in [normal] state and one ASCII separator,
    [Split] goes on as on a fresh input: what follows the separator gives
    the words it gives alone, after the words of what came before; the
    error is that of what follows, or that of what came before when what
    follows raises none. *)
Theorem Split_after_separator (opt : Options) (s1 : string) (a : ascii)
    (s2 : string) :
  isAscii a = true ->
  isSpaceFor opt (byteVal a) = true ->
  modeAfter opt (utf8.rangeRunes s1) = Some normal ->
  exists ws1 e1 ws2 e2,
    Split s1 (Some opt) = Some (ws1, e1)
    /\ Split s2 (Some opt) = Some (ws2, e2)
    /\ Split (s1 ++ String a s2) (Some opt)
       = Some (ws1 ++ ws2, match e2 with
                           | Some e => Some e
                           | None => e1
                           end).
Proof.
  intros Ha Hsp Hm.
  destruct (Split_total s1 (Some opt)) as [ws1 [e1 S1]].
  destruct (Split_total s2 (Some opt)) as [ws2 [e2 S2]].
  exists ws1, e1, ws2, e2. split; [exact S1 |]. split; [exact S2 |].
  rewrite Split_splitRunes in *. rewrite (rangeRunes_app_ascii s1 a s2 Ha).
  apply splitRunes_after_separator; assumption.
Qed.

(** The inputs [a] and [b\] on either side of a space. *)
Lemma Split_after_separator_witness :
  isAscii " " = true
  /\ isSpaceFor zeroOptions (byteVal " ") = true
  /\ modeAfter zeroOptions (utf8.rangeRunes "a") = Some normal
  /\ exists ws1 e1 ws2 e2,
      Split "a" (Some zeroOptions) = Some (ws1, e1)
      /\ Split "b\" (Some zeroOptions) = Some (ws2, e2)
      /\ Split ("a" ++ String " " "b\") (Some zeroOptions)
         = Some (ws1 ++ ws2, match e2 with
                             | Some e => Some e
                             | None => e1
                             end).
Proof.
  do 3 (split; [vm_compute; reflexivity |]).
  apply (Split_after_separator zeroOptions "a" " " "b\");
    vm_compute; reflexivity.
Defined.

(* ------------------------------------------------------------------ *)
(** ** Round trips on ASCII text *)

Lemma byte_byteVal a : byte (byteVal a) = a.
Proof.
  unfold byte, byteVal.
  pose proof (N_ascii_bounded a) as Hb.
  rewrite Z.mod_small by lia.
  rewrite N2Z.id. apply ascii_N_embedding.
Qed.

Lemma AppendRune_ascii a :
  isAscii a = true -> utf8.AppendRune (byteVal a) = String a EmptyString.
Proof.
  intros H. apply Z.ltb_lt in H.
  pose proof (byteVal_nonneg a) as H0.
  unfold utf8.AppendRune, uint32, utf8.rune1Max. cbv zeta.
  rewrite Z.mod_small by lia.
  destruct (byteVal a <=? 127) eqn:E; [| apply Z.leb_gt in E; lia].
  rewrite byte_byteVal. reflexivity.
Qed.

Lemma rangeRunes_ascii s :
  forallb isAscii (list_ascii_of_string s) = true ->
  utf8.rangeRunes s = map byteVal (list_ascii_of_string s).
Proof.
  induction s as [|a s IH]; intros H; [reflexivity |].
  simpl in H. apply andb_prop in H. destruct H as [Ha Hs].
  rewrite (rangeRunes_ascii_head a s Ha), (IH Hs). reflexivity.
Qed.

Lemma encodeRunes_ascii s :
  forallb isAscii (list_ascii_of_string s) = true ->
  encodeRunes (map byteVal (list_ascii_of_string s)) = s.
Proof.
  induction s as [|a s IH]; intros H; [reflexivity |].
  simpl in H. apply andb_prop in H. destruct H as [Ha Hs].
  unfold encodeRunes in *. simpl. rewrite (AppendRune_ascii a Ha), (IH Hs).
  reflexivity.
Qed.

(** With one word in progress and no boundary recorded, on a stack of
    depth one, the end of [Split] returns the buffer as the only word. *)
Lemma finish_single q :
  states q = [normal] -> partial q = true -> indexes q = [] ->
  finish q = Some ([buf q], err q).
Proof.
  intros Hst Hp Hix. unfold finish, endQuoter, atEnd. rewrite Hst. simpl.
  unfold newWord. rewrite Hp, Hix. simpl.
  unfold slice, bufLen.
  replace ((0 <=? 0) && (0 <=? Z.of_nat (String.length (buf q)))
           && (Z.of_nat (String.length (buf q))
               <=? Z.of_nat (String.length (buf q)))) with true
    by (symmetry; rewrite !andb_true_iff, !Z.leb_le; lia).
  rewrite Z.sub_0_r, Nat2Z.id. simpl Z.to_nat. rewrite substring_all.
  reflexivity.
Qed.

(** A text of ASCII characters other than quote and backslash, put
    between quotes, is returned by [Split] as one word, spaces included
    and even when it is empty, without error. *)
Theorem quoted_text_round_trip (opt : Options) (w : string) :
  forallb quotableByte (list_ascii_of_string w) = true ->
  Split (dq ++ w ++ dq) (Some opt) = Some ([w], None).
Proof.
  intros Hw.
  assert (Hascii : forallb isAscii (list_ascii_of_string w) = true).
  { rewrite forallb_forall in *. intros a Hin.
    specialize (Hw a Hin). unfold quotableByte in Hw.
    rewrite !andb_true_iff in Hw. tauto. }
  assert (Hcs : Forall (fun c => c <> ch "\" /\ c <> ch "034")
                  (map byteVal (list_ascii_of_string w))).
  { apply Forall_map, Forall_forall. intros a Hin.
    rewrite forallb_forall in Hw. specialize (Hw a Hin).
    unfold quotableByte in Hw.
    rewrite !andb_true_iff, !negb_true_iff, !Z.eqb_neq in Hw. tauto. }
  assert (Hr : utf8.rangeRunes (dq ++ w ++ dq)
               = [ch "034"] ++ map byteVal (list_ascii_of_string w)
                 ++ [ch "034"]).
  { unfold dq. change (String "034" "" ++ w ++ String "034" "")%string
      with (String "034" (w ++ String "034" "")).
    rewrite (rangeRunes_ascii_head "034" _ eq_refl).
    rewrite (rangeRunes_app_ascii w "034" "" eq_refl).
    rewrite (rangeRunes_ascii w Hascii). reflexivity. }
  destruct (quoted_span_from_start opt _ Hcs)
    as [q' [E' [Hb [Hst [Hix [Herr Hp]]]]]].
  rewrite Split_splitRunes. unfold splitRunes. rewrite Hr.
  unfold rune in *. rewrite E'.
  rewrite (finish_single q' Hst Hp Hix), Hb, Herr.
  rewrite (encodeRunes_ascii w Hascii). reflexivity.
Qed.

(** The text [a  b], with its two spaces, between quotes. *)
Lemma quoted_text_round_trip_witness :
  forallb quotableByte (list_ascii_of_string "a  b") = true
  /\ Split (dq ++ "a  b" ++ dq) (Some zeroOptions) = Some (["a  b"%string], None).
Proof.
  split; [vm_compute; reflexivity |].
  apply (quoted_text_round_trip zeroOptions "a  b"). vm_compute; reflexivity.
Defined.

Lemma feed_plain cs : forall q,
  currentFunc q = normal ->
  Forall (fun c => isspace q c = false /\ c <> ch "\" /\ c <> ch "034") cs ->
  exists q',
    feed q cs = Some q'
    /\ buf q' = (buf q ++ encodeRunes cs)%string
    /\ states q' = states q /\ currentFunc q' = normal
    /\ indexes q' = indexes q /\ err q' = err q
    /\ partial q' = match cs with
                    | [] => partial q
                    | _ => true
                    end.
Proof.
  induction cs as [|c cs IH]; intros q Hf Hcs.
  - exists q. simpl. unfold encodeRunes. simpl. rewrite append_nil_r. auto 10.
  - inversion Hcs as [|? ? [Hsp [Hb Hq]] Hrest]; subst.
    simpl feed. unfold next. rewrite Hf.
    assert (Hs : stateNormal q c = setPartial (WriteRune q c) true).
    { unfold stateNormal. rewrite Hsp.
      destruct (c =? ch "\") eqn:E1; [apply Z.eqb_eq in E1; contradiction |].
      destruct (c =? ch "034") eqn:E2; [apply Z.eqb_eq in E2; contradiction |].
      reflexivity. }
    rewrite Hs.
    destruct (IH (setPartial (WriteRune q c) true) Hf Hrest)
      as [q' [E [B [S [F [I [R P]]]]]]].
    exists q'. split; [exact E |].
    split; [rewrite B; unfold encodeRunes; simpl; apply append_assoc |].
    repeat split; try assumption.
    rewrite P. destruct cs; reflexivity.
Qed.

(** A plain word alone is returned as it is, and leaves [Split] in
    [normal] state. *)
Lemma plain_word_alone opt w :
  plainWord opt w = true ->
  Split w (Some opt) = Some ([w], None)
  /\ modeAfter opt (utf8.rangeRunes w) = Some normal.
Proof.
  intros Hw. unfold plainWord in Hw.
  apply andb_prop in Hw. destruct Hw as [Hne Hw].
  assert (Hascii : forallb isAscii (list_ascii_of_string w) = true).
  { rewrite forallb_forall in *. intros a Hin.
    specialize (Hw a Hin). unfold plainByte in Hw.
    rewrite !andb_true_iff in Hw. tauto. }
  assert (Hcs : Forall (fun c => isspace (initQuoter opt) c = false
                                 /\ c <> ch "\" /\ c <> ch "034")
                  (map byteVal (list_ascii_of_string w))).
  { apply Forall_map, Forall_forall. intros a Hin.
    rewrite forallb_forall in Hw. specialize (Hw a Hin).
    unfold plainByte in Hw.
    rewrite !andb_true_iff, !negb_true_iff, !Z.eqb_neq in Hw.
    simpl. fold (isSpaceFor opt). tauto. }
  destruct (feed_plain _ (initQuoter opt) eq_refl Hcs)
    as [q' [E [B [S [F [I [R P]]]]]]].
  simpl in B, S, I, R, P.
  assert (Hp : partial q' = true).
  { rewrite P. destruct w; [discriminate Hne | reflexivity]. }
  assert (Hrun : run opt (utf8.rangeRunes w) = Some q').
  { rewrite (rangeRunes_ascii w Hascii). exact E. }
  split.
  - rewrite Split_splitRunes. unfold splitRunes. rewrite Hrun.
    rewrite (finish_single q' S Hp I), B, R.
    rewrite (encodeRunes_ascii w Hascii). reflexivity.
  - unfold modeAfter. rewrite Hrun. simpl. rewrite F. reflexivity.
Qed.

Lemma isSpaceFor_space opt : isSpaceFor opt (byteVal " ") = true.
Proof. unfold isSpaceFor. destruct (OnlySpaceIsSpace opt); reflexivity. Qed.

(** Words of ASCII characters that are no separator, quote or backslash,
    joined by single spaces, are returned by [Split] as they were,
    without error, with every configuration. *)
Theorem plain_words_round_trip (opt : Options) (ws : list string) :
  forallb (plainWord opt) ws = true ->
  Split (String.concat " " ws) (Some opt) = Some (ws, None).
Proof.
  induction ws as [|w ws IH]; intros H; [reflexivity |].
  simpl in H. apply andb_prop in H. destruct H as [Hw Hws].
  destruct (plain_word_alone opt w Hw) as [Sw Mw].
  destruct ws as [|w' ws']; [exact Sw |].
  change (String.concat " " (w :: w' :: ws'))
    with (w ++ String " " (String.concat " " (w' :: ws')))%string.
  destruct (split_over_separator opt w " " (String.concat " " (w' :: ws'))
              eq_refl (isSpaceFor_space opt) Mw)
    as [ws1 [e1 [ws2 [e2 [S1 [S2 S12]]]]]].
  rewrite Sw in S1. injection S1 as <- <-.
  rewrite (IH Hws) in S2. injection S2 as <- <-.
  exact S12.
Qed.

(** The words [foo] and [b'r]. *)
Lemma plain_words_round_trip_witness :
  forallb (plainWord zeroOptions) ["foo"%string; "b'r"%string] = true
  /\ Split (String.concat " " ["foo"%string; "b'r"%string]) (Some zeroOptions)
     = Some (["foo"%string; "b'r"%string], None).
Proof.
  split; [vm_compute; reflexivity |].
  apply (plain_words_round_trip zeroOptions ["foo"%string; "b'r"%string]).
  vm_compute; reflexivity.
Defined.

(* ------------------------------------------------------------------ *)
(** ** Runs of separators *)

Lemma Split_leading_separator opt a s :
  isAscii a = true -> isSpaceFor opt (byteVal a) = true ->
  Split (String a s) (Some opt) = Split s (Some opt).
Proof.
  intros Ha Hsp.
  destruct (split_over_separator opt "" a s Ha Hsp eq_refl)
    as [ws1 [e1 [ws2 [e2 [S1 [S2 S12]]]]]].
  change (Split ""%string (Some opt)) with (Some (@nil string, @None Error)) in S1.
  injection S1 as <- <-.
  simpl append in S12. rewrite S12, S2. simpl. destruct e2; reflexivity.
Qed.

(** Separators only separate: one before the input or after an input
    that ends in [normal] state changes nothing, and two in a row count
    as one. *)
Theorem separator_runs_collapse (opt : Options) (s1 : string) (a a' : ascii)
    (s2 : string) :
  isAscii a = true -> isSpaceFor opt (byteVal a) = true ->
  isAscii a' = true -> isSpaceFor opt (byteVal a') = true ->
  modeAfter opt (utf8.rangeRunes s1) = Some normal ->
  Split (String a s2) (Some opt) = Split s2 (Some opt)
  /\ Split (s1 ++ String a EmptyString) (Some opt) = Split s1 (Some opt)
  /\ Split (s1 ++ String a (String a' s2)) (Some opt)
     = Split (s1 ++ String a s2) (Some opt).
Proof.
  intros Ha Hsp Ha' Hsp' Hm.
  split; [apply Split_leading_separator; assumption |].
  split.
  - destruct (split_over_separator opt s1 a "" Ha Hsp Hm)
      as [ws1 [e1 [ws2 [e2 [S1 [S2 S12]]]]]].
    change (Split ""%string (Some opt)) with (Some (@nil string, @None Error)) in S2.
    injection S2 as <- <-.
    rewrite S12, S1, app_nil_r. reflexivity.
  - destruct (split_over_separator opt s1 a (String a' s2) Ha Hsp Hm)
      as [ws1 [e1 [ws2 [e2 [S1 [S2 S12]]]]]].
    destruct (split_over_separator opt s1 a s2 Ha Hsp Hm)
      as [ws1' [e1' [ws2' [e2' [S1' [S2' S12']]]]]].
    rewrite (Split_leading_separator opt a' s2 Ha' Hsp') in S2.
    rewrite S1 in S1'. injection S1' as <- <-.
    rewrite S2 in S2'. injection S2' as <- <-.
    rewrite S12, S12'. reflexivity.
Qed.

(** A space and a tab between [a] and [b]. *)
Lemma separator_runs_collapse_witness :
  isAscii " " = true /\ isSpaceFor zeroOptions (byteVal " ") = true
  /\ isAscii "009" = true /\ isSpaceFor zeroOptions (byteVal "009") = true
  /\ modeAfter zeroOptions (utf8.rangeRunes "a") = Some normal
  /\ Split (String " " "b") (Some zeroOptions) = Split "b" (Some zeroOptions)
  /\ Split ("a" ++ String " " EmptyString) (Some zeroOptions)
     = Split "a" (Some zeroOptions)
  /\ Split ("a" ++ String " " (String "009" "b")) (Some zeroOptions)
     = Split ("a" ++ String " " "b") (Some zeroOptions).
Proof.
  do 5 (split; [vm_compute; reflexivity |]).
  apply (separator_runs_collapse zeroOptions "a" " " "009" "b");
    vm_compute; reflexivity.
Defined.

(* ------------------------------------------------------------------ *)
(** ** The table of hex digits *)

Lemma hexDigits_table_checked :
  forallb (fun n => match hexDigits (Z.of_nat n) with
                    | Some v => v =? hexDigitValue (Z.of_nat n)
                    | None => false
                    end) (seq 0 128) = true.
Proof. vm_compute. reflexivity. Qed.

(** The table [hexDigits] holds, for each of the 128 ASCII characters,
    the value of the character as a hex digit, in either case, and -1 for
    a character that is none; so [stateHex] takes exactly the characters
    [0-9], [a-f] and [A-F] for digits. *)
Theorem hexDigits_table_correct (c : rune) :
  (if (0 <=? c) && (c <? 128)
   then hexDigits c = Some (hexDigitValue c)
   else hexDigits c = None)
  /\ isHexDigit c
     = ((ch "0" <=? c) && (c <=? ch "9")
        || (ch "a" <=? c) && (c <=? ch "f")
        || (ch "A" <=? c) && (c <=? ch "F")).
Proof.
  assert (Hin : 0 <= c < 128 -> hexDigits c = Some (hexDigitValue c)).
  { intros Hc.
    pose proof hexDigits_table_checked as H.
    rewrite forallb_forall in H.
    specialize (H (Z.to_nat c)).
    rewrite Z2Nat.id in H by lia.
    assert (Hs : In (Z.to_nat c) (seq 0 128)) by (apply in_seq; lia).
    specialize (H Hs).
    destruct (hexDigits c) as [v|]; [| discriminate].
    apply Z.eqb_eq in H. congruence. }
  split.
  - destruct ((0 <=? c) && (c <? 128)) eqn:E.
    + apply andb_prop in E. destruct E as [E1 E2].
      apply Z.leb_le in E1. apply Z.ltb_lt in E2. apply Hin. lia.
    + apply andb_false_iff in E. destruct E as [E|E].
      * apply Z.leb_gt in E. unfold hexDigits.
        destruct (c <? 0) eqn:E0; [reflexivity | apply Z.ltb_ge in E0; lia].
      * apply Z.ltb_ge in E. unfold hexDigits.
        destruct (c <? 0); [reflexivity |].
        apply nth_error_None. simpl. lia.
  - unfold isHexDigit.
    destruct (c <? 128) eqn:E128.
    + apply Z.ltb_lt in E128.
      destruct (Z_lt_le_dec c 0) as [Hneg|Hpos].
      * unfold hexDigits. destruct (c <? 0) eqn:E0; [| apply Z.ltb_ge in E0; lia].
        simpl. symmetry.
        change (ch "0") with 48. change (ch "a") with 97. change (ch "A") with 65.
        rewrite !orb_false_iff, !andb_false_iff, !Z.leb_gt. lia.
      * rewrite (Hin ltac:(lia)). simpl andb.
        unfold hexDigitValue.
        change (ch "0") with 48. change (ch "9") with 57.
        change (ch "a") with 97. change (ch "f") with 102.
        change (ch "A") with 65. change (ch "F") with 70.
        destruct ((48 <=? c) && (c <=? 57)) eqn:A.
        { rewrite !andb_true_iff, !Z.leb_le in A. simpl.
          apply negb_true_iff, Z.eqb_neq. lia. }
        destruct ((97 <=? c) && (c <=? 102)) eqn:B.
        { rewrite !andb_true_iff, !Z.leb_le in B. simpl.
          apply negb_true_iff, Z.eqb_neq. lia. }
        destruct ((65 <=? c) && (c <=? 70)) eqn:C.
        { rewrite !andb_true_iff, !Z.leb_le in C. simpl.
          apply negb_true_iff, Z.eqb_neq. lia. }
        reflexivity.
    + apply Z.ltb_ge in E128. simpl. symmetry.
      change (ch "9") with 57. change (ch "f") with 102. change (ch "F") with 70.
      rewrite !orb_false_iff, !andb_false_iff, !Z.leb_gt. lia.
Qed.

(* ------------------------------------------------------------------ *)
(** ** Options that the input does not exercise *)

Ltac core_open H :=
  unfold core in H;
  injection H as ?Hbuf ?Hst ?Hcf ?Hpa ?Hph ?Hhv ?Hix ?Herr.

Lemma core_WriteRune q q' r :
  core q = core q' -> core (WriteRune q r) = core (WriteRune q' r).
Proof. intros H. core_open H. unfold core; simpl; congruence. Qed.

Lemma core_pop q q' : core q = core q' -> core (pop q) = core (pop q').
Proof.
  intros H. core_open H. unfold pop. rewrite Hst.
  destruct (1 <? Z.of_nat (List.length (states q'))); unfold core; simpl;
    congruence.
Qed.

Lemma core_push q q' s : core q = core q' -> core (push q s) = core (push q' s).
Proof.
  intros H. core_open H. unfold push. rewrite Hst.
  unfold core; simpl. congruence.
Qed.

Lemma core_setPartial q q' p :
  core q = core q' -> core (setPartial q p) = core (setPartial q' p).
Proof. intros H. core_open H. unfold core; simpl; congruence. Qed.

Lemma core_newWord q q' : core q = core q' -> core (newWord q) = core (newWord q').
Proof.
  intros H. pose proof H as H'. core_open H'. unfold newWord, bufLen.
  rewrite Hpa, Hbuf, Hix.
  destruct (negb (partial q')); [exact H |].
  unfold core; simpl; congruence.
Qed.

Lemma core_stateNormal q q' c :
  core q = core q' -> isspace q c = isspace q' c ->
  core (stateNormal q c) = core (stateNormal q' c).
Proof.
  intros H Hsp. unfold stateNormal. rewrite Hsp.
  destruct (isspace q' c); [apply core_newWord; exact H |].
  apply core_setPartial.
  break_ifs; [apply core_push | apply core_push | apply core_WriteRune];
    exact H.
Qed.

Lemma core_stateQuoted q q' c :
  core q = core q' -> core (stateQuoted q c) = core (stateQuoted q' c).
Proof.
  intros H. unfold stateQuoted.
  break_ifs; [apply core_push | apply core_pop | apply core_WriteRune];
    exact H.
Qed.

Lemma core_stateBackslash q q' c :
  core q = core q' -> backslashF q = backslashF q' ->
  core (stateBackslash q c) = core (stateBackslash q' c).
Proof.
  intros H Hbs. unfold stateBackslash. rewrite Hbs.
  destruct (backslashF q').
  - unfold simpleBackslash. apply core_pop, core_WriteRune; exact H.
  - unfold fancyBackslash.
    pose proof (core_pop q q' H) as Hp. revert Hp.
    generalize (pop q) (pop q'). intros p p' Hp.
    break_ifs; try (apply core_WriteRune; exact Hp);
      try (unfold startHex; apply core_push;
           core_open Hp; unfold core; simpl; congruence).
    apply core_WriteRune. core_open Hp. unfold core; simpl; congruence.
Qed.

Lemma core_hexDigitStep q q' v :
  core q = core q' -> core (hexDigitStep q v) = core (hexDigitStep q' v).
Proof.
  intros H. unfold hexDigitStep. cbv zeta. simpl.
  assert (H1 : core (setHex q (wrap64 (parseHex q - 1))
                            (wrap32 (hexValue q * 16 + v)))
               = core (setHex q' (wrap64 (parseHex q' - 1))
                              (wrap32 (hexValue q' * 16 + v))))
    by (core_open H; unfold core; simpl; congruence).
  replace (parseHex q') with (parseHex q) at 1
    by (core_open H; exact Hph).
  destruct (wrap64 (parseHex q - 1) =? 0); [| exact H1].
  replace (hexValue q') with (hexValue q) at 2
    by (core_open H; exact Hhv).
  apply core_pop, core_WriteRune. exact H1.
Qed.

Lemma result_core (q q' : quoter) :
  core q = core q' ->
  match sliceWords (buf q) 0 (indexes q) with
  | Some words => Some (words, err q)
  | None => None
  end
  = match sliceWords (buf q') 0 (indexes q') with
    | Some words => Some (words, err q')
    | None => None
    end.
Proof.
  intros H. unfold core in H.
  injection H as Hbuf _ _ _ _ _ Hix Herr.
  rewrite Hbuf, Hix, Herr. reflexivity.
Qed.

Lemma finish_core q q' : core q = core q' -> finish q = finish q'.
Proof.
  intros H. unfold finish, endQuoter, atEnd.
  replace (states q) with (states q')
    by (unfold core in H; injection H as _ Hst _ _ _ _ _ _; congruence).
  destruct (top (states q')) as [[| | |]|]; try reflexivity;
    apply result_core, core_newWord; try exact H.
  - unfold core in *; simpl; congruence.
  - pose proof (core_WriteRune q q' (ch "\") H) as Hw.
    unfold core in *; simpl in *; congruence.
Qed.

Lemma core_currentFunc q q' : core q = core q' -> currentFunc q = currentFunc q'.
Proof. intros H. unfold core in H. injection H as _ _ Hcf _ _ _ _ _. exact Hcf. Qed.

Lemma core_hexValue q q' : core q = core q' -> hexValue q = hexValue q'.
Proof. intros H. unfold core in H. injection H as _ _ _ _ _ Hhv _ _. exact Hhv. Qed.

Lemma isspace_pop_WriteRune q r : isspace (pop (WriteRune q r)) = isspace q.
Proof. unfold pop; simpl. break_ifs; reflexivity. Qed.

(** Two quoters that differ in their configuration alone take the same
    step on a rune their tests for space agree on, if their backslash
    functions are the same or none is called. *)
Lemma Step_core q1 q2 c q1' q2' :
  Step q1 c q1' -> Step q2 c q2' ->
  core q1 = core q2 ->
  isspace q1 c = isspace q2 c ->
  (currentFunc q1 = backslash -> backslashF q1 = backslashF q2) ->
  core q1' = core q2'.
Proof.
  intros S1 S2 H Hsp Hbs.
  pose proof (core_currentFunc q1 q2 H) as Hcf.
  pose proof (core_hexValue q1 q2 H) as Hhv.
  assert (Hpw : core (pop (WriteRune q1 (hexValue q1)))
                = core (pop (WriteRune q2 (hexValue q2))))
    by (rewrite Hhv; apply core_pop, core_WriteRune; exact H).
  pose proof (core_currentFunc _ _ Hpw) as Hcf'.
  destruct S1 as [Hf|Hf|Hf|v Hf Hd Hv|Hf Hd Hb|Hf Hd Hb];
    destruct S2 as [Hg|Hg|Hg|w Hg He Hw|Hg He Hc|Hg He Hc];
    try congruence.
  - apply core_stateNormal; assumption.
  - apply core_stateQuoted; assumption.
  - apply core_stateBackslash; auto.
  - assert (v = w) by congruence. subst w.
    apply core_hexDigitStep; assumption.
  - apply core_stateNormal; [exact Hpw |].
    rewrite !isspace_pop_WriteRune. exact Hsp.
  - apply core_stateQuoted; exact Hpw.
Qed.

(** Without a backslash a step from [normal] or [quoted] state stays in
    one of the two. *)
Lemma Step_no_backslash q c q' :
  Inv q -> Step q c q' -> c <> ch "\" ->
  currentFunc q = normal \/ currentFunc q = quoted ->
  currentFunc q' = normal \/ currentFunc q' = quoted.
Proof.
  intros HI St Hc Hf.
  assert (Hcb : (c =? ch "\") = false) by (apply Z.eqb_neq; exact Hc).
  destruct St as [Hn|Hq|Hb|v Hh _ _|Hh _ _|Hh _ _];
    try (destruct Hf; congruence).
  - pose proof (Inv_top_normal q HI Hn) as Hst.
    unfold stateNormal, newWord, push. rewrite Hcb.
    break_ifs; simpl; auto.
  - pose proof (Inv_top_quoted q HI Hq) as Hst.
    unfold stateQuoted, pop, push. rewrite Hcb, Hst.
    break_ifs; simpl; auto.
Qed.

Lemma run_core opt1 opt2 (cs : list rune) :
  Forall (fun c => 0 <= c) cs ->
  (forall c, In c cs -> isSpaceFor opt1 c = isSpaceFor opt2 c) ->
  FancyBackslash opt1 = FancyBackslash opt2 \/ ~ In (ch "\") cs ->
  exists q1 q2,
    run opt1 cs = Some q1 /\ run opt2 cs = Some q2
    /\ core q1 = core q2
    /\ (~ In (ch "\") cs ->
        currentFunc q1 = normal \/ currentFunc q1 = quoted).
Proof.
  induction cs as [|c cs IH] using rev_ind; intros Hnn Hsp Hbs.
  - exists (initQuoter opt1), (initQuoter opt2). repeat split; auto.
  - apply Forall_app in Hnn. destruct Hnn as [Hnn Hc].
    inversion Hc as [|? ? Hc0 _]; subst.
    destruct (IH Hnn
                (fun x Hx => Hsp x (proj2 (in_app_iff _ _ _) (or_introl Hx)))
                ltac:(destruct Hbs as [A|A];
                      [left; exact A
                      | right; intros X; apply A, in_app_iff; auto]))
      as [q1 [q2 [E1 [E2 [Hcore Hmode]]]]].
    pose proof (run_Inv_inv opt1 cs q1 E1) as HI1.
    pose proof (run_Inv_inv opt2 cs q2 E2) as HI2.
    destruct (next_Inv q1 c HI1 Hc0) as [q1' [N1 _]].
    destruct (next_Inv q2 c HI2 Hc0) as [q2' [N2 _]].
    pose proof (next_Step q1 c q1' HI1 N1) as S1.
    pose proof (next_Step q2 c q2' HI2 N2) as S2.
    exists q1', q2'.
    rewrite (run_snoc opt1 cs c q1 E1), (run_snoc opt2 cs c q2 E2).
    split; [exact N1 |]. split; [exact N2 |].
    assert (Hnb : ~ In (ch "\") (cs ++ [c]) ->
                  ~ In (ch "\") cs /\ c <> ch "\").
    { intros X. split; [intros Y; apply X, in_app_iff; auto |].
      intros Y. apply X, in_app_iff. right. left. exact Y. }
    split.
    + apply (Step_core q1 q2 c q1' q2' S1 S2 Hcore).
      * rewrite (run_isspace opt1 cs q1 E1), (run_isspace opt2 cs q2 E2).
        apply Hsp, in_app_iff. right. left. reflexivity.
      * intros Hb.
        destruct (run_config opt1 cs q1 E1) as [_ B1].
        destruct (run_config opt2 cs q2 E2) as [_ B2].
        destruct Hbs as [A|A]; [rewrite B1, B2, A; reflexivity |].
        destruct (Hnb A) as [A1 _].
        destruct (Hmode A1); congruence.
    + intros X. destruct (Hnb X) as [A1 A2].
      apply (Step_no_backslash q1 c q1' HI1 S1 A2 (Hmode A1)).
Qed.

Lemma Split_core opt1 opt2 s :
  (forall c, In c (utf8.rangeRunes s) ->
             isSpaceFor opt1 c = isSpaceFor opt2 c) ->
  FancyBackslash opt1 = FancyBackslash opt2
  \/ ~ In (ch "\") (utf8.rangeRunes s) ->
  Split s (Some opt1) = Split s (Some opt2).
Proof.
  intros Hsp Hbs.
  destruct (run_core opt1 opt2 _ (rangeRunes_nonneg s) Hsp Hbs)
    as [q1 [q2 [E1 [E2 [Hcore _]]]]].
  unfold Split. simpl optionsOf. rewrite E1, E2.
  apply finish_core. exact Hcore.
Qed.

(** An option changes the result only on an input that exercises it:
    [FancyBackslash] makes no difference on an input without a backslash,
    and [OnlySpaceIsSpace] makes none on an input whose only white space
    is the space character. *)
Theorem unused_options_are_irrelevant (s : string) (fb osis : bool) :
  (~ In (ch "\") (utf8.rangeRunes s) ->
   Split s (Some (mkOptions true osis)) = Split s (Some (mkOptions false osis)))
  /\ ((forall c, In c (utf8.rangeRunes s) ->
                 unicode.IsSpace c = isExactSpace c) ->
      Split s (Some (mkOptions fb true)) = Split s (Some (mkOptions fb false))).
Proof.
  split.
  - intros H. apply Split_core; [reflexivity | right; exact H].
  - intros H. apply Split_core; [| left; reflexivity].
    intros c Hin. unfold isSpaceFor. simpl. symmetry. apply H, Hin.
Qed.

(** The input [a b] has no backslash and no white space but the space. *)
Lemma unused_options_are_irrelevant_witness :
  ~ In (ch "\") (utf8.rangeRunes "a b")
  /\ (forall c, In c (utf8.rangeRunes "a b") ->
                unicode.IsSpace c = isExactSpace c)
  /\ Split "a b" (Some (mkOptions true false))
     = Split "a b" (Some (mkOptions false false))
  /\ Split "a b" (Some (mkOptions true true))
     = Split "a b" (Some (mkOptions true false)).
Proof.
  assert (H1 : ~ In (ch "\") (utf8.rangeRunes "a b")).
  { vm_compute. intros [H|[H|[H|H]]]; try discriminate H; exact H. }
  assert (H2 : forall c, In c (utf8.rangeRunes "a b") ->
                         unicode.IsSpace c = isExactSpace c).
  { intros c Hin. vm_compute in Hin.
    destruct Hin as [<-|[<-|[<-|[]]]]; reflexivity. }
  split; [exact H1 |]. split; [exact H2 |].
  split.
  - apply (proj1 (unused_options_are_irrelevant "a b" true false) H1).
  - apply (proj2 (unused_options_are_irrelevant "a b" true false) H2).
Defined.

(* ------------------------------------------------------------------ *)
(** ** The test driver *)

Lemma reportWords_zero out : forall r i,
  reportWords r i out = 0%nat -> firstn (List.length out) (skipn i r) = out.
Proof.
  induction out as [|o out IH]; intros r i H; [reflexivity |].
  simpl in H. apply Nat.eq_add_0 in H. destruct H as [H1 H2].
  destruct (nth_error r i) as [ri|] eqn:En; [| discriminate].
  destruct (String.eqb ri o) eqn:Eo; [| discriminate].
  apply String.eqb_eq in Eo. subst ri.
  specialize (IH r (S i) H2).
  clear H1 H2. revert i En IH.
  induction r as [|x r IHr]; intros [|i] En IH; simpl in *; try discriminate.
  - injection En as ->. rewrite IH. reflexivity.
  - apply (IHr i En IH).
Qed.

Lemma reportWords_same out : forall pre,
  reportWords (pre ++ out) (List.length pre) out = 0%nat.
Proof.
  induction out as [|o out IH]; intros pre; [reflexivity |].
  simpl. rewrite nth_error_app2 by lia. rewrite Nat.sub_diag. simpl.
  rewrite String.eqb_refl. simpl.
  replace (pre ++ o :: out) with ((pre ++ [o]) ++ out)
    by (rewrite <- app_assoc; reflexivity).
  replace (S (List.length pre)) with (List.length (pre ++ [o]))
    by (rewrite length_app; simpl; lia).
  apply IH.
Qed.

(** [doTest] reports nothing exactly when [Split] returns the expected
    words, all of them and no other, and the expected error: none when
    the expected message is empty, the error of that message otherwise.
    Every test of the table [tests] passes. *)
Theorem doTest_passes_iff (q : quoteTest) :
  (doTest q = Some 0%nat
   <-> exists e,
        Split (input q) (opts q) = Some (output q, e)
        /\ (if String.eqb (errWanted q) "" then e = None
            else e = Some (errWanted q)))
  /\ forallb (fun t => match doTest t with
                       | Some 0%nat => true
                       | _ => false
                       end) tests = true.
Proof.
  split; [| vm_compute; reflexivity].
  unfold doTest.
  destruct (Split (input q) (opts q)) as [[r e]|]; [| split; [discriminate |]].
  - split.
    + intros H. injection H as H.
      apply Nat.eq_add_0 in H. destruct H as [H He].
      apply Nat.eq_add_0 in H. destruct H as [H Hx].
      apply Nat.eq_add_0 in H. destruct H as [Hl Hw].
      destruct (Nat.eqb (List.length r) (List.length (output q))) eqn:El;
        [| discriminate].
      apply Nat.eqb_eq in El.
      pose proof (reportWords_zero _ r 0%nat Hw) as Hf.
      simpl in Hf. rewrite <- El, firstn_all in Hf. subst r.
      exists e. split; [reflexivity |].
      unfold reportError, ErrorString in He.
      destruct e as [got|]; destruct (String.eqb (errWanted q) "");
        try discriminate; try reflexivity.
      destruct (String.eqb got (errWanted q)) eqn:Eg; [| discriminate].
      apply String.eqb_eq in Eg. rewrite Eg. reflexivity.
    + intros [e' [H He]]. injection H as -> ->.
      rewrite Nat.eqb_refl, Nat.sub_diag.
      pose proof (reportWords_same (output q) []) as Hw. simpl in Hw.
      rewrite Hw.
      unfold reportError, ErrorString.
      destruct (String.eqb (errWanted q) ""); subst e'; [reflexivity |].
      rewrite String.eqb_refl. reflexivity.
  - intros [e [H _]]. discriminate H.
Qed.

(* ------------------------------------------------------------------ *)
(** ** [push] and [pop] *)

(** A [push] puts its state on top and in charge, and the [pop] after it
    gives the stack back: the stack is the one before the [push], with
    [normal] put at the bottom if it was empty, and the state in charge is
    the one on top of it. *)
Theorem push_pop_round_trip (q : quoter) (s : state) :
  top (states (push q s)) = Some s
  /\ currentFunc (push q s) = s
  /\ states (pop (push q s))
     = match states q with
       | [] => [normal]
       | _ => states q
       end
  /\ currentFunc (pop (push q s)) = last (states q) normal.
Proof.
  split; [unfold push; simpl; apply top_snoc |].
  split; [reflexivity |].
  unfold pop, push. cbn [states setStack].
  destruct (states q) as [|a st] eqn:Hst; [simpl; auto |].
  remember (a :: st) as l eqn:Hl.
  assert (Hlen : (1 <? Z.of_nat (List.length (l ++ [s]))) = true).
  { apply Z.ltb_lt. rewrite length_app. subst l. simpl. lia. }
  rewrite Hlen. cbn [states currentFunc setStack].
  rewrite !removelast_last. split; reflexivity.
Qed.
